(** * Proxy selection engine of stealth-api (helpers/proxy-pool.mjs)

    A shallow embedding of the catalog model, the distribution normalizer,
    the session-token expander and the [ProxyDirector] of
    [helpers/proxy-pool.mjs], with the properties its specification states.

    Conventions of the embedding:
    - a plain JS object is an association list in [Object.keys] order
      (own enumerable string keys); property read is [obj_get], a read of
      an own property (keys that name a member of [Object.prototype] are
      outside the model);
    - JS numbers that the source computes with are rationals [Q]; a weight
      read from outside may also be [NaN] or an infinity ([JSNum]);
    - [Math.random()] is an explicit argument, a rational [u] that the
      caller promises to lie in [0,1);
    - a [throw] is the [inl] of a sum, returned next to the director state
      reached when the exception leaves [pickProxy];
    - strings are byte strings; [toUpperCase] maps the ASCII letters, which
      is what country codes are made of. *)

From Stdlib Require Import QArith Qminmax Qround Lqa Lia ZArith Ascii String.
From stdpp Require Import base strings list gmap.

Local Open Scope string_scope.
Local Open Scope list_scope.

(** ** Plain objects *)

Definition obj (V : Type) : Type := list (string * V).

Definition Object_keys {V} (o : obj V) : list string := map fst o.

Fixpoint obj_get {V} (o : obj V) (k : string) : option V :=
  match o with
  | [] => None
  | (k', v) :: o' => if String.eqb k' k then Some v else obj_get o' k
  end.

(** ** Numbers *)

Inductive JSNum : Type :=
| NFin (q : Q)
| NNaN
| NPosInf
| NNegInf.

(** [clamp01(n) = Math.max(0, Math.min(1, Number(n) || 0))]; a missing
    property is [undefined], whose [Number] is [NaN]. *)
Definition clamp01 (n : option JSNum) : Q :=
  match n with
  | Some (NFin q) => Qmax 0 (Qmin 1 q)
  | Some NPosInf => 1
  | Some NNegInf => 0
  | Some NNaN => 0
  | None => 0
  end.

Definition sumQ (l : list Q) : Q := fold_left Qplus l 0%Q.

Definition Qnat (n : nat) : Q := inject_Z (Z.of_nat n).

(** ** normalizeDistribution *)

Definition clamped_sum (dist : obj JSNum) (keys : list string) : Q :=
  fold_left (fun s k => (s + clamp01 (obj_get dist k))%Q) keys 0%Q.

Definition normalizeDistribution (dist : obj JSNum) : obj Q :=
  let keys := Object_keys dist in
  if Nat.eqb (length keys) 0 then []
  else
    let sum := clamped_sum dist keys in
    if Qle_bool sum 0 then
      let uniform := (1 / Qnat (length keys))%Q in
      map (fun k => (k, uniform)) keys
    else
      map (fun k => (k, (clamp01 (obj_get dist k) / sum)%Q)) keys.

(** A normalized distribution read back as an input distribution. *)
Definition asDist (d : obj Q) : obj JSNum := map (fun kv => (kv.1, NFin kv.2)) d.

(** ** Strings *)

Definition upper_ascii (c : ascii) : ascii :=
  let n := nat_of_ascii c in
  if (97 <=? n)%nat && (n <=? 122)%nat then ascii_of_nat (n - 32) else c.

Fixpoint toUpperCase (s : string) : string :=
  match s with
  | EmptyString => EmptyString
  | String c s' => String (upper_ascii c) (toUpperCase s')
  end.

(** [a || b] on values that are strings or [undefined]/[null]: the empty
    string is falsy. *)
Definition truthy (s : option string) : option string :=
  match s with
  | Some EmptyString => None
  | _ => s
  end.

Definition or_else {A} (a b : option A) : option A :=
  match a with
  | Some _ => a
  | None => b
  end.

Definition string_drop (n : nat) (s : string) : string :=
  String.substring n (String.length s - n) s.

(** [GetSubstitution] of ECMA-262 for a string search value: there are no
    captures, so [$n] and [$<] stay literal and only [$$], [$&], [$`] and
    [$'] are replacement patterns.  [before] and [after] are the parts of
    the subject string around the match. *)
Fixpoint GetSubstitution (matched before after tmpl : string) : string :=
  match tmpl with
  | EmptyString => EmptyString
  | String a t' =>
      if Ascii.eqb a "$" then
        match t' with
        | EmptyString => String a EmptyString
        | String c rest =>
            if Ascii.eqb c "$" then String "$" (GetSubstitution matched before after rest)
            else if Ascii.eqb c "`" then before +:+ GetSubstitution matched before after rest
            else if Ascii.eqb c "&" then matched +:+ GetSubstitution matched before after rest
            else if Ascii.eqb c "'" then after +:+ GetSubstitution matched before after rest
            else String a (GetSubstitution matched before after t')
        end
      else String a (GetSubstitution matched before after t')
  end.

(** [String.prototype.replaceAll(pat, tmpl)] for a non-empty string [pat]:
    matches are found left to right without overlap, each is replaced by
    [GetSubstitution]; [skip] counts the characters of the current match
    still to be consumed. *)
Fixpoint replaceAll_from (pat tmpl before : string) (skip : nat) (rest : string) : string :=
  match rest with
  | EmptyString => EmptyString
  | String c rest' =>
      match skip with
      | S k => replaceAll_from pat tmpl (before +:+ String c EmptyString) k rest'
      | O =>
          if String.prefix pat rest then
            GetSubstitution pat before (string_drop (String.length pat) rest) tmpl
            +:+ replaceAll_from pat tmpl (before +:+ String c EmptyString)
                 (String.length pat - 1) rest'
          else
            String c (replaceAll_from pat tmpl (before +:+ String c EmptyString) 0 rest')
      end
  end.

Definition replaceAll (s pat tmpl : string) : string :=
  replaceAll_from pat tmpl EmptyString 0 s.

(** What the specification describes: every occurrence of [pat] replaced by
    the text [new] itself. *)
Fixpoint replaceLiteral_from (pat new : string) (skip : nat) (rest : string) : string :=
  match rest with
  | EmptyString => EmptyString
  | String c rest' =>
      match skip with
      | S k => replaceLiteral_from pat new k rest'
      | O =>
          if String.prefix pat rest then
            new +:+ replaceLiteral_from pat new (String.length pat - 1) rest'
          else String c (replaceLiteral_from pat new 0 rest')
      end
  end.

Definition replaceLiteral (s pat new : string) : string := replaceLiteral_from pat new 0 s.

(** ** Catalog model *)

Record ProxyConfig : Type := mkProxyConfig {
  protocol : string;
  host : string;
  port : JSNum;
  username : option string;
  password : option string;
  auth : option string;
  (** any further own property of the stored endpoint object *)
  other_fields : obj string
}.

Record ProviderEntry : Type := mkProviderEntry {
  provider : option string;
  notes : option string;
  endpoint : option ProxyConfig
}.

(** The value stored under a type key: an array of slots ([None] is a
    [null] slot) or something that is not an array. *)
Inductive PoolValue : Type :=
| PArr (slots : list (option ProviderEntry))
| PNotArray.

Definition CountryRecord : Type := obj PoolValue.
Definition ProxyCatalog : Type := obj CountryRecord.

Definition session_token : string := "${session}".

(** [applySessionToken(cfg, session)] *)
Definition applySessionToken (cfg : ProxyConfig) (session : string) : ProxyConfig :=
  if String.eqb session "" then cfg
  else
    let rep := fun v => replaceAll v session_token session in
    {| protocol := protocol cfg;
       host := rep (host cfg);
       port := port cfg;
       username := rep <$> username cfg;
       password := rep <$> password cfg;
       auth := None;
       other_fields := [] |}.

(** The expansion as the specification words it. *)
Definition expandSessionLiteral (cfg : ProxyConfig) (session : string) : ProxyConfig :=
  if String.eqb session "" then cfg
  else
    let rep := fun v => replaceLiteral v session_token session in
    {| protocol := protocol cfg;
       host := rep (host cfg);
       port := port cfg;
       username := rep <$> username cfg;
       password := rep <$> password cfg;
       auth := None;
       other_fields := [] |}.

(** ** sanitizeEntry (the builder's validation of one entry) *)

Definition is_js_space (c : ascii) : bool :=
  let n := nat_of_ascii c in
  ((9 <=? n)%nat && (n <=? 13)%nat) || (n =? 32)%nat.

Fixpoint trim_start (s : string) : string :=
  match s with
  | EmptyString => EmptyString
  | String c s' => if is_js_space c then trim_start s' else s
  end.

(** [String.prototype.trim] on the ASCII white space and line terminators. *)
Definition trim (s : string) : string :=
  String.rev (trim_start (String.rev (trim_start s))).

Inductive TypeError : Type :=
| EntryNotObject
| BadProvider
| EndpointNotObject
| BadProtocol (got : string)
| BadHost
| BadPort (got : JSNum).

Definition string_and (a b : option string) : option string :=
  match truthy a with
  | Some _ => truthy b
  | None => None
  end.

Definition sanitizeEntry (entry : option ProviderEntry) : TypeError + ProviderEntry :=
  match entry with
  | None => inl EntryNotObject
  | Some e =>
      match truthy (provider e) with
      | None => inl BadProvider
      | Some prov =>
          match endpoint e with
          | None => inl EndpointNotObject
          | Some ep =>
              if negb (String.eqb (protocol ep) "http" || String.eqb (protocol ep) "https"
                       || String.eqb (protocol ep) "socks5")
              then inl (BadProtocol (protocol ep))
              else if String.eqb (host ep) "" then inl BadHost
              else
                match port ep with
                | NFin p =>
                    if Qle_bool p 0 then inl (BadPort (port ep))
                    else
                      let auth' :=
                        or_else (auth ep)
                          (match string_and (username ep) (password ep) with
                           | Some _ =>
                               match username ep, password ep with
                               | Some u, Some p => Some (u +:+ ":" +:+ p)
                               | _, _ => None
                               end
                           | None => None
                           end) in
                      inr {| provider := Some (trim prov);
                             notes := None;
                             endpoint := Some {| protocol := protocol ep;
                                                 host := host ep;
                                                 port := port ep;
                                                 username := username ep;
                                                 password := password ep;
                                                 auth := auth';
                                                 other_fields := [] |} |}
                | _ => inl (BadPort (port ep))
                end
          end
      end
  end.

(** ** ProxyDirector *)

Record StickyEntry : Type := mkSticky {
  st_country : string;
  st_type : string;
  st_index : Z
}.

Record ProxyDirector : Type := mkDirector {
  catalog : ProxyCatalog;
  countryDistribution : obj Q;
  defaultType : string;
  defaultStrategy : string;
  _rr : gmap string Z;
  _sticky : gmap string StickyEntry
}.

(** [this._pools = this.catalog] *)
Definition _pools (d : ProxyDirector) : ProxyCatalog := catalog d.

Definition set_rr (d : ProxyDirector) (rr : gmap string Z) : ProxyDirector :=
  {| catalog := catalog d; countryDistribution := countryDistribution d;
     defaultType := defaultType d; defaultStrategy := defaultStrategy d;
     _rr := rr; _sticky := _sticky d |}.

Definition set_sticky (d : ProxyDirector) (st : gmap string StickyEntry) : ProxyDirector :=
  {| catalog := catalog d; countryDistribution := countryDistribution d;
     defaultType := defaultType d; defaultStrategy := defaultStrategy d;
     _rr := _rr d; _sticky := st |}.

(** [new ProxyDirector({ catalog, countryDistribution, defaultType, defaultStrategy })];
    a parameter left out is [None]. *)
Definition new_ProxyDirector (cat : option ProxyCatalog) (dist : option (obj JSNum))
    (dType dStrategy : option string) : ProxyDirector :=
  {| catalog := default [] cat;
     countryDistribution := normalizeDistribution (default [] dist);
     defaultType := default "res_rotating" dType;
     defaultStrategy := default "random" dStrategy;
     _rr := ∅;
     _sticky := ∅ |}.

Definition setCountryDistribution (d : ProxyDirector) (dist : option (obj JSNum)) : ProxyDirector :=
  {| catalog := catalog d;
     countryDistribution := normalizeDistribution (default [] dist);
     defaultType := defaultType d; defaultStrategy := defaultStrategy d;
     _rr := _rr d; _sticky := _sticky d |}.

(** [arr[i]] for a JS number [i] that is an integer. *)
Definition arr_get {A} (l : list A) (i : Z) : option A :=
  if (i <? 0)%Z then None else nth_error l (Z.to_nat i).

(** [Math.floor(Math.random() * len)] with the draw [u]. *)
Definition random_index (u : Q) (len : nat) : Z := Qfloor (u * Qnat len).

(** The loop of [weightedPick]; [r] is the residue of [r -= weights[i]].
    The residue is an exact rational here.  In binary64 it is rounded, so
    that a residue which is 0 here can be a tiny positive number there; the
    loop then goes on to a later entry, or to the fall-through
    [entries[entries.length - 1]].  What is stated below of [weightedPick]
    and of [_pickCountry] does not depend on how the residue is rounded:
    subtracting a weight of 0 leaves any residue as it is. *)
Fixpoint weightedPick_loop (entries : list (string * Q)) (r : Q) : option string :=
  match entries with
  | [] => None
  | (k, w) :: rest =>
      let r' := (r - Qmax 0 w)%Q in
      if Qle_bool r' 0 then Some k else weightedPick_loop rest r'
  end.

Definition weightedPick (entries : list (string * Q)) (u : Q) : option string :=
  let weights := map (fun e => Qmax 0 e.2) entries in
  let total := sumQ weights in
  if Qle_bool total 0 then head (map fst entries)
  else
    match weightedPick_loop entries (u * total)%Q with
    | Some k => Some k
    | None => last (map fst entries)
    end.

Definition _pickCountry (d : ProxyDirector) (u : Q) : option string :=
  let countries := Object_keys (_pools d) in
  if Nat.eqb (length countries) 0 then None
  else
    let weighted :=
      map (fun c => (c, default 0%Q (obj_get (countryDistribution d) c))) countries in
    let allZero := forallb (fun w => Qle_bool w.2 0) weighted in
    if allZero then arr_get countries (random_index u (length countries))
    else weightedPick weighted u.

(** [_nextRR(key, len)]: the new cursor value and the updated director. *)
Definition _nextRR (d : ProxyDirector) (key : string) (len : nat) : Z * ProxyDirector :=
  let i := Z.rem (default 0%Z (_rr d !! key) + 1) (Z.of_nat len) in
  (i, set_rr d (<[key := i]> (_rr d))).

Definition populated (cRec : CountryRecord) (t : string) : bool :=
  match obj_get cRec t with
  | Some (PArr (_ :: _)) => true
  | _ => false
  end.

Definition type_order : list string :=
  ["res_rotating"; "res_static"; "dc_rotating"; "dc_static"].

Definition firstAvailableType (cRec : CountryRecord) : option string :=
  match find (populated cRec) type_order with
  | Some t => Some t
  | None => truthy (head (List.filter (populated cRec) (Object_keys cRec)))
  end.

Record ProxySelectionOptions : Type := mkSel {
  sel_country : option string;
  sel_type : option string;
  sel_strategy : option string;
  sessionKey : option string
}.

Record ProxyPickMeta : Type := mkPick {
  proxyConfig : ProxyConfig;
  pick_country : string;
  pick_type : string;
  pick_strategy : string;
  pick_provider : option string;
  pick_notes : option string
}.

(** The five [throw] statements of [pickProxy], in source order. *)
Inductive PickError : Type :=
| NoCountriesAvailable
| NoProxyTypes (country : string)
| EmptyPool (country type : string)
| EmptySlot (country : string) (index : Z)
| MissingEndpoint (country : string) (index : Z).

(** The two draws of [Math.random()] one call can make: one in
    [_pickCountry], one in the strategy. *)
Record Rand : Type := mkRand {
  rand_country : Q;
  rand_index : Q
}.

(** [(sel.country || this._pickCountry() || Object.keys(this._pools)[0] || "").toUpperCase()] *)
Definition resolveCountry (d : ProxyDirector) (sel : ProxySelectionOptions) (u : Q) : string :=
  toUpperCase
    (default ""
       (or_else (truthy (sel_country sel))
          (or_else (truthy (_pickCountry d u))
             (truthy (head (Object_keys (_pools d))))))).

(** [sel.type || this.defaultType] *)
Definition desiredType (d : ProxyDirector) (sel : ProxySelectionOptions) : string :=
  default (defaultType d) (truthy (sel_type sel)).

(** [sel.strategy || this.defaultStrategy] *)
Definition resolveStrategy (d : ProxyDirector) (sel : ProxySelectionOptions) : string :=
  default (defaultStrategy d) (truthy (sel_strategy sel)).

(** The value of [poolType] that passes [if (!poolType) throw]. *)
Definition resolvePoolType (cRec : CountryRecord) (desired : string) : option string :=
  truthy (if populated cRec desired then Some desired else firstAvailableType cRec).

(** First part of [pickProxy]: country, type and pool, or one of the first
    three throws. *)
Definition resolvePool (d : ProxyDirector) (sel : ProxySelectionOptions) (u : Q)
  : PickError + (string * string * list (option ProviderEntry)) :=
  let country := resolveCountry d sel u in
  if String.eqb country "" then inl NoCountriesAvailable
  else
    match obj_get (_pools d) country with
    | None => inl NoCountriesAvailable
    | Some cRec =>
        match resolvePoolType cRec (desiredType d sel) with
        | None => inl (NoProxyTypes country)
        | Some poolType =>
            match obj_get cRec poolType with
            | Some (PArr (e :: pool')) => inr (country, poolType, e :: pool')
            | _ => inl (EmptyPool country poolType)
            end
        end
    end.

Definition rr_key (country poolType : string) : string := country +:+ ":" +:+ poolType.

(** Second part: the strategy branch computing [index], with the state it
    leaves. *)
Definition chooseIndex (d : ProxyDirector) (country poolType : string) (len : nat)
    (strategy : string) (sk : option string) (u : Q) : Z * ProxyDirector :=
  if String.eqb strategy "random" then (random_index u len, d)
  else if String.eqb strategy "roundRobin" then _nextRR d (rr_key country poolType) len
  else if String.eqb strategy "sticky" then
    let key := default "" (truthy sk) in
    if String.eqb key "" then _nextRR d (rr_key country poolType) len
    else
      let fresh :=
        let index := random_index u len in
        (index, set_sticky d (<[key := mkSticky country poolType index]> (_sticky d))) in
      match _sticky d !! key with
      | Some existing =>
          if String.eqb (st_country existing) country
             && String.eqb (st_type existing) poolType
             && (st_index existing <? Z.of_nat len)%Z
          then (st_index existing, d)
          else fresh
      | None => fresh
      end
  else (random_index u len, d).

(** Third part: the entry at [index], the last two throws, the expansion and
    the returned record. *)
Definition finishPick (pool : list (option ProviderEntry)) (index : Z)
    (country poolType strategy : string) (sk : option string)
  : PickError + ProxyPickMeta :=
  match arr_get pool index with
  | Some (Some entry) =>
      match endpoint entry with
      | None => inl (MissingEndpoint country index)
      | Some ep =>
          inr {| proxyConfig := applySessionToken ep (default "" (truthy sk));
                 pick_country := country;
                 pick_type := poolType;
                 pick_strategy := strategy;
                 pick_provider := provider entry;
                 pick_notes := notes entry |}
      end
  | _ => inl (EmptySlot country index)
  end.

(** [pickProxy(sel)]: the director after the call and what the call
    returned or threw. *)
Definition pickProxy (d : ProxyDirector) (sel : ProxySelectionOptions) (rnd : Rand)
  : ProxyDirector * (PickError + ProxyPickMeta) :=
  match resolvePool d sel (rand_country rnd) with
  | inl e => (d, inl e)
  | inr (country, poolType, pool) =>
      let strategy := resolveStrategy d sel in
      let '(index, d') :=
        chooseIndex d country poolType (length pool) strategy (sessionKey sel)
          (rand_index rnd) in
      (d', finishPick pool index country poolType strategy (sessionKey sel))
  end.

(** Successive calls on one director. *)
Fixpoint pickMany (d : ProxyDirector) (calls : list (ProxySelectionOptions * Rand))
  : ProxyDirector * list (PickError + ProxyPickMeta) :=
  match calls with
  | [] => (d, [])
  | (sel, rnd) :: rest =>
      let '(d1, r) := pickProxy d sel rnd in
      let '(d2, rs) := pickMany d1 rest in
      (d2, r :: rs)
  end.

(** ** Predicates used in the statements *)

(** The contract of [Math.random()]. *)
Definition unit_draw (u : Q) : Prop := (0 <= u)%Q /\ (u < 1)%Q.

(** Cursor values and pinned indexes are never negative: true when the
    director is created, kept by every call. *)
Definition rr_nonneg (d : ProxyDirector) : Prop :=
  forall k v, _rr d !! k = Some v -> (0 <= v)%Z.

Definition sticky_nonneg (d : ProxyDirector) : Prop :=
  forall k e, _sticky d !! k = Some e -> (0 <= st_index e)%Z.

Definition state_ok (d : ProxyDirector) : Prop := rr_nonneg d /\ sticky_nonneg d.

Definition slot_ok (s : option ProviderEntry) : bool :=
  match s with
  | Some e => match endpoint e with Some _ => true | None => false end
  | None => false
  end.

Definition pool_value_ok (v : PoolValue) : bool :=
  match v with
  | PArr slots => forallb slot_ok slots
  | PNotArray => true
  end.

(** Every pool slot is a non-null entry carrying an endpoint. *)
Definition slots_ok (cat : ProxyCatalog) : bool :=
  forallb (fun cr => forallb (fun tv => pool_value_ok tv.2) cr.2) cat.

(** Country keys are non-empty and already upper case, type keys are
    non-empty: the shape the builder produces. *)
Definition keys_ok (cat : ProxyCatalog) : bool :=
  forallb (fun cr => negb (String.eqb cr.1 "") && String.eqb (toUpperCase cr.1) cr.1
                     && forallb (fun tv => negb (String.eqb tv.1 "")) cr.2) cat.

Definition has_populated_type (cRec : CountryRecord) : bool :=
  existsb (populated cRec) (Object_keys cRec).

(** The same call with another strategy. *)
Definition with_strategy (sel : ProxySelectionOptions) (s : string) : ProxySelectionOptions :=
  {| sel_country := sel_country sel; sel_type := sel_type sel;
     sel_strategy := Some s; sessionKey := sessionKey sel |}.

(** Sum of [g k] over the keys, accumulated the way the source's loop does. *)
Definition sum_over (g : string -> Q) (keys : list string) : Q :=
  fold_left (fun s k => (s + g k)%Q) keys 0%Q.

(** Two distributions with the same keys in the same order and equal
    rational weights. *)
Definition dist_eq (a b : obj Q) : Prop :=
  Forall2 (fun x y => x.1 = y.1 /\ (x.2 == y.2)%Q) a b.

Fixpoint has_dollar (s : string) : bool :=
  match s with
  | EmptyString => false
  | String c s' => Ascii.eqb c "$" || has_dollar s'
  end.

(** Configuration (everything but the cursors and the sticky table). *)
Definition same_config (d d' : ProxyDirector) : Prop :=
  catalog d = catalog d'
  /\ countryDistribution d = countryDistribution d'
  /\ defaultType d = defaultType d'
  /\ defaultStrategy d = defaultStrategy d'.

(** ** Concrete data used in examples *)

Definition templated_endpoint : ProxyConfig :=
  {| protocol := "http"; host := "u-${session}.proxy.io"; port := NFin 8080;
     username := Some "acct-${session}"; password := Some "pw";
     auth := None; other_fields := [] |}.

Definition plain_endpoint (h : string) : ProxyConfig :=
  {| protocol := "http"; host := h; port := NFin 80;
     username := Some "user"; password := Some "pass";
     auth := None; other_fields := [] |}.

Definition raw_entry (name h : string) : ProviderEntry :=
  {| provider := Some name; notes := None; endpoint := Some (plain_endpoint h) |}.

(** What the builder stores for [raw_entry name h]: [sanitizeEntry] derives
    [auth] from the user name and the password. *)
Definition built_entry (name h : string) : ProviderEntry :=
  {| provider := Some name; notes := None;
     endpoint := Some {| protocol := "http"; host := h; port := NFin 80;
                         username := Some "user"; password := Some "pass";
                         auth := Some "user:pass"; other_fields := [] |} |}.

Definition three_pool : list (option ProviderEntry) :=
  [Some (built_entry "A" "a.io"); Some (built_entry "B" "b.io"); Some (built_entry "C" "c.io")].

Definition us_catalog : ProxyCatalog := [("US", [("res_rotating", PArr three_pool)])].

Definition us_director : ProxyDirector :=
  new_ProxyDirector (Some us_catalog) (Some [("US", NFin 1)]) None None.

Definition dc_catalog : ProxyCatalog :=
  [("DE", [("res_rotating", PArr []); ("dc_static", PArr [Some (built_entry "D" "d.io")])])].

Definition dc_director : ProxyDirector := new_ProxyDirector (Some dc_catalog) None None None.

Definition lower_catalog : ProxyCatalog :=
  [("us", [("res_rotating", PArr [Some (built_entry "A" "a.io")])])].

Definition lower_director : ProxyDirector := new_ProxyDirector (Some lower_catalog) None None None.

Definition no_options : ProxySelectionOptions :=
  {| sel_country := None; sel_type := None; sel_strategy := None; sessionKey := None |}.

Definition zero_draws : Rand := {| rand_country := 0; rand_index := 0 |}.

(** The same outcome with another [strategy] label. *)
Definition relabel (s : string) (r : PickError + ProxyPickMeta) : PickError + ProxyPickMeta :=
  match r with
  | inl e => inl e
  | inr m => inr {| proxyConfig := proxyConfig m; pick_country := pick_country m;
                    pick_type := pick_type m; pick_strategy := s;
                    pick_provider := pick_provider m; pick_notes := pick_notes m |}
  end.

(** A call that uses the sticky table under [key]. *)
Definition sticky_call_on (d : ProxyDirector) (key : string)
    (call : ProxySelectionOptions * Rand) : Prop :=
  resolveStrategy d call.1 = "sticky" /\ truthy (sessionKey call.1) = Some key.

Definition two_country_catalog : ProxyCatalog :=
  [("US", [("res_rotating", PArr three_pool)]);
   ("DE", [("res_rotating", PArr [Some (built_entry "D" "d.io")])])].

Definition two_country_director : ProxyDirector :=
  new_ProxyDirector (Some two_country_catalog) None None None.

Definition sticky_call (country key : string) (u : Q) : ProxySelectionOptions * Rand :=
  ({| sel_country := Some country; sel_type := None; sel_strategy := Some "sticky";
      sessionKey := Some key |},
   {| rand_country := 0; rand_index := u |}).

(** Host of the proxy a call returned, if it returned one. *)
Definition picked_host (r : PickError + ProxyPickMeta) : option string :=
  match r with
  | inr m => Some (host (proxyConfig m))
  | inl _ => None
  end.

Definition session_options : ProxySelectionOptions :=
  {| sel_country := None; sel_type := None; sel_strategy := None; sessionKey := Some "s1" |}.

(** What [pickProxy(session_options)] returns on [us_director] when both
    draws are 0. *)
Definition session_pick : ProxyPickMeta :=
  {| proxyConfig := {| protocol := "http"; host := "a.io"; port := NFin 80;
                       username := Some "user"; password := Some "pass";
                       auth := None; other_fields := [] |};
     pick_country := "US"; pick_type := "res_rotating"; pick_strategy := "random";
     pick_provider := Some "A"; pick_notes := None |}.

Definition de_residential : ProxySelectionOptions :=
  {| sel_country := Some "de"; sel_type := Some "res_rotating"; sel_strategy := None;
     sessionKey := None |}.

Definition roundRobin_options : ProxySelectionOptions := with_strategy no_options "roundRobin".

(** [us_director] after one round-robin call. *)
Definition us_after_one : ProxyDirector :=
  (pickProxy us_director roundRobin_options zero_draws).1.

(** ** Property assignment on plain objects *)

Definition digit_value (c : ascii) : option N :=
  let n := N_of_ascii c in
  if (48 <=? n)%N && (n <=? 57)%N then Some (n - 48)%N else None.

Fixpoint parse_digits (s : string) (acc : N) : option N :=
  match s with
  | EmptyString => Some acc
  | String c s' =>
      match digit_value c with
      | Some v => parse_digits s' (acc * 10 + v)%N
      | None => None
      end
  end.

(** The array index a property key denotes, if it is one: a canonical
    decimal numeral below 2^32 - 1.  [Object.keys] lists such keys first, in
    ascending numeric order, and the other string keys after them, in the
    order they were created. *)
Definition array_index (k : string) : option N :=
  match k with
  | EmptyString => None
  | String c k' =>
      if Ascii.eqb c "0" then (if String.eqb k' "" then Some 0%N else None)
      else
        match parse_digits k 0 with
        | Some n => if (n <? 4294967295)%N then Some n else None
        | None => None
        end
  end.

Fixpoint obj_insert_index {V} (n : N) (k : string) (v : V) (o : obj V) : obj V :=
  match o with
  | [] => [(k, v)]
  | (k', v') :: o' =>
      match array_index k' with
      | Some n' => if (n' <? n)%N then (k', v') :: obj_insert_index n k v o' else (k, v) :: o
      | None => (k, v) :: o
      end
  end.

Fixpoint obj_update {V} (o : obj V) (k : string) (v : V) : obj V :=
  match o with
  | [] => []
  | (k', v') :: o' =>
      if String.eqb k' k then (k, v) :: o' else (k', v') :: obj_update o' k v
  end.

(** [o[k] = v] *)
Definition obj_set {V} (o : obj V) (k : string) (v : V) : obj V :=
  match obj_get o k with
  | Some _ => obj_update o k v
  | None =>
      match array_index k with
      | Some n => obj_insert_index n k v o
      | None => o ++ [(k, v)]
      end
  end.

(** ** ProxyCatalogBuilder *)

Record ProxyCatalogBuilder : Type := mkBuilder {
  _cat : ProxyCatalog;
  _currentCountry : option string
}.

(** What a builder method can throw.  The last two stand for the run-time
    [TypeError] of reading a property of [undefined] and of calling [push]
    on something that is not an array. *)
Inductive BuilderError : Type :=
| CountryNotString
| AddBeforeCountry
| UnknownProxyType (type : string)
| InvalidEntry (e : TypeError)
| NoCountryRecord
| BucketNotArray.

Inductive BuilderOp : Type :=
| OpCountry (code : string)
| OpAdd (type : string) (entry : option ProviderEntry)
| OpAddMany (type : string) (entries : list (option ProviderEntry))
| OpDone.

Module Builder.

(** [new ProxyCatalogBuilder()] *)
Definition new : ProxyCatalogBuilder := {| _cat := []; _currentCountry := None |}.

(** [country(code)] for a string [code]: the builder after the call and
    what the call threw, if it threw. *)
Definition country (b : ProxyCatalogBuilder) (code : string)
  : ProxyCatalogBuilder * option BuilderError :=
  if String.eqb code "" then (b, Some CountryNotString)
  else
    let cc := toUpperCase code in
    ({| _cat := match obj_get (_cat b) cc with
                | Some _ => _cat b
                | None => obj_set (_cat b) cc []
                end;
        _currentCountry := Some cc |}, None).

Definition known_type (type : string) : bool :=
  String.eqb type "res_rotating" || String.eqb type "res_static"
  || String.eqb type "dc_rotating" || String.eqb type "dc_static".

(** [add(type, entry)] *)
Definition add (b : ProxyCatalogBuilder) (type : string) (entry : option ProviderEntry)
  : ProxyCatalogBuilder * option BuilderError :=
  match truthy (_currentCountry b) with
  | None => (b, Some AddBeforeCountry)
  | Some cc =>
      if negb (known_type type) then (b, Some (UnknownProxyType type))
      else
        match sanitizeEntry entry with
        | inl e => (b, Some (InvalidEntry e))
        | inr clean =>
            match obj_get (_cat b) cc with
            | None => (b, Some NoCountryRecord)
            | Some cRec =>
                match obj_get cRec type with
                | Some PNotArray => (b, Some BucketNotArray)
                | Some (PArr bucket) =>
                    ({| _cat := obj_set (_cat b) cc
                                  (obj_set cRec type (PArr (bucket ++ [Some clean])));
                        _currentCountry := _currentCountry b |}, None)
                | None =>
                    ({| _cat := obj_set (_cat b) cc (obj_set cRec type (PArr [Some clean]));
                        _currentCountry := _currentCountry b |}, None)
                end
            end
        end
  end.

(** [addMany(type, entries)] for an array [entries]: [add] on each entry
    in turn, stopping at the first one that throws. *)
Fixpoint addMany (b : ProxyCatalogBuilder) (type : string)
    (entries : list (option ProviderEntry)) : ProxyCatalogBuilder * option BuilderError :=
  match entries with
  | [] => (b, None)
  | e :: rest =>
      match add b type e with
      | (b', None) => addMany b' type rest
      | (b', Some err) => (b', Some err)
      end
  end.

(** [done()] *)
Definition done (b : ProxyCatalogBuilder) : ProxyCatalogBuilder :=
  {| _cat := _cat b; _currentCountry := None |}.

(** [build()]: a deep copy of the catalog (the copy and the freezing do
    not change the data). *)
Definition build (b : ProxyCatalogBuilder) : ProxyCatalog := _cat b.

Definition step (b : ProxyCatalogBuilder) (op : BuilderOp)
  : ProxyCatalogBuilder * option BuilderError :=
  match op with
  | OpCountry code => country b code
  | OpAdd type entry => add b type entry
  | OpAddMany type entries => addMany b type entries
  | OpDone => (done b, None)
  end.

(** A script of calls on one builder, an exception of one call being
    caught before the next. *)
Fixpoint run (b : ProxyCatalogBuilder) (ops : list BuilderOp) : ProxyCatalogBuilder :=
  match ops with
  | [] => b
  | op :: rest => run (step b op).1 rest
  end.

End Builder.

(** Every value under a type key is an array. *)
Definition pools_are_arrays (cat : ProxyCatalog) : bool :=
  forallb (fun cr => forallb (fun tv => match tv.2 with PArr _ => true | PNotArray => false end)
                       cr.2) cat.

Definition builder_ok (b : ProxyCatalogBuilder) : Prop :=
  keys_ok (_cat b) = true
  /\ slots_ok (_cat b) = true
  /\ pools_are_arrays (_cat b) = true
  /\ forall cc, _currentCountry b = Some cc ->
                cc <> "" /\ exists cRec, obj_get (_cat b) cc = Some cRec.

(** The slots stored for [(c, t)] ([[]] when there is no such array) and
    whether there is at least one. *)
Definition bucket_of (cat : ProxyCatalog) (c t : string) : list (option ProviderEntry) :=
  match obj_get cat c with
  | Some cRec => match obj_get cRec t with Some (PArr slots) => slots | _ => [] end
  | None => []
  end.

Definition catalog_populated (cat : ProxyCatalog) (c t : string) : bool :=
  match obj_get cat c with
  | Some cRec => populated cRec t
  | None => false
  end.

(** The entries of a list that pass [sanitizeEntry], as stored. *)
Definition sanitized (entries : list (option ProviderEntry)) : list (option ProviderEntry) :=
  flat_map (fun e => match sanitizeEntry e with inr clean => [Some clean] | inl _ => [] end)
    entries.

Definition valid_protocol (p : string) : Prop := p = "http" \/ p = "https" \/ p = "socks5".

Definition valid_raw : option ProviderEntry := Some (raw_entry "A" "a.io").

(** An entry the builder rejects: its protocol is [ftp]. *)
Definition ftp_raw : option ProviderEntry :=
  Some {| provider := Some "F"; notes := None;
          endpoint := Some {| protocol := "ftp"; host := "x"; port := NFin 80;
                              username := None; password := None; auth := None;
                              other_fields := [] |} |}.

Definition us_builder : ProxyCatalogBuilder := (Builder.country Builder.new "us").1.

Definition built_us_director : ProxyDirector :=
  new_ProxyDirector
    (Some (Builder.build
             (Builder.run (Builder.add us_builder "dc_static" valid_raw).1 [OpDone])))
    None None None.

Definition mixed_case_us : ProxySelectionOptions :=
  {| sel_country := Some "Us"; sel_type := Some "dc_static"; sel_strategy := None;
     sessionKey := None |}.

(** The weight [_pickCountry] gives a catalog country. *)
Definition country_weight (d : ProxyDirector) (c : string) : Q :=
  default 0%Q (obj_get (countryDistribution d) c).

(** The total [weightedPick] computes. *)
Definition total_weight (entries : list (string * Q)) : Q :=
  sumQ (map (fun e => Qmax 0 e.2) entries).

(** A weight that is a number not below 1, or [+Infinity]. *)
Definition at_least_one (n : JSNum) : Prop :=
  match n with
  | NFin q => (1 <= q)%Q
  | NPosInf => True
  | _ => False
  end.

(** Every pinned triple names an array of the catalog and a position in it. *)
Definition sticky_valid (d : ProxyDirector) : Prop :=
  forall k e, _sticky d !! k = Some e ->
    k <> ""
    /\ exists cRec pool,
         obj_get (catalog d) (st_country e) = Some cRec
         /\ obj_get cRec (st_type e) = Some (PArr pool)
         /\ (0 <= st_index e < Z.of_nat (length pool))%Z.

(** What [pickProxy] throws for a slot that cannot be used. *)
Definition slot_error (country : string) (index : Z) (s : option ProviderEntry) : PickError :=
  match s with
  | None => EmptySlot country index
  | Some _ => MissingEndpoint country index
  end.

Definition index_draws_ok (calls : list (ProxySelectionOptions * Rand)) : Prop :=
  Forall (fun call => unit_draw (rand_index call.2)) calls.

(** A catalog that did not come from the builder: its second slot is null. *)
Definition holey_pool : list (option ProviderEntry) :=
  [Some (built_entry "A" "a.io"); None; Some (built_entry "C" "c.io")].

Definition holey_director : ProxyDirector :=
  new_ProxyDirector (Some [("US", [("res_rotating", PArr holey_pool)])]) None None None.

(** Whether a replacement string holds one of the patterns [replaceAll]
    interprets for a string search value: [$$], [$&], [$`] or [$']. *)
Fixpoint has_replacement_pattern (s : string) : bool :=
  match s with
  | EmptyString => false
  | String a t' =>
      (Ascii.eqb a "$"
       && match t' with
          | EmptyString => false
          | String c _ =>
              Ascii.eqb c "$" || Ascii.eqb c "`" || Ascii.eqb c "&" || Ascii.eqb c "'"
          end)
      || has_replacement_pattern t'
  end.

(** Whether [pat] occurs somewhere in [s]. *)
Fixpoint occurs (pat s : string) : bool :=
  match s with
  | EmptyString => false
  | String _ s' => String.prefix pat s || occurs pat s'
  end.

Definition mentions_token (cfg : ProxyConfig) : bool :=
  occurs session_token (host cfg)
  || match username cfg with Some u => occurs session_token u | None => false end
  || match password cfg with Some p => occurs session_token p | None => false end.

(** ** buildProxyDirectorFromJson *)

Record ProxyJson : Type := mkJson {
  json_distribution : option (obj JSNum);
  json_defaultType : option string;
  json_defaultStrategy : option string;
  json_countries : option ProxyCatalog
}.

Inductive LoaderError : Type :=
| CountriesRequired.

(** [buildProxyDirectorFromJson(json)]: the director and the catalog it
    returns.  The distribution is normalized here and once more by the
    constructor. *)
Definition buildProxyDirectorFromJson (json : option ProxyJson)
  : LoaderError + (ProxyDirector * ProxyCatalog) :=
  match json with
  | None => inl CountriesRequired
  | Some j =>
      match json_countries j with
      | None => inl CountriesRequired
      | Some countries =>
          let distribution := normalizeDistribution (default [] (json_distribution j)) in
          let dType := default "res_rotating" (truthy (json_defaultType j)) in
          let dStrategy := default "random" (truthy (json_defaultStrategy j)) in
          inr (new_ProxyDirector (Some countries) (Some (asDist distribution))
                 (Some dType) (Some dStrategy),
               countries)
      end
  end.

(** ** ApiPoster.#resolveProxy (api-client.mjs) *)

(** [options.proxy]: not an own property or [undefined], [null], or a
    configuration. *)
Inductive ExplicitProxy : Type :=
| ProxyAbsent
| ProxyNull
| ProxyGiven (cfg : ProxyConfig).

Record RequestOptions : Type := mkRequestOptions {
  opt_proxy : ExplicitProxy;
  opt_geo : option ProxySelectionOptions;
  opt_proxyDirector : option ProxyDirector
}.

(** The fields of an [ApiPoster] that proxy resolution reads. *)
Record ApiPoster : Type := mkApiPoster {
  ap_proxy : option ProxyConfig;
  ap_geo : option ProxySelectionOptions;
  ap_proxyDirector : option ProxyDirector
}.

(** Whose director object a pick was made on. *)
Inductive DirectorOwner : Type :=
| OfOptions
| OfInstance.

Record ResolvedProxy : Type := mkResolved {
  rp_proxyConfig : option ProxyConfig;
  rp_meta : option ProxyPickMeta
}.

(** [options.proxyDirector ?? this.proxyDirector ?? null] *)
Definition request_director (this : ApiPoster) (options : RequestOptions)
  : option (DirectorOwner * ProxyDirector) :=
  match opt_proxyDirector options with
  | Some d => Some (OfOptions, d)
  | None =>
      match ap_proxyDirector this with
      | Some d => Some (OfInstance, d)
      | None => None
      end
  end.

Definition pick_with (owner : DirectorOwner) (d : ProxyDirector)
    (geo : ProxySelectionOptions) (rnd : Rand)
  : option (DirectorOwner * ProxyDirector) * (PickError + ResolvedProxy) :=
  let '(d', r) := pickProxy d geo rnd in
  (Some (owner, d'),
   match r with
   | inl e => inl e
   | inr pick => inr {| rp_proxyConfig := Some (proxyConfig pick); rp_meta := Some pick |}
   end).

Definition fixed_proxy (defaultProxy : option ProxyConfig) (this : ApiPoster) : ResolvedProxy :=
  match ap_proxy this with
  | Some p => {| rp_proxyConfig := Some p; rp_meta := None |}
  | None => {| rp_proxyConfig := defaultProxy; rp_meta := None |}
  end.

(** [#resolveProxy(options)], with the static [#defaultProxy] as first
    argument: the director object that was used, with its new state, if one
    was used, and what the method returned or threw. *)
Definition resolveProxy (defaultProxy : option ProxyConfig) (this : ApiPoster)
    (options : RequestOptions) (rnd : Rand)
  : option (DirectorOwner * ProxyDirector) * (PickError + ResolvedProxy) :=
  match opt_proxy options with
  | ProxyNull => (None, inr {| rp_proxyConfig := None; rp_meta := None |})
  | ProxyGiven cfg => (None, inr {| rp_proxyConfig := Some cfg; rp_meta := None |})
  | ProxyAbsent =>
      match request_director this options, opt_geo options with
      | Some (owner, d), Some geo => pick_with owner d geo rnd
      | director, _ =>
          match director, ap_geo this with
          | Some (owner, d), Some geo => pick_with owner d geo rnd
          | _, _ => (None, inr (fixed_proxy defaultProxy this))
          end
      end
  end.

Definition raw_json : ProxyJson :=
  {| json_distribution := Some [("us", NFin 3)];
     json_defaultType := Some "";
     json_defaultStrategy := None;
     json_countries := Some [("us", [("res_rotating", PArr holey_pool)])] |}.

(** A string that does not begin with white space. *)
Definition starts_clean (s : string) : Prop :=
  match s with
  | EmptyString => True
  | String c _ => is_js_space c = false
  end.

Definition blank_provider_raw : option ProviderEntry :=
  Some {| provider := Some "  "; notes := None; endpoint := Some (plain_endpoint "a.io") |}.

(** ** Type resolution as the specification words it *)

(** The type a call asks for: its own [type], or the director's default
    when the call gives none (or the empty string). *)
Definition spec_requested_type (d : ProxyDirector) (sel : ProxySelectionOptions) : string :=
  match sel_type sel with
  | Some (String a s) => String a s
  | _ => defaultType d
  end.

(** The requested type when it has a non-empty pool; otherwise the first of
    [res_rotating], [res_static], [dc_rotating], [dc_static] that has one;
    otherwise the first key of the record, in key order, that has one. *)
Definition spec_type_priority (cRec : CountryRecord) (requested : string) : option string :=
  if populated cRec requested then Some requested
  else if populated cRec "res_rotating" then Some "res_rotating"
  else if populated cRec "res_static" then Some "res_static"
  else if populated cRec "dc_rotating" then Some "dc_rotating"
  else if populated cRec "dc_static" then Some "dc_static"
  else head (List.filter (populated cRec) (Object_keys cRec)).

(** A country whose only pool sits under the empty string as type key. *)
Definition blank_type_record : CountryRecord := [("", PArr [Some (built_entry "D" "d.io")])].

Definition blank_type_director : ProxyDirector :=
  new_ProxyDirector (Some [("DE", blank_type_record)]) None None None.

(** * Properties *)

(** ** Sums of rationals *)

Lemma fold_sum_acc (g : string -> Q) (keys : list string) (a : Q) :
  (fold_left (fun s k => s + g k) keys a == a + sum_over g keys)%Q.
Proof.
  unfold sum_over. revert a.
  induction keys as [|k keys IH]; intros a; simpl.
  - lra.
  - rewrite (IH (a + g k)%Q), (IH (0 + g k)%Q). lra.
Qed.

Lemma sum_over_cons (g : string -> Q) (k : string) (keys : list string) :
  (sum_over g (k :: keys) == g k + sum_over g keys)%Q.
Proof.
  unfold sum_over at 1. simpl. rewrite fold_sum_acc. lra.
Qed.

Lemma sum_over_nonneg (g : string -> Q) (keys : list string) :
  (forall k, In k keys -> 0 <= g k)%Q -> (0 <= sum_over g keys)%Q.
Proof.
  induction keys as [|k keys IH]; intros Hpos.
  - unfold sum_over; simpl; lra.
  - rewrite sum_over_cons.
    assert (0 <= g k)%Q by (apply Hpos; left; reflexivity).
    assert (0 <= sum_over g keys)%Q by (apply IH; intros; apply Hpos; right; assumption).
    lra.
Qed.

Lemma sum_over_ge_elem (g : string -> Q) (keys : list string) (k : string) :
  (forall k', In k' keys -> 0 <= g k')%Q -> In k keys -> (g k <= sum_over g keys)%Q.
Proof.
  induction keys as [|k0 keys IH]; intros Hpos Hin; [destruct Hin|].
  rewrite sum_over_cons.
  assert (0 <= g k0)%Q by (apply Hpos; left; reflexivity).
  assert (0 <= sum_over g keys)%Q
    by (apply sum_over_nonneg; intros; apply Hpos; right; assumption).
  destruct Hin as [->|Hin].
  - lra.
  - assert (g k <= sum_over g keys)%Q
      by (apply IH; [intros; apply Hpos; right; assumption | assumption]).
    lra.
Qed.

Lemma sum_over_div (g : string -> Q) (keys : list string) (s : Q) :
  (sum_over (fun k => g k / s) keys == sum_over g keys / s)%Q.
Proof.
  induction keys as [|k keys IH].
  - unfold sum_over; simpl. unfold Qdiv. lra.
  - rewrite !sum_over_cons, IH. unfold Qdiv. lra.
Qed.

Lemma sum_over_ext (g h : string -> Q) (keys : list string) :
  (forall k, In k keys -> g k == h k)%Q -> (sum_over g keys == sum_over h keys)%Q.
Proof.
  induction keys as [|k keys IH]; intros Heq.
  - reflexivity.
  - rewrite !sum_over_cons, IH, (Heq k).
    + reflexivity.
    + left; reflexivity.
    + intros; apply Heq; right; assumption.
Qed.

Lemma sum_over_const (c : Q) (keys : list string) :
  (sum_over (fun _ => c) keys == Qnat (length keys) * c)%Q.
Proof.
  induction keys as [|k keys IH].
  - unfold sum_over, Qnat; simpl. change (inject_Z 0) with 0%Q. ring.
  - rewrite sum_over_cons, IH. unfold Qnat.
    change (length (k :: keys)) with (S (length keys)).
    rewrite Nat2Z.inj_succ, <- Z.add_1_r, inject_Z_plus.
    change (inject_Z 1) with 1%Q. ring.
Qed.

Lemma sumQ_map_snd (f : string -> Q) (keys : list string) :
  (sumQ (map snd (map (fun k => (k, f k)) keys)) == sum_over f keys)%Q.
Proof.
  unfold sumQ, sum_over. generalize 0%Q as a.
  induction keys as [|k keys IH]; intros a; simpl; [reflexivity | apply IH].
Qed.

(** ** Objects *)

Lemma obj_get_map_keys {V} (f : string -> V) (keys : list string) (k : string) :
  In k keys -> obj_get (map (fun k => (k, f k)) keys) k = Some (f k).
Proof.
  induction keys as [|k0 keys IH]; intros Hin; [destruct Hin|].
  simpl. destruct (String.eqb_spec k0 k) as [->|Hne]; [reflexivity|].
  destruct Hin as [Heq|Hin]; [congruence | auto].
Qed.

Lemma Object_keys_map {V} (f : string -> V) (keys : list string) :
  Object_keys (map (fun k => (k, f k)) keys) = keys.
Proof.
  unfold Object_keys. induction keys as [|k keys IH]; simpl; congruence.
Qed.

Lemma obj_get_asDist (o : obj Q) (k : string) :
  obj_get (asDist o) k = NFin <$> obj_get o k.
Proof.
  induction o as [|[k0 v] o IH]; simpl; [reflexivity|].
  destruct (String.eqb k0 k); [reflexivity | exact IH].
Qed.

Lemma Object_keys_asDist (o : obj Q) : Object_keys (asDist o) = Object_keys o.
Proof.
  unfold Object_keys, asDist. rewrite map_map. reflexivity.
Qed.

Lemma obj_get_In {V} (o : obj V) (k : string) (v : V) :
  obj_get o k = Some v -> In (k, v) o.
Proof.
  induction o as [|[k0 v0] o IH]; simpl; [discriminate|].
  destruct (String.eqb_spec k0 k) as [->|Hne].
  - intros [= ->]. left; reflexivity.
  - intros H. right. auto.
Qed.

Lemma obj_get_key_In {V} (o : obj V) (k : string) (v : V) :
  obj_get o k = Some v -> In k (Object_keys o).
Proof.
  intros H. apply obj_get_In in H. unfold Object_keys.
  change k with (fst (k, v)). apply in_map. exact H.
Qed.

Lemma obj_get_None_keys {V} (o : obj V) (k : string) :
  obj_get o k = None -> ~ In k (Object_keys o).
Proof.
  induction o as [|[k0 v0] o IH]; simpl; [tauto|].
  destruct (String.eqb_spec k0 k) as [->|Hne]; [discriminate|].
  intros H [Heq|Hin]; [congruence | exact (IH H Hin)].
Qed.

(** ** clamp01 and normalizeDistribution *)

Lemma clamp01_bounds (n : option JSNum) : (0 <= clamp01 n <= 1)%Q.
Proof.
  destruct n as [[q| | |]|]; simpl; try lra.
  destruct (Q.max_spec 0 (Qmin 1 q)) as [[? ->]|[? ->]];
    destruct (Q.min_spec 1 q) as [[? Hm]|[? Hm]]; rewrite ?Hm in *; lra.
Qed.

Lemma clamp01_fixed (q : Q) : (0 <= q <= 1)%Q -> (clamp01 (Some (NFin q)) == q)%Q.
Proof.
  intros [H0 H1]. simpl.
  destruct (Q.max_spec 0 (Qmin 1 q)) as [[? ->]|[? ->]];
    destruct (Q.min_spec 1 q) as [[? Hm]|[? Hm]]; rewrite ?Hm in *; lra.
Qed.

Lemma Qnat_pos (n : nat) : (0 < n)%nat -> (1 <= Qnat n)%Q.
Proof.
  intros H. unfold Qnat. change 1%Q with (inject_Z 1).
  rewrite <- Zle_Qle. lia.
Qed.

Lemma clamped_sum_nonneg (dist : obj JSNum) (keys : list string) :
  (0 <= clamped_sum dist keys)%Q.
Proof.
  apply (sum_over_nonneg (fun k => clamp01 (obj_get dist k))).
  intros k _. apply clamp01_bounds.
Qed.

(** The three shapes of the result. *)
Lemma normalizeDistribution_empty : normalizeDistribution [] = [].
Proof. reflexivity. Qed.

Lemma normalizeDistribution_uniform (dist : obj JSNum) :
  Object_keys dist <> [] ->
  (clamped_sum dist (Object_keys dist) <= 0)%Q ->
  normalizeDistribution dist
  = map (fun k => (k, (1 / Qnat (length (Object_keys dist)))%Q)) (Object_keys dist).
Proof.
  intros Hne Hs. unfold normalizeDistribution.
  destruct (Object_keys dist) as [|k keys] eqn:E; [congruence|].
  cbn [length Nat.eqb].
  apply Qle_bool_iff in Hs. rewrite Hs. reflexivity.
Qed.

Lemma normalizeDistribution_scaled (dist : obj JSNum) :
  (0 < clamped_sum dist (Object_keys dist))%Q ->
  normalizeDistribution dist
  = map (fun k => (k, (clamp01 (obj_get dist k) / clamped_sum dist (Object_keys dist))%Q))
      (Object_keys dist).
Proof.
  intros Hs. unfold normalizeDistribution.
  destruct (Object_keys dist) as [|k keys] eqn:E.
  - unfold clamped_sum in Hs; simpl in Hs. lra.
  - cbn [length Nat.eqb].
    destruct (Qle_bool (clamped_sum dist (k :: keys)) 0) eqn:Hb; [|reflexivity].
    apply Qle_bool_iff in Hb. lra.
Qed.

(** Every result is a table of weights in [0,1] over the input keys that
    sum to 1 (when there is a key at all). *)
Lemma normalizeDistribution_weights (dist : obj JSNum) :
  exists f : string -> Q,
    normalizeDistribution dist = map (fun k => (k, f k)) (Object_keys dist)
    /\ (forall k, In k (Object_keys dist) -> 0 <= f k <= 1)%Q
    /\ (Object_keys dist <> [] -> sum_over f (Object_keys dist) == 1)%Q.
Proof.
  destruct (Object_keys dist) as [|k0 keys0] eqn:E.
  - exists (fun _ => 0%Q). unfold normalizeDistribution. rewrite E.
    split; [reflexivity|]. split; [intros k []| congruence].
  - rewrite <- E.
    assert (Hne : Object_keys dist <> []) by (rewrite E; discriminate).
    assert (HN : (1 <= Qnat (length (Object_keys dist)))%Q)
      by (apply Qnat_pos; rewrite E; simpl; lia).
    destruct (Qlt_le_dec 0 (clamped_sum dist (Object_keys dist))) as [Hpos|Hle].
    + exists (fun k => (clamp01 (obj_get dist k) / clamped_sum dist (Object_keys dist))%Q).
      split; [apply normalizeDistribution_scaled; exact Hpos|]. split.
      * intros k Hin. pose proof (clamp01_bounds (obj_get dist k)) as [Hc0 Hc1].
        assert (clamp01 (obj_get dist k) <= clamped_sum dist (Object_keys dist))%Q.
        { apply (sum_over_ge_elem (fun k => clamp01 (obj_get dist k))); [|exact Hin].
          intros; apply clamp01_bounds. }
        split.
        -- apply Qle_shift_div_l; [exact Hpos | lra].
        -- apply Qle_shift_div_r; [exact Hpos | lra].
      * intros _. rewrite sum_over_div.
        change (sum_over (fun k => clamp01 (obj_get dist k)) (Object_keys dist))
          with (clamped_sum dist (Object_keys dist)).
        field. lra.
    + exists (fun _ => (1 / Qnat (length (Object_keys dist)))%Q).
      split; [apply normalizeDistribution_uniform; assumption|]. split.
      * intros k _. split.
        -- apply Qle_shift_div_l; lra.
        -- apply Qle_shift_div_r; lra.
      * intros _. rewrite sum_over_const. field. lra.
Qed.

Lemma Forall2_map_same {A B} (R : B -> B -> Prop) (F G : A -> B) (l : list A) :
  (forall x, In x l -> R (F x) (G x)) -> Forall2 R (map F l) (map G l).
Proof.
  induction l as [|x l IH]; intros H; simpl; constructor.
  - apply H; left; reflexivity.
  - apply IH; intros; apply H; right; assumption.
Qed.



(** C10. Normalizing a normalized distribution returns it: same keys in the
    same order, rationally equal weights. *)
Theorem normalizeDistribution_idempotent (dist : obj JSNum) :
  dist_eq (normalizeDistribution (asDist (normalizeDistribution dist)))
          (normalizeDistribution dist).
Proof.
  destruct (normalizeDistribution_weights dist) as (f & Hout & Hb & Hsum).
  set (keys := Object_keys dist) in *.
  destruct keys as [|k0 keys0] eqn:E.
  { rewrite Hout. simpl. constructor. }
  assert (Hne : k0 :: keys0 <> []) by discriminate.
  specialize (Hsum Hne).
  set (out := normalizeDistribution dist) in *.
  assert (Hkeys : Object_keys (asDist out) = k0 :: keys0).
  { rewrite Object_keys_asDist, Hout. apply Object_keys_map. }
  assert (Hget : forall k, In k (k0 :: keys0) -> obj_get (asDist out) k = Some (NFin (f k))).
  { intros k Hin. rewrite obj_get_asDist, Hout, (obj_get_map_keys f _ _ Hin).
    reflexivity. }
  assert (Hcl : forall k, In k (k0 :: keys0) ->
                 (clamp01 (obj_get (asDist out) k) == f k)%Q).
  { intros k Hin. rewrite (Hget k Hin). apply clamp01_fixed, Hb, Hin. }
  assert (Hs1 : (clamped_sum (asDist out) (Object_keys (asDist out)) == 1)%Q).
  { rewrite Hkeys. unfold clamped_sum.
    change (fold_left _ (k0 :: keys0) 0%Q)
      with (sum_over (fun k => clamp01 (obj_get (asDist out) k)) (k0 :: keys0)).
    rewrite (sum_over_ext _ f _ Hcl). exact Hsum. }
  rewrite (normalizeDistribution_scaled (asDist out)) by (rewrite Hs1; lra).
  rewrite Hkeys in Hs1 |- *.
  remember (asDist out) as again eqn:Hagain. rewrite Hout. clear Hagain.
  apply Forall2_map_same.
  intros k Hin. split; [reflexivity|]. cbn [snd].
  rewrite Hs1, (Hcl k Hin). field.
Qed.

(** ** Session-token expansion *)

Lemma GetSubstitution_no_dollar (matched before after tmpl : string) :
  has_dollar tmpl = false -> GetSubstitution matched before after tmpl = tmpl.
Proof.
  induction tmpl as [|a t IH]; simpl; [reflexivity|].
  destruct (Ascii.eqb a "$"); simpl; [discriminate|].
  intros H. rewrite (IH H). reflexivity.
Qed.

Lemma replaceAll_from_no_dollar (pat tmpl : string) :
  has_dollar tmpl = false ->
  forall rest before skip,
    replaceAll_from pat tmpl before skip rest = replaceLiteral_from pat tmpl skip rest.
Proof.
  intros Hd. induction rest as [|c rest IH]; intros before skip;
    cbn [replaceAll_from replaceLiteral_from]; [reflexivity|].
  destruct skip as [|k]; [|apply IH].
  destruct (String.prefix pat (String c rest)).
  - rewrite GetSubstitution_no_dollar by exact Hd. rewrite IH. reflexivity.
  - rewrite IH. reflexivity.
Qed.

(** A session string without a dollar sign is inserted as it is. *)
Lemma applySessionToken_no_dollar (cfg : ProxyConfig) (session : string) :
  has_dollar session = false ->
  applySessionToken cfg session = expandSessionLiteral cfg session.
Proof.
  intros Hd. unfold applySessionToken, expandSessionLiteral.
  destruct (String.eqb session ""); [reflexivity|].
  unfold replaceAll, replaceLiteral.
  rewrite (replaceAll_from_no_dollar _ _ Hd).
  f_equal.
  - destruct (username cfg); simpl; [|reflexivity].
    rewrite (replaceAll_from_no_dollar _ _ Hd); reflexivity.
  - destruct (password cfg); simpl; [|reflexivity].
    rewrite (replaceAll_from_no_dollar _ _ Hd); reflexivity.
Qed.

Lemma applySessionToken_protocol_port (cfg : ProxyConfig) (session : string) :
  protocol (applySessionToken cfg session) = protocol cfg
  /\ port (applySessionToken cfg session) = port cfg.
Proof.
  unfold applySessionToken. destruct (String.eqb session ""); split; reflexivity.
Qed.

Lemma applySessionToken_empty (cfg : ProxyConfig) : applySessionToken cfg "" = cfg.
Proof. reflexivity. Qed.

Lemma applySessionToken_nonempty_shape (cfg : ProxyConfig) (session : string) :
  session <> "" ->
  auth (applySessionToken cfg session) = None
  /\ other_fields (applySessionToken cfg session) = []
  /\ (is_Some (username (applySessionToken cfg session)) <-> is_Some (username cfg))
  /\ (is_Some (password (applySessionToken cfg session)) <-> is_Some (password cfg)).
Proof.
  intros Hne. unfold applySessionToken.
  destruct (String.eqb_spec session ""); [congruence|]. simpl.
  repeat split; try (destruct (username cfg)); try (destruct (password cfg));
    simpl; intros [x Hx]; try discriminate; eauto.
Qed.

(** C6. The documented example and the empty session behave as specified,
    but a session string holding one of [replaceAll]'s replacement patterns
    is not inserted as it is: with session [a$$b] the host becomes
    [u-a$b.proxy.io], and with session [$&] every marker is left in place. *)
Theorem applySessionToken_dollar_session :
  host (applySessionToken templated_endpoint "42") = "u-42.proxy.io"
  /\ username (applySessionToken templated_endpoint "42") = Some "acct-42"
  /\ applySessionToken templated_endpoint "" = templated_endpoint
  /\ host (applySessionToken templated_endpoint "a$$b") = "u-a$b.proxy.io"
  /\ host (expandSessionLiteral templated_endpoint "a$$b") = "u-a$$b.proxy.io"
  /\ username (applySessionToken templated_endpoint "a$$b") = Some "acct-a$b"
  /\ host (applySessionToken templated_endpoint "$&") = "u-${session}.proxy.io"
  /\ host (expandSessionLiteral templated_endpoint "$&") = "u-$&.proxy.io"
  /\ applySessionToken templated_endpoint "a$$b" <> expandSessionLiteral templated_endpoint "a$$b".
Proof.
  repeat split; try reflexivity.
  intros H. apply (f_equal host) in H. vm_compute in H. discriminate H.
Qed.

(** ** Index selection *)

Lemma random_index_range (u : Q) (len : nat) :
  unit_draw u -> (0 < len)%nat -> (0 <= random_index u len < Z.of_nat len)%Z.
Proof.
  intros [H0 H1] Hlen. unfold random_index.
  assert (HL : (1 <= Qnat len)%Q) by (apply Qnat_pos; exact Hlen).
  assert (Hlo : (0 <= u * Qnat len)%Q) by (apply Qmult_le_0_compat; lra).
  assert (Hhi : (u * Qnat len < Qnat len)%Q).
  { assert (u * Qnat len < 1 * Qnat len)%Q by (apply Qmult_lt_compat_r; lra).
    lra. }
  split.
  - change 0%Z with (Qfloor 0). apply Qfloor_resp_le. exact Hlo.
  - rewrite Zlt_Qlt. eapply Qle_lt_trans; [apply Qfloor_le | exact Hhi].
Qed.

Lemma nextRR_range (d : ProxyDirector) (key : string) (len : nat) :
  rr_nonneg d -> (0 < len)%nat -> (0 <= (_nextRR d key len).1 < Z.of_nat len)%Z.
Proof.
  intros Hrr Hlen. unfold _nextRR. cbn [fst].
  assert (0 <= default 0 (_rr d !! key))%Z.
  { destruct (_rr d !! key) as [v|] eqn:E; simpl; [apply (Hrr _ _ E) | lia]. }
  rewrite Z.rem_mod_nonneg by lia. apply Z.mod_pos_bound. lia.
Qed.

Lemma nextRR_fresh (d : ProxyDirector) (key : string) (len : nat) :
  _rr d !! key = None ->
  _nextRR d key len
  = ((1 mod Z.of_nat len)%Z, set_rr d (<[key := (1 mod Z.of_nat len)%Z]> (_rr d))).
Proof.
  intros E. unfold _nextRR. rewrite E. cbn [from_option id].
  destruct len as [|len].
  - reflexivity.
  - rewrite Z.rem_mod_nonneg by lia. reflexivity.
Qed.

Lemma nextRR_next (d : ProxyDirector) (key : string) (len : nat) (p : Z) :
  _rr d !! key = Some p -> (0 <= p)%Z -> (0 < len)%nat ->
  _nextRR d key len
  = (((p + 1) mod Z.of_nat len)%Z, set_rr d (<[key := ((p + 1) mod Z.of_nat len)%Z]> (_rr d))).
Proof.
  intros E Hp Hlen. unfold _nextRR. rewrite E. cbn [from_option id].
  rewrite Z.rem_mod_nonneg by lia. reflexivity.
Qed.

Lemma chooseIndex_roundRobin d c t len sk u :
  chooseIndex d c t len "roundRobin" sk u = _nextRR d (rr_key c t) len.
Proof. reflexivity. Qed.

Lemma chooseIndex_sticky_nokey d c t len sk u :
  truthy sk = None ->
  chooseIndex d c t len "sticky" sk u = _nextRR d (rr_key c t) len.
Proof.
  intros H. unfold chooseIndex. cbn [String.eqb Ascii.eqb Bool.eqb]. rewrite H. reflexivity.
Qed.

Lemma truthy_Some (o : option string) (s : string) : truthy o = Some s -> o = Some s /\ s <> "".
Proof.
  destruct o as [[|a s']|]; simpl; intros [= <-]. split; [reflexivity | discriminate].
Qed.

Lemma truthy_None (o : option string) : truthy o = None -> o = None \/ o = Some "".
Proof.
  destruct o as [[|a s']|]; simpl; intros H; try discriminate; auto.
Qed.

Lemma chooseIndex_sticky_hit d c t len sk key e u :
  truthy sk = Some key ->
  _sticky d !! key = Some e ->
  st_country e = c -> st_type e = t -> (st_index e < Z.of_nat len)%Z ->
  chooseIndex d c t len "sticky" sk u = (st_index e, d).
Proof.
  intros Hk He <- <- Hlt. apply truthy_Some in Hk as Hk'. destruct Hk' as [_ Hne].
  unfold chooseIndex. cbn [String.eqb Ascii.eqb Bool.eqb]. rewrite Hk. cbn [from_option id].
  destruct (String.eqb_spec key ""); [congruence|].
  rewrite He, !String.eqb_refl. cbn [andb].
  apply Z.ltb_lt in Hlt. rewrite Hlt. reflexivity.
Qed.

Lemma chooseIndex_sticky_miss d c t len sk key u :
  truthy sk = Some key ->
  (forall e, _sticky d !! key = Some e ->
             ~ (st_country e = c /\ st_type e = t /\ (st_index e < Z.of_nat len)%Z)) ->
  chooseIndex d c t len "sticky" sk u
  = (random_index u len,
     set_sticky d (<[key := mkSticky c t (random_index u len)]> (_sticky d))).
Proof.
  intros Hk Hmiss. apply truthy_Some in Hk as Hk'. destruct Hk' as [_ Hne].
  unfold chooseIndex. cbn [String.eqb Ascii.eqb Bool.eqb]. rewrite Hk. cbn [from_option id].
  destruct (String.eqb_spec key ""); [congruence|].
  destruct (_sticky d !! key) as [e|] eqn:He; [|reflexivity].
  destruct (String.eqb_spec (st_country e) c); [|reflexivity].
  destruct (String.eqb_spec (st_type e) t); [|reflexivity].
  destruct (Z.ltb_spec (st_index e) (Z.of_nat len)); [|reflexivity].
  exfalso. apply (Hmiss e eq_refl). auto.
Qed.

Lemma chooseIndex_range d c t len strategy sk u :
  state_ok d -> unit_draw u -> (0 < len)%nat ->
  (0 <= (chooseIndex d c t len strategy sk u).1 < Z.of_nat len)%Z.
Proof.
  intros [Hrr Hst] Hu Hlen. unfold chooseIndex.
  destruct (String.eqb strategy "random"); [apply random_index_range; assumption|].
  destruct (String.eqb strategy "roundRobin"); [apply nextRR_range; assumption|].
  destruct (String.eqb strategy "sticky"); [|apply random_index_range; assumption].
  destruct (String.eqb (default "" (truthy sk)) ""); [apply nextRR_range; assumption|].
  destruct (_sticky d !! default "" (truthy sk)) as [e|] eqn:He;
    [|apply random_index_range; assumption].
  destruct (String.eqb (st_country e) c && String.eqb (st_type e) t
            && (st_index e <? Z.of_nat len)%Z) eqn:Hc;
    [|apply random_index_range; assumption].
  cbn [fst]. apply andb_true_iff in Hc as [_ Hlt]. apply Z.ltb_lt in Hlt.
  split; [apply (Hst _ _ He) | exact Hlt].
Qed.

Lemma chooseIndex_config d c t len strategy sk u :
  same_config d (chooseIndex d c t len strategy sk u).2.
Proof.
  unfold chooseIndex, _nextRR, same_config.
  repeat match goal with
         | |- context [if ?b then _ else _] => destruct b
         | |- context [match ?o with Some _ => _ | None => _ end] => destruct o
         end; cbn; auto.
Qed.

Lemma chooseIndex_state_ok d c t len strategy sk u :
  state_ok d -> unit_draw u -> (0 < len)%nat ->
  state_ok (chooseIndex d c t len strategy sk u).2.
Proof.
  intros Hok Hu Hlen.
  assert (Hrr_step : state_ok (_nextRR d (rr_key c t) len).2).
  { pose proof (nextRR_range d (rr_key c t) len (proj1 Hok) Hlen) as Hr.
    destruct Hok as [Hrr Hst]. unfold _nextRR in *. cbn [fst snd] in *.
    split; [|exact Hst].
    intros k v. unfold set_rr; cbn [_rr]. rewrite lookup_insert.
    case_decide; [intros [= <-]; lia | apply Hrr]. }
  assert (Hfresh : forall key,
             state_ok (set_sticky d (<[key := mkSticky c t (random_index u len)]> (_sticky d)))).
  { intros key. destruct Hok as [Hrr Hst]. split; [exact Hrr|].
    intros k e. unfold set_sticky; cbn [_sticky]. rewrite lookup_insert.
    case_decide; [|apply Hst].
    intros [= <-]. cbn [st_index]. apply random_index_range; assumption. }
  unfold chooseIndex.
  repeat match goal with
         | |- context [if ?b then _ else _] => destruct b
         | |- context [match ?o with Some _ => _ | None => _ end] => destruct o
         end; cbn [snd]; auto.
Qed.

(** ** The phases of pickProxy *)

Lemma same_config_refl d : same_config d d.
Proof. repeat split. Qed.

Lemma same_config_trans d1 d2 d3 : same_config d1 d2 -> same_config d2 d3 -> same_config d1 d3.
Proof.
  unfold same_config. intros (-> & -> & -> & ->) (-> & -> & -> & ->). repeat split.
Qed.

Lemma resolvePool_config d d' sel u :
  same_config d d' -> resolvePool d sel u = resolvePool d' sel u.
Proof.
  destruct d, d'. unfold same_config. cbn. intros (-> & -> & -> & ->). reflexivity.
Qed.

Lemma resolveStrategy_config d d' sel :
  same_config d d' -> resolveStrategy d sel = resolveStrategy d' sel.
Proof.
  unfold same_config, resolveStrategy. intros (_ & _ & _ & ->). reflexivity.
Qed.

Lemma resolvePool_inr d sel u c t pool :
  resolvePool d sel u = inr (c, t, pool) ->
  c = resolveCountry d sel u /\ c <> ""
  /\ exists cRec,
       obj_get (catalog d) c = Some cRec
       /\ resolvePoolType cRec (desiredType d sel) = Some t
       /\ obj_get cRec t = Some (PArr pool)
       /\ (0 < length pool)%nat.
Proof.
  unfold resolvePool, _pools.
  destruct (String.eqb_spec (resolveCountry d sel u) ""); [discriminate|].
  destruct (obj_get (catalog d) (resolveCountry d sel u)) as [cRec|] eqn:Hrec; [|discriminate].
  destruct (resolvePoolType cRec (desiredType d sel)) as [pt|] eqn:Hpt; [|discriminate].
  destruct (obj_get cRec pt) as [[[|e pool']|]|] eqn:Hpool; try discriminate.
  intros [= <- <- <-]. split; [reflexivity|]. split; [assumption|].
  exists cRec. repeat split; try assumption. simpl; lia.
Qed.

Lemma pickProxy_resolved d sel rnd c t pool :
  resolvePool d sel (rand_country rnd) = inr (c, t, pool) ->
  pickProxy d sel rnd
  = ((chooseIndex d c t (length pool) (resolveStrategy d sel) (sessionKey sel)
        (rand_index rnd)).2,
     finishPick pool
       (chooseIndex d c t (length pool) (resolveStrategy d sel) (sessionKey sel)
          (rand_index rnd)).1
       c t (resolveStrategy d sel) (sessionKey sel)).
Proof.
  intros H. unfold pickProxy. rewrite H.
  destruct (chooseIndex d c t (length pool) (resolveStrategy d sel) (sessionKey sel)
              (rand_index rnd)) as [i d'].
  reflexivity.
Qed.

Lemma pickProxy_unresolved d sel rnd e :
  resolvePool d sel (rand_country rnd) = inl e -> pickProxy d sel rnd = (d, inl e).
Proof. intros H. unfold pickProxy. rewrite H. reflexivity. Qed.

Lemma pickProxy_config d sel rnd : same_config d (pickProxy d sel rnd).1.
Proof.
  destruct (resolvePool d sel (rand_country rnd)) as [e|[[c t] pool]] eqn:H.
  - rewrite (pickProxy_unresolved _ _ _ _ H). apply same_config_refl.
  - rewrite (pickProxy_resolved _ _ _ _ _ _ H). apply chooseIndex_config.
Qed.

(** The invariant on cursors and pinned indexes holds at construction and
    is kept by every call. *)
Lemma new_ProxyDirector_state_ok cat dist dType dStrategy :
  state_ok (new_ProxyDirector cat dist dType dStrategy).
Proof.
  split; intros k v; unfold new_ProxyDirector; cbn; rewrite lookup_empty; discriminate.
Qed.

Lemma pickProxy_state_ok d sel rnd :
  state_ok d -> unit_draw (rand_index rnd) -> state_ok (pickProxy d sel rnd).1.
Proof.
  intros Hok Hu.
  destruct (resolvePool d sel (rand_country rnd)) as [e|[[c t] pool]] eqn:H.
  - rewrite (pickProxy_unresolved _ _ _ _ H). exact Hok.
  - rewrite (pickProxy_resolved _ _ _ _ _ _ H). cbn [fst].
    apply chooseIndex_state_ok; try assumption.
    apply resolvePool_inr in H. destruct H as (_ & _ & cRec & _ & _ & _ & Hlen). exact Hlen.
Qed.

(** ** Round-robin *)

(** C1, as stated, fails: on a fresh key of a pool with three entries the
    first round-robin call returns the entry at index 1 (provider [B]), not
    the one at index 0. *)
Lemma roundRobin_first_call_not_index_0 :
  resolvePool us_director roundRobin_options 0 = inr ("US", "res_rotating", three_pool)
  /\ resolveStrategy us_director roundRobin_options = "roundRobin"
  /\ _rr us_director !! rr_key "US" "res_rotating" = None
  /\ (pickProxy us_director roundRobin_options zero_draws).2
     = finishPick three_pool 1 "US" "res_rotating" "roundRobin" None
  /\ picked_host (pickProxy us_director roundRobin_options zero_draws).2 = Some "b.io"
  /\ picked_host (finishPick three_pool 0 "US" "res_rotating" "roundRobin" None) = Some "a.io"
  /\ (pickProxy us_director roundRobin_options zero_draws).2
     <> finishPick three_pool 0 "US" "res_rotating" "roundRobin" None.
Proof.
  repeat split; try (vm_compute; reflexivity).
  vm_compute. intros H. discriminate H.
Qed.

(** C1, amended. When a round-robin call resolves to a pool of length [L]:
    if the key ["country:type"] has no cursor yet, the call returns the
    entry at index [1 mod L] (the cursor starts at 0 and is incremented
    before use, so index 0 comes first only when [L = 1]); if the cursor is
    [p], the call returns the entry at index [(p + 1) mod L]; in both cases
    the index returned is stored under the key, lies in [0, L), and nothing
    else of the director changes. *)
Theorem roundRobin_cursor d sel rnd c t pool :
  resolvePool d sel (rand_country rnd) = inr (c, t, pool) ->
  resolveStrategy d sel = "roundRobin" ->
  let L := Z.of_nat (length pool) in
  let key := rr_key c t in
  (_rr d !! key = None ->
   pickProxy d sel rnd
   = (set_rr d (<[key := (1 mod L)%Z]> (_rr d)),
      finishPick pool (1 mod L)%Z c t "roundRobin" (sessionKey sel)))
  /\ (forall p, _rr d !! key = Some p -> (0 <= p)%Z ->
      pickProxy d sel rnd
      = (set_rr d (<[key := ((p + 1) mod L)%Z]> (_rr d)),
         finishPick pool ((p + 1) mod L)%Z c t "roundRobin" (sessionKey sel)))
  /\ (rr_nonneg d ->
      exists i, (0 <= i < L)%Z
        /\ _rr (pickProxy d sel rnd).1 !! key = Some i
        /\ (pickProxy d sel rnd).2
           = finishPick pool i c t "roundRobin" (sessionKey sel)).
Proof.
  intros Hres Hstr L key.
  pose proof (resolvePool_inr _ _ _ _ _ _ Hres) as (_ & _ & cRec & _ & _ & _ & Hlen).
  rewrite (pickProxy_resolved _ _ _ _ _ _ Hres), Hstr, chooseIndex_roundRobin.
  fold key. split; [|split].
  - intros E. rewrite (nextRR_fresh _ _ _ E). reflexivity.
  - intros p E Hp. rewrite (nextRR_next _ _ _ _ E Hp Hlen). reflexivity.
  - intros Hrr. pose proof (nextRR_range d key (length pool) Hrr Hlen) as Hr.
    exists (_nextRR d key (length pool)).1. split; [exact Hr|].
    split; [|reflexivity].
    unfold _nextRR, set_rr. cbn. apply lookup_insert_eq.
Qed.

Lemma roundRobin_cursor_witness :
  pickProxy us_director roundRobin_options zero_draws
  = (set_rr us_director (<[rr_key "US" "res_rotating" := (1 mod 3)%Z]> (_rr us_director)),
     finishPick three_pool (1 mod 3)%Z "US" "res_rotating" "roundRobin" None)
  /\ pickProxy us_after_one roundRobin_options zero_draws
     = (set_rr us_after_one
          (<[rr_key "US" "res_rotating" := ((1 + 1) mod 3)%Z]> (_rr us_after_one)),
        finishPick three_pool ((1 + 1) mod 3)%Z "US" "res_rotating" "roundRobin" None).
Proof.
  split.
  - refine (proj1 (roundRobin_cursor us_director roundRobin_options zero_draws
                     "US" "res_rotating" three_pool _ _) _);
      vm_compute; reflexivity.
  - refine (proj1 (proj2 (roundRobin_cursor us_after_one roundRobin_options zero_draws
                            "US" "res_rotating" three_pool _ _)) 1%Z _ _).
    + vm_compute; reflexivity.
    + reflexivity.
    + vm_compute; reflexivity.
    + lia.
Defined.

Lemma nextRR_step (d : ProxyDirector) (key : string) (len : nat) :
  (0 <= default 0%Z (_rr d !! key))%Z -> (0 < len)%nat ->
  _nextRR d key len
  = (((default 0 (_rr d !! key) + 1) mod Z.of_nat len)%Z,
     set_rr d (<[key := ((default 0 (_rr d !! key) + 1) mod Z.of_nat len)%Z]> (_rr d))).
Proof.
  intros Hp Hlen. unfold _nextRR. rewrite Z.rem_mod_nonneg by lia. reflexivity.
Qed.

(** [n] successive round-robin calls that resolve to one pool, starting
    with cursor [p]: call number [j] (from 0) gets index [(p + 1 + j) mod L]. *)
Lemma roundRobin_run sel c t pool (rnds : list Rand) :
  forall d,
    Forall (fun rnd => resolvePool d sel (rand_country rnd) = inr (c, t, pool)) rnds ->
    resolveStrategy d sel = "roundRobin" ->
    (0 <= default 0%Z (_rr d !! rr_key c t))%Z ->
    (pickMany d (map (pair sel) rnds)).2
    = map (fun j => finishPick pool
                      ((default 0 (_rr d !! rr_key c t) + 1 + Z.of_nat j)
                         mod Z.of_nat (length pool))%Z
                      c t "roundRobin" (sessionKey sel))
        (seq 0 (length rnds)).
Proof.
  induction rnds as [|rnd rnds IH]; intros d Hres Hstr Hp; [reflexivity|].
  inversion Hres as [|? ? Hres1 Hres']; subst.
  pose proof (resolvePool_inr _ _ _ _ _ _ Hres1) as (_ & _ & cRec & _ & _ & _ & Hlen).
  cbn [map pickMany length seq].
  rewrite (pickProxy_resolved _ _ _ _ _ _ Hres1), Hstr, chooseIndex_roundRobin.
  rewrite (nextRR_step _ _ _ Hp Hlen). cbn [fst snd].
  set (p := default 0%Z (_rr d !! rr_key c t)) in *.
  set (L := Z.of_nat (length pool)).
  set (d1 := set_rr d (<[rr_key c t := ((p + 1) mod L)%Z]> (_rr d))).
  assert (Hcfg : same_config d d1) by (repeat split).
  assert (Hcur : default 0%Z (_rr d1 !! rr_key c t) = ((p + 1) mod L)%Z).
  { unfold d1, set_rr. cbn [_rr]. rewrite lookup_insert_eq. reflexivity. }
  assert (HL : (0 < L)%Z) by (unfold L; lia).
  specialize (IH d1).
  destruct (pickMany d1 (map (pair sel) rnds)) as [d2 rs] eqn:Hrun.
  cbn [snd] in IH |- *. rewrite IH.
  - f_equal.
    + rewrite Z.add_0_r. reflexivity.
    + rewrite <- seq_shift, map_map. apply map_ext. intros j.
      rewrite Hcur. f_equal. fold L.
      rewrite Nat2Z.inj_succ.
      replace (p + 1 + Z.succ (Z.of_nat j))%Z with ((p + 1) + (1 + Z.of_nat j))%Z by lia.
      rewrite <- (Zplus_mod_idemp_l (p + 1)). f_equal. lia.
  - eapply Forall_impl; [exact Hres'|]. intros r Hr.
    rewrite <- (resolvePool_config d d1 sel _ Hcfg). exact Hr.
  - rewrite <- (resolveStrategy_config d d1 sel Hcfg). exact Hstr.
  - rewrite Hcur. apply Z.mod_pos_bound. exact HL.
Qed.

Lemma visited_indexes (n : nat) :
  map (fun j => (Z.of_nat (S j) mod Z.of_nat (S n))%Z) (seq 0 (S n))
  = map Z.of_nat (seq 1 n) ++ [0%Z].
Proof.
  rewrite seq_S, map_app. cbn [map Nat.add]. f_equal.
  - rewrite <- seq_shift, map_map. apply map_ext_in. intros j Hj.
    apply in_seq in Hj. apply Z.mod_small. lia.
  - rewrite Z_mod_same_full. reflexivity.
Qed.

(** C9, as stated, fails: the [L] calls do not visit the pool in order from
    index 0.  On a fresh key of a pool with three entries, three round-robin
    calls return the entries at indexes 1, 2, 0 (hosts [b.io], [c.io],
    [a.io]), not those at 0, 1, 2. *)
Lemma roundRobin_coverage_not_from_index_0 :
  let calls := map (pair roundRobin_options) (replicate 3 zero_draws) in
  let results := (pickMany us_director calls).2 in
  Forall (fun call => resolvePool us_director call.1 (rand_country call.2)
                      = inr ("US", "res_rotating", three_pool)) calls
  /\ _rr us_director !! rr_key "US" "res_rotating" = None
  /\ results = map (fun i => finishPick three_pool i "US" "res_rotating" "roundRobin" None)
                 [1; 2; 0]%Z
  /\ map picked_host results = [Some "b.io"; Some "c.io"; Some "a.io"]
  /\ results <> map (fun i => finishPick three_pool i "US" "res_rotating" "roundRobin" None)
                  [0; 1; 2]%Z
  /\ map picked_host
       (map (fun i => finishPick three_pool i "US" "res_rotating" "roundRobin" None)
          [0; 1; 2]%Z)
     = [Some "a.io"; Some "b.io"; Some "c.io"].
Proof.
  cbv zeta. split; [repeat constructor|].
  repeat split; try (vm_compute; reflexivity).
  vm_compute. intros H. discriminate H.
Qed.

(** C9, amended. [L + 1] successive round-robin calls on a fresh key, all
    resolving to the same pool of length [L]: call [j] (counted from 0)
    returns the entry at index [(j + 1) mod L]; so the first [L] calls visit
    the indexes 1, 2, ..., L-1, 0 in this order, every index of the pool
    exactly once, each call taking the index after the previous one
    modulo [L], index 0 last; and call [L + 1] returns what the first call
    returned. *)
Theorem roundRobin_full_coverage d sel c t pool (rnds : list Rand) :
  Forall (fun rnd => resolvePool d sel (rand_country rnd) = inr (c, t, pool)) rnds ->
  resolveStrategy d sel = "roundRobin" ->
  _rr d !! rr_key c t = None ->
  length rnds = S (length pool) ->
  let L := length pool in
  let visited := fun j : nat => (Z.of_nat (S j) mod Z.of_nat L)%Z in
  let results := (pickMany d (map (pair sel) rnds)).2 in
  results = map (fun j => finishPick pool (visited j) c t "roundRobin" (sessionKey sel))
              (seq 0 (S L))
  /\ map visited (seq 0 L) = map Z.of_nat (seq 1 (L - 1)) ++ [0%Z]
  /\ map visited (seq 0 L) ≡ₚ map Z.of_nat (seq 0 L)
  /\ (forall j, visited (S j) = ((visited j + 1) mod Z.of_nat L)%Z)
  /\ visited L = visited 0%nat
  /\ results !! L = results !! 0%nat.
Proof.
  intros Hres Hstr Hfresh Hlen L visited results.
  assert (HL : (0 < L)%nat).
  { destruct rnds as [|r0 rnds']; [discriminate|].
    inversion Hres as [|? ? Hres1 _]; subst.
    apply resolvePool_inr in Hres1. destruct Hres1 as (_ & _ & ? & _ & _ & _ & H). exact H. }
  assert (Hresults :
            results = map (fun j => finishPick pool (visited j) c t "roundRobin" (sessionKey sel))
                        (seq 0 (S L))).
  { unfold results. rewrite (roundRobin_run sel c t pool rnds d Hres Hstr).
    - rewrite Hlen, Hfresh. cbn [from_option id]. apply map_ext. intros j.
      unfold visited. do 2 f_equal. lia.
    - rewrite Hfresh. cbn. lia. }
  assert (Hwrap : visited L = visited 0%nat).
  { unfold visited. rewrite Nat2Z.inj_succ, <- Z.add_1_r.
    rewrite <- Zplus_mod_idemp_l, Z_mod_same_full. reflexivity. }
  split; [exact Hresults|]. split; [|split; [|split; [|split; [exact Hwrap|]]]].
  - unfold visited. destruct L as [|n]; [lia|].
    rewrite visited_indexes. cbn [Nat.sub]. rewrite Nat.sub_0_r. reflexivity.
  - unfold visited. destruct L as [|n]; [lia|].
    rewrite visited_indexes. cbn [seq map]. symmetry.
    exact (Permutation_cons_append (map Z.of_nat (seq 1 n)) 0%Z).
  - intros j. unfold visited. rewrite Zplus_mod_idemp_l. f_equal. lia.
  - rewrite Hresults. rewrite !list_lookup_fmap.
    rewrite !lookup_seq_lt by lia. cbn [fmap option_fmap option_map Nat.add].
    rewrite Hwrap. reflexivity.
Qed.

Lemma roundRobin_full_coverage_witness :
  (pickMany us_director
     (map (pair (with_strategy no_options "roundRobin")) (replicate 4 zero_draws))).2
  = map (fun j => finishPick three_pool (Z.of_nat (S j) mod 3)%Z "US" "res_rotating"
                    "roundRobin" None)
      (seq 0 4).
Proof.
  refine (proj1 (roundRobin_full_coverage us_director (with_strategy no_options "roundRobin")
                   "US" "res_rotating" three_pool (replicate 4 zero_draws) _ _ _ _)).
  - repeat constructor.
  - reflexivity.
  - vm_compute; reflexivity.
  - reflexivity.
Defined.

(** ** Sticky without a session key *)

Lemma resolvePool_sel d sel1 sel2 u :
  sel_country sel1 = sel_country sel2 -> sel_type sel1 = sel_type sel2 ->
  resolvePool d sel1 u = resolvePool d sel2 u.
Proof.
  intros Hc Ht. unfold resolvePool, resolveCountry, desiredType. rewrite Hc, Ht. reflexivity.
Qed.

Lemma finishPick_relabel pool i c t s s' sk :
  finishPick pool i c t s sk = relabel s (finishPick pool i c t s' sk).
Proof.
  unfold finishPick. destruct (arr_get pool i) as [[e|]|]; try reflexivity.
  destruct (endpoint e); reflexivity.
Qed.

(** C3. A call whose strategy is ["sticky"] and whose session key is missing
    or empty makes the same [_nextRR] step, on the same ["country:type"]
    key, as the same call with strategy ["roundRobin"]: same index, same
    director afterwards, the same entry returned (only the [strategy]
    label of the result differs), and it throws only if the round-robin
    call throws, with the same error. *)
Theorem sticky_without_sessionKey d sel1 sel2 rnd :
  sel_country sel1 = sel_country sel2 ->
  sel_type sel1 = sel_type sel2 ->
  sessionKey sel1 = sessionKey sel2 ->
  truthy (sessionKey sel1) = None ->
  resolveStrategy d sel1 = "sticky" ->
  resolveStrategy d sel2 = "roundRobin" ->
  (pickProxy d sel1 rnd).1 = (pickProxy d sel2 rnd).1
  /\ (pickProxy d sel1 rnd).2 = relabel "sticky" (pickProxy d sel2 rnd).2
  /\ (forall e, (pickProxy d sel1 rnd).2 = inl e <-> (pickProxy d sel2 rnd).2 = inl e)
  /\ (forall c t pool,
        resolvePool d sel1 (rand_country rnd) = inr (c, t, pool) ->
        let step := _nextRR d (rr_key c t) (length pool) in
        chooseIndex d c t (length pool) "sticky" (sessionKey sel1) (rand_index rnd) = step
        /\ chooseIndex d c t (length pool) "roundRobin" (sessionKey sel2)
             (rand_index rnd) = step
        /\ pickProxy d sel1 rnd
           = (step.2, finishPick pool step.1 c t "sticky" (sessionKey sel1))
        /\ pickProxy d sel2 rnd
           = (step.2, finishPick pool step.1 c t "roundRobin" (sessionKey sel2))).
Proof.
  intros Hc Ht Hsk Hnone Hs1 Hs2.
  pose proof (resolvePool_sel d sel1 sel2 (rand_country rnd) Hc Ht) as Hsame.
  assert (Hresolved : forall c t pool,
             resolvePool d sel1 (rand_country rnd) = inr (c, t, pool) ->
             let step := _nextRR d (rr_key c t) (length pool) in
             chooseIndex d c t (length pool) "sticky" (sessionKey sel1) (rand_index rnd) = step
             /\ chooseIndex d c t (length pool) "roundRobin" (sessionKey sel2)
                  (rand_index rnd) = step
             /\ pickProxy d sel1 rnd
                = (step.2, finishPick pool step.1 c t "sticky" (sessionKey sel1))
             /\ pickProxy d sel2 rnd
                = (step.2, finishPick pool step.1 c t "roundRobin" (sessionKey sel2))).
  { intros c t pool Hres step.
    assert (H1 : chooseIndex d c t (length pool) "sticky" (sessionKey sel1) (rand_index rnd) = step)
      by (apply chooseIndex_sticky_nokey; exact Hnone).
    split; [exact H1|]. split; [reflexivity|]. split.
    - rewrite (pickProxy_resolved _ _ _ _ _ _ Hres), Hs1, H1. reflexivity.
    - rewrite Hsame in Hres.
      rewrite (pickProxy_resolved _ _ _ _ _ _ Hres), Hs2, chooseIndex_roundRobin. reflexivity. }
  assert (Hrel : (pickProxy d sel1 rnd).1 = (pickProxy d sel2 rnd).1
                 /\ (pickProxy d sel1 rnd).2 = relabel "sticky" (pickProxy d sel2 rnd).2).
  { assert (Hcase : (exists e, resolvePool d sel1 (rand_country rnd) = inl e)
                     \/ (exists c t pool,
                            resolvePool d sel1 (rand_country rnd) = inr (c, t, pool))).
    { destruct (resolvePool d sel1 (rand_country rnd)) as [e|[[c t] pool]]; eauto. }
    destruct Hcase as [[e Hres]|(c & t & pool & Hres)].
    - rewrite (pickProxy_unresolved _ _ _ _ Hres).
      rewrite Hsame in Hres. rewrite (pickProxy_unresolved _ _ _ _ Hres). split; reflexivity.
    - destruct (Hresolved c t pool Hres) as (_ & _ & -> & ->). cbn [fst snd].
      split; [reflexivity|]. rewrite <- Hsk. apply finishPick_relabel. }
  destruct Hrel as [Hst Hr].
  split; [exact Hst|]. split; [exact Hr|]. split; [|exact Hresolved].
  intros e. rewrite Hr. destruct ((pickProxy d sel2 rnd).2); simpl; split; congruence.
Qed.

Lemma sticky_without_sessionKey_witness :
  (pickProxy us_director (with_strategy no_options "sticky") zero_draws).1
  = (pickProxy us_director (with_strategy no_options "roundRobin") zero_draws).1.
Proof.
  refine (proj1 (sticky_without_sessionKey us_director (with_strategy no_options "sticky")
                   (with_strategy no_options "roundRobin") zero_draws _ _ _ _ _ _));
    reflexivity.
Defined.

(** ** Sticky affinity *)

Lemma finishPick_sessionKey pool i c t s sk sk' :
  truthy sk = truthy sk' -> finishPick pool i c t s sk = finishPick pool i c t s sk'.
Proof. intros H. unfold finishPick. rewrite H. reflexivity. Qed.

Lemma truthy_idem (o : option string) : truthy (truthy o) = truthy o.
Proof. destruct o as [[|a s]|]; reflexivity. Qed.

(** Only a sticky call carrying [key] writes the sticky entry of [key]. *)
Lemma chooseIndex_sticky_frame d c t len strategy sk u key :
  ~ (strategy = "sticky" /\ truthy sk = Some key) ->
  _sticky (chooseIndex d c t len strategy sk u).2 !! key = _sticky d !! key.
Proof.
  intros Hnot. unfold chooseIndex.
  destruct (String.eqb strategy "random"); [reflexivity|].
  destruct (String.eqb strategy "roundRobin"); [reflexivity|].
  destruct (String.eqb_spec strategy "sticky") as [Hs|]; [|reflexivity].
  destruct (String.eqb_spec (default "" (truthy sk)) "") as [|Hne]; [reflexivity|].
  assert (Hk : default "" (truthy sk) <> key).
  { intros <-. apply Hnot. split; [exact Hs|].
    destruct (truthy sk); [reflexivity | contradiction Hne; reflexivity]. }
  destruct (_sticky d !! default "" (truthy sk)) as [e|].
  - destruct (_ && _); [reflexivity|]. cbn. apply lookup_insert_ne. exact Hk.
  - cbn. apply lookup_insert_ne. exact Hk.
Qed.

Lemma pickProxy_sticky_frame d sel rnd key :
  ~ sticky_call_on d key (sel, rnd) ->
  _sticky (pickProxy d sel rnd).1 !! key = _sticky d !! key.
Proof.
  intros Hnot.
  destruct (resolvePool d sel (rand_country rnd)) as [e|[[c t] pool]] eqn:H.
  - rewrite (pickProxy_unresolved _ _ _ _ H). reflexivity.
  - rewrite (pickProxy_resolved _ _ _ _ _ _ H). cbn [fst].
    apply chooseIndex_sticky_frame. exact Hnot.
Qed.

Lemma sticky_call_on_config d d' key call :
  same_config d d' -> sticky_call_on d key call <-> sticky_call_on d' key call.
Proof.
  intros H. unfold sticky_call_on. rewrite (resolveStrategy_config d d' _ H). tauto.
Qed.

Lemma sticky_call_on_dec d key call : {sticky_call_on d key call} + {~ sticky_call_on d key call}.
Proof.
  unfold sticky_call_on.
  destruct (decide (resolveStrategy d call.1 = "sticky"));
    destruct (decide (truthy (sessionKey call.1) = Some key)); tauto.
Qed.

(** The catalog is never changed, so a country and a type name one pool. *)
Lemma resolvePool_same_pair d sel u sel' u' c t pool pool' :
  resolvePool d sel u = inr (c, t, pool) ->
  resolvePool d sel' u' = inr (c, t, pool') ->
  pool' = pool.
Proof.
  intros H H'.
  apply resolvePool_inr in H. destruct H as (_ & _ & cRec & Hrec & _ & Hpool & _).
  apply resolvePool_inr in H'. destruct H' as (_ & _ & cRec' & Hrec' & _ & Hpool' & _).
  congruence.
Qed.

(** Once [key] is pinned to index [i] of the pool of [(c, t)], every later
    sticky call with that key that resolves to [(c, t)] returns the entry at
    [i], and the pin stays, as long as no sticky call with that key resolves
    to another country or type.  Calls with another key or strategy, and
    calls that throw before a pool is resolved, may come in between. *)
Lemma sticky_pinned_run d key c t pool i (calls : list (ProxySelectionOptions * Rand)) :
  forall d1,
    same_config d d1 ->
    _sticky d1 !! key = Some (mkSticky c t i) ->
    (i < Z.of_nat (length pool))%Z ->
    (exists sel0 u0, resolvePool d sel0 u0 = inr (c, t, pool)) ->
    Forall (fun call => sticky_call_on d key call ->
                        forall c' t' pool',
                          resolvePool d call.1 (rand_country call.2) = inr (c', t', pool') ->
                          c' = c /\ t' = t) calls ->
    Forall2 (fun call r => sticky_call_on d key call ->
                           (exists pool',
                               resolvePool d call.1 (rand_country call.2) = inr (c, t, pool')) ->
                           r = finishPick pool i c t "sticky" (Some key))
            calls (pickMany d1 calls).2
    /\ _sticky (pickMany d1 calls).1 !! key = Some (mkSticky c t i).
Proof.
  induction calls as [|[sel rnd] calls IH]; intros d1 Hcfg Hpin Hlt Hpool Hres.
  - split; [constructor | exact Hpin].
  - inversion Hres as [|? ? Hres1 Hres']; subst. cbn [pickMany].
    assert (Hstep : same_config d (pickProxy d1 sel rnd).1
                    /\ _sticky (pickProxy d1 sel rnd).1 !! key = Some (mkSticky c t i)
                    /\ (sticky_call_on d key (sel, rnd) ->
                        (exists pool',
                            resolvePool d sel (rand_country rnd) = inr (c, t, pool')) ->
                        (pickProxy d1 sel rnd).2 = finishPick pool i c t "sticky" (Some key))).
    { split; [eapply same_config_trans; [exact Hcfg | apply pickProxy_config]|].
      destruct (sticky_call_on_dec d key (sel, rnd)) as [Hon|Hoff].
      - specialize (Hres1 Hon). cbn [fst snd] in Hres1.
        destruct (resolvePool d sel (rand_country rnd)) as [e|[[c' t'] pool']] eqn:Hr.
        + (* the call throws before a pool is resolved: nothing changes *)
          rewrite (resolvePool_config d d1 _ _ Hcfg) in Hr.
          rewrite (pickProxy_unresolved _ _ _ _ Hr). cbn [fst snd].
          split; [exact Hpin|]. intros _ [pool' Hp]. discriminate Hp.
        + destruct (Hres1 c' t' pool' eq_refl) as [-> ->].
          destruct Hpool as (sel0 & u0 & Hpool).
          assert (pool' = pool) by (eapply resolvePool_same_pair; eassumption). subst pool'.
          rewrite (resolvePool_config d d1 _ _ Hcfg) in Hr.
          destruct Hon as [Hs Hk]. cbn [fst] in Hs, Hk.
          rewrite (resolveStrategy_config d d1 _ Hcfg) in Hs.
          rewrite (pickProxy_resolved _ _ _ _ _ _ Hr), Hs.
          rewrite (chooseIndex_sticky_hit d1 c t (length pool) (sessionKey sel) key
                     (mkSticky c t i) (rand_index rnd) Hk Hpin eq_refl eq_refl Hlt).
          cbn [fst snd st_index]. split; [exact Hpin|]. intros _ _.
          apply finishPick_sessionKey. rewrite Hk.
          apply truthy_Some in Hk. destruct Hk as [_ Hne].
          destruct key; [congruence | reflexivity].
      - split; [|intros Hon; contradiction].
        rewrite pickProxy_sticky_frame; [exact Hpin|].
        intros Hon. apply Hoff. apply (sticky_call_on_config d d1 key (sel, rnd) Hcfg). exact Hon. }
    destruct Hstep as (Hcfg1 & Hpin1 & Hr1).
    destruct (pickProxy d1 sel rnd) as [d2 r] eqn:Hp. cbn [fst snd] in *.
    specialize (IH d2 Hcfg1 Hpin1 Hlt Hpool Hres').
    destruct (pickMany d2 calls) as [d3 rs]. cbn [fst snd] in *.
    destruct IH as [IH1 IH2]. split; [|exact IH2].
    constructor; [exact Hr1 | exact IH1].
Qed.

(** C2, as stated, fails: the sticky table keeps one entry per session key,
    so a call with the same key for another country overwrites it.  Calls 1
    and 3 below carry the same session key and resolve to the same
    [(country, type)], yet return different entries. *)
Lemma sticky_same_key_other_country_unpins :
  let calls := [sticky_call "US" "k" (2 # 3); sticky_call "DE" "k" 0; sticky_call "US" "k" 0] in
  let results := (pickMany two_country_director calls).2 in
  resolvePool two_country_director (sticky_call "US" "k" (2 # 3)).1 0
  = inr ("US", "res_rotating", three_pool)
  /\ resolvePool two_country_director (sticky_call "US" "k" 0).1 0
     = inr ("US", "res_rotating", three_pool)
  /\ results !! 0%nat = Some (finishPick three_pool 2 "US" "res_rotating" "sticky" (Some "k"))
  /\ results !! 2%nat = Some (finishPick three_pool 0 "US" "res_rotating" "sticky" (Some "k"))
  /\ picked_host <$> results !! 0%nat = Some (Some "c.io")
  /\ picked_host <$> results !! 2%nat = Some (Some "a.io")
  /\ results !! 0%nat <> results !! 2%nat.
Proof.
  cbv zeta. repeat split; try (vm_compute; reflexivity).
  vm_compute. intros H. discriminate H.
Qed.

(** C2, amended. A sticky call with a non-empty session key [key] that
    resolves to the pool of [(c, t)], of length [L]:
    - if the sticky table holds [(c, t, index)] for [key] with [index < L],
      the call returns the entry at that index and leaves the director,
      hence the sticky entry, as it was;
    - otherwise it draws a fresh index (in [0, L) when the draw is in
      [0,1)), returns the entry there and overwrites the entry of [key]
      with [(c, t, index)];
    - consequently, after the call [key] is pinned: every later sticky call
      with that key that resolves to [(c, t)] returns exactly what this call
      returned (same index, same proxyConfig), as long as no sticky call
      with that key in between resolved to another country or type.  Calls
      with another key or another strategy, and calls that throw before a
      pool is resolved (with this key or not), may come in between. *)
Theorem sticky_affinity d sel rnd c t pool key :
  resolvePool d sel (rand_country rnd) = inr (c, t, pool) ->
  resolveStrategy d sel = "sticky" ->
  truthy (sessionKey sel) = Some key ->
  let L := Z.of_nat (length pool) in
  (forall e, _sticky d !! key = Some e ->
             st_country e = c -> st_type e = t -> (st_index e < L)%Z ->
             pickProxy d sel rnd
             = (d, finishPick pool (st_index e) c t "sticky" (sessionKey sel)))
  /\ ((forall e, _sticky d !! key = Some e ->
                 ~ (st_country e = c /\ st_type e = t /\ (st_index e < L)%Z)) ->
      let index := random_index (rand_index rnd) (length pool) in
      pickProxy d sel rnd
      = (set_sticky d (<[key := mkSticky c t index]> (_sticky d)),
         finishPick pool index c t "sticky" (sessionKey sel))
      /\ (unit_draw (rand_index rnd) -> (0 <= index < L)%Z))
  /\ (unit_draw (rand_index rnd) ->
      exists index,
        (index < L)%Z
        /\ (pickProxy d sel rnd).2 = finishPick pool index c t "sticky" (sessionKey sel)
        /\ _sticky (pickProxy d sel rnd).1 !! key = Some (mkSticky c t index)
        /\ forall calls,
             Forall (fun call => sticky_call_on d key call ->
                       forall c' t' pool',
                         resolvePool d call.1 (rand_country call.2) = inr (c', t', pool') ->
                         c' = c /\ t' = t) calls ->
             Forall2 (fun call r => sticky_call_on d key call ->
                        (exists pool',
                            resolvePool d call.1 (rand_country call.2) = inr (c, t, pool')) ->
                        r = (pickProxy d sel rnd).2)
                     calls (pickMany (pickProxy d sel rnd).1 calls).2).
Proof.
  intros Hres Hs Hk L.
  pose proof (resolvePool_inr _ _ _ _ _ _ Hres) as (_ & _ & cRec & _ & _ & _ & Hlen).
  assert (Hhit : forall e, _sticky d !! key = Some e ->
             st_country e = c -> st_type e = t -> (st_index e < L)%Z ->
             pickProxy d sel rnd
             = (d, finishPick pool (st_index e) c t "sticky" (sessionKey sel))).
  { intros e He Hc Ht Hlt.
    rewrite (pickProxy_resolved _ _ _ _ _ _ Hres), Hs.
    rewrite (chooseIndex_sticky_hit d c t (length pool) (sessionKey sel) key e
               (rand_index rnd) Hk He Hc Ht Hlt). reflexivity. }
  assert (Hmiss : (forall e, _sticky d !! key = Some e ->
                     ~ (st_country e = c /\ st_type e = t /\ (st_index e < L)%Z)) ->
             pickProxy d sel rnd
             = (set_sticky d (<[key := mkSticky c t (random_index (rand_index rnd) (length pool))]>
                                (_sticky d)),
                finishPick pool (random_index (rand_index rnd) (length pool)) c t "sticky"
                  (sessionKey sel))).
  { intros Hno.
    rewrite (pickProxy_resolved _ _ _ _ _ _ Hres), Hs.
    rewrite (chooseIndex_sticky_miss d c t (length pool) (sessionKey sel) key
               (rand_index rnd) Hk Hno). reflexivity. }
  split; [exact Hhit|]. split.
  { intros Hno index. split; [apply Hmiss; exact Hno|].
    intros Hu. apply random_index_range; assumption. }
  intros Hu.
  assert (Hpinned : exists index,
             (index < L)%Z
             /\ (pickProxy d sel rnd).2 = finishPick pool index c t "sticky" (sessionKey sel)
             /\ _sticky (pickProxy d sel rnd).1 !! key = Some (mkSticky c t index)).
  { destruct (_sticky d !! key) as [e|] eqn:He.
    - destruct (decide (st_country e = c /\ st_type e = t /\ (st_index e < L)%Z))
        as [(Hc & Ht & Hlt)|Hno].
      + exists (st_index e). rewrite (Hhit e eq_refl Hc Ht Hlt). cbn [fst snd].
        split; [exact Hlt|]. split; [reflexivity|].
        rewrite He. destruct e; cbn in *; subst; reflexivity.
      + exists (random_index (rand_index rnd) (length pool)).
        rewrite Hmiss by (intros e' [= <-]; exact Hno). cbn.
        split; [apply random_index_range; assumption|].
        split; [reflexivity | apply lookup_insert_eq].
    - exists (random_index (rand_index rnd) (length pool)).
      rewrite Hmiss by (intros e' [=]). cbn.
      split; [apply random_index_range; assumption|].
      split; [reflexivity | apply lookup_insert_eq]. }
  destruct Hpinned as (index & Hlt & Hr & Hpin).
  exists index. repeat split; try assumption.
  intros calls Hcalls.
  destruct (sticky_pinned_run d key c t pool index calls (pickProxy d sel rnd).1
              (pickProxy_config d sel rnd) Hpin Hlt
              (ex_intro _ sel (ex_intro _ (rand_country rnd) Hres)) Hcalls) as [Hall _].
  eapply Forall2_impl; [exact Hall|].
  intros call r Himp Hon Hsame. rewrite (Himp Hon Hsame), Hr.
  apply finishPick_sessionKey. rewrite Hk.
  apply truthy_Some in Hk. destruct Hk as [_ Hne].
  destruct key; [congruence | reflexivity].
Qed.

Lemma sticky_affinity_witness :
  pickProxy two_country_director (sticky_call "US" "k" (2 # 3)).1 (sticky_call "US" "k" (2 # 3)).2
  = (set_sticky two_country_director
       (<["k" := mkSticky "US" "res_rotating" 2]> (_sticky two_country_director)),
     finishPick three_pool 2 "US" "res_rotating" "sticky" (Some "k")).
Proof.
  refine (proj1 (proj1 (proj2 (sticky_affinity two_country_director
                                 (sticky_call "US" "k" (2 # 3)).1 (sticky_call "US" "k" (2 # 3)).2
                                 "US" "res_rotating" three_pool "k" _ _ _)) _)).
  - vm_compute; reflexivity.
  - reflexivity.
  - reflexivity.
  - intros e He. vm_compute in He. discriminate He.
Defined.

(** ** What a successful call returns *)

Lemma finishPick_inr pool i c t s sk m :
  finishPick pool i c t s sk = inr m ->
  exists entry ep,
    arr_get pool i = Some (Some entry)
    /\ endpoint entry = Some ep
    /\ proxyConfig m = applySessionToken ep (default "" (truthy sk))
    /\ pick_country m = c /\ pick_type m = t /\ pick_strategy m = s
    /\ pick_provider m = provider entry /\ pick_notes m = notes entry.
Proof.
  unfold finishPick.
  destruct (arr_get pool i) as [[entry|]|]; try discriminate.
  destruct (endpoint entry) as [ep|] eqn:Hep; [|discriminate].
  intros [= <-]. exists entry, ep. cbn. repeat split; assumption || reflexivity.
Qed.

Lemma pickProxy_inr d sel rnd d' m :
  pickProxy d sel rnd = (d', inr m) ->
  exists c t pool i,
    resolvePool d sel (rand_country rnd) = inr (c, t, pool)
    /\ chooseIndex d c t (length pool) (resolveStrategy d sel) (sessionKey sel)
         (rand_index rnd) = (i, d')
    /\ finishPick pool i c t (resolveStrategy d sel) (sessionKey sel) = inr m.
Proof.
  intros H.
  destruct (resolvePool d sel (rand_country rnd)) as [e|[[c t] pool]] eqn:Hres.
  - rewrite (pickProxy_unresolved _ _ _ _ Hres) in H. discriminate H.
  - rewrite (pickProxy_resolved _ _ _ _ _ _ Hres) in H.
    exists c, t, pool.
    destruct (chooseIndex d c t (length pool) (resolveStrategy d sel) (sessionKey sel)
                (rand_index rnd)) as [i d1].
    cbn [fst snd] in H. injection H as <- Hm.
    exists i. repeat split; assumption || reflexivity.
Qed.

Lemma arr_get_range {A} (l : list A) (i : Z) :
  (0 <= i < Z.of_nat (length l))%Z -> exists x, arr_get l i = Some x /\ In x l.
Proof.
  intros [H0 H1]. unfold arr_get.
  destruct (Z.ltb_spec i 0); [lia|].
  destruct (nth_error l (Z.to_nat i)) as [x|] eqn:E.
  - exists x. split; [reflexivity|]. eapply nth_error_In; exact E.
  - apply nth_error_None in E. lia.
Qed.

Lemma finishPick_ok pool i c t s sk :
  (0 <= i < Z.of_nat (length pool))%Z ->
  forallb slot_ok pool = true ->
  exists m, finishPick pool i c t s sk = inr m
            /\ pick_country m = c /\ pick_type m = t /\ pick_strategy m = s.
Proof.
  intros Hi Hok. destruct (arr_get_range pool i Hi) as (x & Hx & Hin).
  rewrite forallb_forall in Hok. specialize (Hok x Hin).
  unfold finishPick. rewrite Hx.
  destruct x as [entry|]; [|discriminate]. cbn in Hok.
  destruct (endpoint entry) as [ep|]; [|discriminate].
  eexists. split; [reflexivity|]. cbn. auto.
Qed.

(** C8, as stated, fails when no session key is given: the stored endpoint
    the builder made carries the derived [auth] string, and the call
    returns it. *)
Lemma pickProxy_without_sessionKey_returns_auth :
  sanitizeEntry (Some (raw_entry "A" "a.io")) = inr (built_entry "A" "a.io")
  /\ sessionKey no_options = None
  /\ exists d' m,
       pickProxy us_director no_options zero_draws = (d', inr m)
       /\ endpoint (built_entry "A" "a.io") = Some (proxyConfig m)
       /\ auth (proxyConfig m) = Some "user:pass".
Proof.
  split; [reflexivity|]. split; [reflexivity|].
  eexists _, _. split; [vm_compute; reflexivity|]. split; reflexivity.
Qed.

(** C8, amended. Every successful call returns the endpoint stored at the
    chosen slot of the resolved pool, passed through [applySessionToken]:
    with a non-empty session key the proxyConfig has exactly protocol, host,
    port and, where stored, username and password (no [auth], no other
    field); with the session key missing or empty it is the stored endpoint
    with all its fields, [auth] included. *)
Theorem proxyConfig_fields d sel rnd d' m :
  pickProxy d sel rnd = (d', inr m) ->
  exists cRec pool index entry ep,
    obj_get (catalog d) (pick_country m) = Some cRec
    /\ obj_get cRec (pick_type m) = Some (PArr pool)
    /\ arr_get pool index = Some (Some entry)
    /\ endpoint entry = Some ep
    /\ (forall s, truthy (sessionKey sel) = Some s ->
          proxyConfig m = applySessionToken ep s
          /\ protocol (proxyConfig m) = protocol ep
          /\ port (proxyConfig m) = port ep
          /\ (is_Some (username (proxyConfig m)) <-> is_Some (username ep))
          /\ (is_Some (password (proxyConfig m)) <-> is_Some (password ep))
          /\ auth (proxyConfig m) = None
          /\ other_fields (proxyConfig m) = [])
    /\ (truthy (sessionKey sel) = None -> proxyConfig m = ep).
Proof.
  intros H.
  apply pickProxy_inr in H. destruct H as (c & t & pool & i & Hres & _ & Hfin).
  apply resolvePool_inr in Hres. destruct Hres as (_ & _ & cRec & Hrec & _ & Hpool & _).
  apply finishPick_inr in Hfin.
  destruct Hfin as (entry & ep & Hslot & Hep & Hcfg & Hc & Ht & _).
  exists cRec, pool, i, entry, ep. subst c t.
  repeat (split; [assumption|]). split.
  - intros s Hs. rewrite Hcfg, Hs. cbn [from_option id].
    destruct (truthy_Some _ _ Hs) as [_ Hne].
    destruct (applySessionToken_protocol_port ep s) as [Hproto Hport].
    destruct (applySessionToken_nonempty_shape ep s Hne) as (Hauth & Hother & Huser & Hpass).
    repeat split; assumption || apply Huser || apply Hpass.
  - intros Hnone. rewrite Hcfg, Hnone. reflexivity.
Qed.

Lemma proxyConfig_fields_witness :
  exists cRec pool index entry ep,
    obj_get (catalog us_director) (pick_country session_pick) = Some cRec
    /\ obj_get cRec (pick_type session_pick) = Some (PArr pool)
    /\ arr_get pool index = Some (Some entry)
    /\ endpoint entry = Some ep
    /\ (forall s, truthy (sessionKey session_options) = Some s ->
          proxyConfig session_pick = applySessionToken ep s
          /\ protocol (proxyConfig session_pick) = protocol ep
          /\ port (proxyConfig session_pick) = port ep
          /\ (is_Some (username (proxyConfig session_pick)) <-> is_Some (username ep))
          /\ (is_Some (password (proxyConfig session_pick)) <-> is_Some (password ep))
          /\ auth (proxyConfig session_pick) = None
          /\ other_fields (proxyConfig session_pick) = [])
    /\ (truthy (sessionKey session_options) = None -> proxyConfig session_pick = ep).
Proof.
  apply (proxyConfig_fields us_director session_options zero_draws us_director session_pick).
  vm_compute. reflexivity.
Defined.

(** ** Type fallback *)

Lemma find_Some_split {A} (f : A -> bool) (l : list A) (x : A) :
  find f l = Some x ->
  exists l1 l2, l = l1 ++ x :: l2 /\ f x = true /\ Forall (fun y => f y = false) l1.
Proof.
  induction l as [|a l IH]; simpl; [discriminate|].
  destruct (f a) eqn:Ha.
  - intros [= <-]. exists [], l. repeat split; [exact Ha | constructor].
  - intros H. destruct (IH H) as (l1 & l2 & -> & Hx & Hl1).
    exists (a :: l1), l2. repeat split; [exact Hx | constructor; assumption].
Qed.

Lemma find_None_Forall {A} (f : A -> bool) (l : list A) :
  find f l = None <-> Forall (fun y => f y = false) l.
Proof.
  induction l as [|a l IH]; simpl.
  - split; [constructor | reflexivity].
  - destruct (f a) eqn:Ha.
    + split; [discriminate|]. intros H. inversion H; congruence.
    + rewrite IH. split; [intros; constructor; assumption | intros H; inversion H; assumption].
Qed.

Lemma head_filter_Some {A} (f : A -> bool) (l : list A) (x : A) :
  head (List.filter f l) = Some x -> f x = true /\ In x l.
Proof.
  intros H. assert (Hin : In x (List.filter f l)).
  { destruct (List.filter f l); [discriminate|]. injection H as ->. left; reflexivity. }
  apply filter_In in Hin. tauto.
Qed.

Lemma head_filter_None {A} (f : A -> bool) (l : list A) :
  head (List.filter f l) = None -> forall x, In x l -> f x = false.
Proof.
  intros H x Hin. destruct (f x) eqn:Hx; [|reflexivity].
  assert (Hin' : In x (List.filter f l)) by (apply filter_In; auto).
  destruct (List.filter f l); [destruct Hin' | discriminate].
Qed.

Lemma populated_key (cRec : CountryRecord) (t : string) :
  populated cRec t = true -> In t (Object_keys cRec).
Proof.
  unfold populated. destruct (obj_get cRec t) as [v|] eqn:E; [|discriminate].
  intros _. eapply obj_get_key_In; exact E.
Qed.

Lemma populated_pool (cRec : CountryRecord) (t : string) :
  populated cRec t = true ->
  exists e pool', obj_get cRec t = Some (PArr (e :: pool')).
Proof.
  unfold populated. destruct (obj_get cRec t) as [[[|e pool']|]|]; try discriminate.
  intros _. eauto.
Qed.

(** What a resolved pool type is. *)
Lemma resolvePoolType_Some (cRec : CountryRecord) (desired t : string) :
  resolvePoolType cRec desired = Some t ->
  populated cRec t = true
  /\ t <> ""
  /\ (populated cRec desired = true -> t = desired)
  /\ (populated cRec desired = false ->
      (find (populated cRec) type_order = Some t
       \/ (find (populated cRec) type_order = None
           /\ head (List.filter (populated cRec) (Object_keys cRec)) = Some t))).
Proof.
  unfold resolvePoolType. intros H. apply truthy_Some in H. destruct H as [H Hne].
  destruct (populated cRec desired) eqn:Hd.
  - injection H as <-. repeat split; auto. discriminate.
  - unfold firstAvailableType in H.
    destruct (find (populated cRec) type_order) as [t0|] eqn:Hf.
    + injection H as <-. pose proof (find_Some_split _ _ _ Hf) as (_ & _ & _ & Hp & _).
      repeat split; auto. discriminate.
    + apply truthy_Some in H. destruct H as [H _].
      pose proof (head_filter_Some _ _ _ H) as [Hp _].
      repeat split; auto. discriminate.
Qed.

Lemma has_populated_type_false (cRec : CountryRecord) :
  has_populated_type cRec = false <-> forall t, populated cRec t = false.
Proof.
  unfold has_populated_type. split.
  - intros H t. destruct (populated cRec t) eqn:E; [|reflexivity].
    assert (existsb (populated cRec) (Object_keys cRec) = true).
    { apply existsb_exists. exists t. split; [apply populated_key; exact E | exact E]. }
    congruence.
  - intros H. destruct (existsb _ _) eqn:E; [|reflexivity].
    apply existsb_exists in E. destruct E as (t & _ & Ht). rewrite H in Ht. discriminate.
Qed.

(** With non-empty type keys, type resolution fails exactly when the record
    has no non-empty pool. *)
Lemma resolvePoolType_None (cRec : CountryRecord) (desired : string) :
  (forall t, In t (Object_keys cRec) -> t <> "") ->
  resolvePoolType cRec desired = None <-> has_populated_type cRec = false.
Proof.
  intros Hkeys. rewrite has_populated_type_false. unfold resolvePoolType. split.
  - intros H t. destruct (populated cRec t) eqn:Ht; [|reflexivity]. exfalso.
    assert (Hfilter : head (List.filter (populated cRec) (Object_keys cRec)) <> None).
    { intros Hnone. pose proof (head_filter_None _ _ Hnone t (populated_key _ _ Ht)). congruence. }
    destruct (populated cRec desired) eqn:Hd.
    + apply truthy_None in H. destruct H as [H|H]; [discriminate|].
      injection H as H. apply (Hkeys desired); [apply populated_key; exact Hd | exact H].
    + unfold firstAvailableType in H.
      destruct (find (populated cRec) type_order) as [t0|] eqn:Hf.
      * apply truthy_None in H. destruct H as [H|H]; [discriminate|]. injection H as ->.
        destruct (find_Some_split _ _ _ Hf) as (_ & _ & _ & Hp & _).
        apply (Hkeys ""); [apply populated_key; exact Hp | reflexivity].
      * rewrite truthy_idem in H.
        destruct (head (List.filter (populated cRec) (Object_keys cRec))) as [k|] eqn:Hh;
          [|congruence].
        apply truthy_None in H. destruct H as [H|H]; [discriminate|]. injection H as ->.
        destruct (head_filter_Some _ _ _ Hh) as [_ Hin]. apply (Hkeys "" Hin). reflexivity.
  - intros Hnone. rewrite (Hnone desired). unfold firstAvailableType.
    assert (Hf : find (populated cRec) type_order = None).
    { apply find_None_Forall. apply List.Forall_forall. intros; apply Hnone. }
    rewrite Hf.
    assert (Hh : List.filter (populated cRec) (Object_keys cRec) = []).
    { clear Hkeys. induction (Object_keys cRec) as [|k ks IH]; [reflexivity|].
      simpl. rewrite (Hnone k). exact IH. }
    rewrite Hh. reflexivity.
Qed.

Lemma desiredType_spec d sel : desiredType d sel = spec_requested_type d sel.
Proof.
  unfold desiredType, spec_requested_type. destruct (sel_type sel) as [[|a s]|]; reflexivity.
Qed.

Lemma spec_type_priority_populated (cRec : CountryRecord) (requested t : string) :
  spec_type_priority cRec requested = Some t -> populated cRec t = true.
Proof.
  unfold spec_type_priority.
  destruct (populated cRec requested) eqn:E0; [intros [= <-]; exact E0|].
  destruct (populated cRec "res_rotating") eqn:E1; [intros [= <-]; exact E1|].
  destruct (populated cRec "res_static") eqn:E2; [intros [= <-]; exact E2|].
  destruct (populated cRec "dc_rotating") eqn:E3; [intros [= <-]; exact E3|].
  destruct (populated cRec "dc_static") eqn:E4; [intros [= <-]; exact E4|].
  intros H. apply head_filter_Some in H. apply H.
Qed.

(** The code's type resolution is the specification's, except that a
    resolved type that is the empty string counts as none. *)
Lemma resolvePoolType_spec (cRec : CountryRecord) (requested : string) :
  resolvePoolType cRec requested = truthy (spec_type_priority cRec requested).
Proof.
  unfold resolvePoolType, spec_type_priority, firstAvailableType, type_order. cbn [find].
  destruct (populated cRec requested); [reflexivity|].
  destruct (populated cRec "res_rotating"); [reflexivity|].
  destruct (populated cRec "res_static"); [reflexivity|].
  destruct (populated cRec "dc_rotating"); [reflexivity|].
  destruct (populated cRec "dc_static"); [reflexivity|].
  apply truthy_idem.
Qed.

(** C4, as stated, fails: a pool under the empty string as type key is a
    populated type key of the record, but it is never used.  With no other
    pool in the country, the call throws "no proxy types present" instead
    of falling back to it. *)
Lemma type_fallback_blank_type_key_throws :
  obj_get (catalog blank_type_director) "DE" = Some blank_type_record
  /\ obj_get blank_type_record "" = Some (PArr [Some (built_entry "D" "d.io")])
  /\ populated blank_type_record "" = true
  /\ Forall (fun t => populated blank_type_record t = false)
       ["res_rotating"; "res_static"; "dc_rotating"; "dc_static"]
  /\ spec_type_priority blank_type_record (spec_requested_type blank_type_director de_residential)
     = Some ""
  /\ pickProxy blank_type_director de_residential zero_draws
     = (blank_type_director, inl (NoProxyTypes "DE")).
Proof.
  repeat split; try (vm_compute; reflexivity).
  repeat constructor.
Qed.

(** C4, amended. The type a call asks for is its own [type], or the default
    type when the call gives none.  The resolved type is that type when it
    has a non-empty pool under the resolved country; otherwise the first of
    [res_rotating], [res_static], [dc_rotating], [dc_static] (in this
    order) that has one; otherwise the first key of the country record, in
    key order, that has one.  A call that returns a pick returns one of the
    type so resolved, taken from that pool.  The call throws "no proxy
    types present" exactly when no type has a non-empty pool or when the
    type so resolved is the empty string, which is never used.  In
    particular, asking for [res_rotating] in a country that is populated
    only under [dc_static] returns a pick of type [dc_static]; and when the
    type keys of the record are non-empty strings, a record with a
    non-empty pool always resolves. *)
Theorem type_fallback :
  (forall cRec t,
      populated cRec t = true <-> exists e pool', obj_get cRec t = Some (PArr (e :: pool')))
  /\ (forall d sel rnd d' m,
        pickProxy d sel rnd = (d', inr m) ->
        exists cRec pool,
          obj_get (catalog d) (pick_country m) = Some cRec
          /\ spec_type_priority cRec (spec_requested_type d sel) = Some (pick_type m)
          /\ pick_type m <> ""
          /\ obj_get cRec (pick_type m) = Some (PArr pool)
          /\ exists i entry, arr_get pool i = Some (Some entry)
                             /\ pick_provider m = provider entry)
  /\ (forall d sel u cRec,
        resolveCountry d sel u <> "" ->
        obj_get (catalog d) (resolveCountry d sel u) = Some cRec ->
        (forall t, spec_type_priority cRec (spec_requested_type d sel) = Some t -> t <> "" ->
           exists pool,
             obj_get cRec t = Some (PArr pool) /\ pool <> []
             /\ resolvePool d sel u = inr (resolveCountry d sel u, t, pool))
        /\ (resolvePool d sel u = inl (NoProxyTypes (resolveCountry d sel u))
            <-> (spec_type_priority cRec (spec_requested_type d sel) = None
                 \/ spec_type_priority cRec (spec_requested_type d sel) = Some "")))
  /\ (forall d sel rnd cRec,
         resolveCountry d sel (rand_country rnd) <> "" ->
         obj_get (catalog d) (resolveCountry d sel (rand_country rnd)) = Some cRec ->
         (forall k, populated cRec k = true <-> k = "dc_static") ->
         (forall slots, obj_get cRec "dc_static" = Some (PArr slots) ->
                        forallb slot_ok slots = true) ->
         sel_type sel = Some "res_rotating" ->
         state_ok d -> unit_draw (rand_index rnd) ->
         exists d' m, pickProxy d sel rnd = (d', inr m) /\ pick_type m = "dc_static")
  /\ (forall d sel u cRec,
         resolveCountry d sel u <> "" ->
         obj_get (catalog d) (resolveCountry d sel u) = Some cRec ->
         (forall t, In t (Object_keys cRec) -> t <> "") ->
         has_populated_type cRec = true ->
         exists t pool,
           resolvePool d sel u = inr (resolveCountry d sel u, t, pool)
           /\ spec_type_priority cRec (spec_requested_type d sel) = Some t).
Proof.
  assert (Hresolve : forall d sel u cRec,
             resolveCountry d sel u <> "" ->
             obj_get (catalog d) (resolveCountry d sel u) = Some cRec ->
             (forall t, spec_type_priority cRec (spec_requested_type d sel) = Some t -> t <> "" ->
                exists pool,
                  obj_get cRec t = Some (PArr pool) /\ pool <> []
                  /\ resolvePool d sel u = inr (resolveCountry d sel u, t, pool))
             /\ (resolvePool d sel u = inl (NoProxyTypes (resolveCountry d sel u))
                 <-> (spec_type_priority cRec (spec_requested_type d sel) = None
                      \/ spec_type_priority cRec (spec_requested_type d sel) = Some ""))).
  { intros d sel u cRec Hne Hrec.
    assert (Hunfold : resolvePool d sel u
                      = match truthy (spec_type_priority cRec (spec_requested_type d sel)) with
                        | None => inl (NoProxyTypes (resolveCountry d sel u))
                        | Some poolType =>
                            match obj_get cRec poolType with
                            | Some (PArr (e :: pool')) =>
                                inr (resolveCountry d sel u, poolType, e :: pool')
                            | _ => inl (EmptyPool (resolveCountry d sel u) poolType)
                            end
                        end).
    { unfold resolvePool, _pools.
      destruct (String.eqb_spec (resolveCountry d sel u) ""); [contradiction|].
      rewrite Hrec, desiredType_spec, resolvePoolType_spec. reflexivity. }
    split.
    - intros t Ht Htne. rewrite Hunfold, Ht.
      destruct (populated_pool _ _ (spec_type_priority_populated _ _ _ Ht)) as (e & pool' & Hp).
      destruct t as [|a s]; [contradiction|]. cbn [truthy]. rewrite Hp.
      exists (e :: pool'). repeat split. discriminate.
    - rewrite Hunfold.
      destruct (spec_type_priority cRec (spec_requested_type d sel)) as [[|a s]|] eqn:Ht;
        cbn [truthy].
      + split; [auto | reflexivity].
      + destruct (populated_pool _ _ (spec_type_priority_populated _ _ _ Ht))
          as (e & pool' & Hp).
        rewrite Hp. split; [discriminate | intros [H|H]; discriminate].
      + split; [auto | reflexivity]. }
  split; [|split; [|split; [exact Hresolve|split]]].
  - intros cRec t. split; [apply populated_pool|].
    intros (e & pool' & H). unfold populated. rewrite H. reflexivity.
  - intros d sel rnd d' m H.
    apply pickProxy_inr in H. destruct H as (c & t & pool & i & Hres & _ & Hfin).
    apply resolvePool_inr in Hres.
    destruct Hres as (_ & _ & cRec & Hrec & Hpt & Hpool & _).
    apply finishPick_inr in Hfin.
    destruct Hfin as (entry & ep & Hslot & _ & _ & Hc & Ht & _ & Hprov & _).
    subst c t. exists cRec, pool. split; [exact Hrec|].
    rewrite desiredType_spec, resolvePoolType_spec in Hpt.
    apply truthy_Some in Hpt. destruct Hpt as [Hpt Hne].
    split; [exact Hpt|]. split; [exact Hne|]. split; [exact Hpool|]. eauto.
  - intros d sel rnd cRec Hne Hrec Honly Hslots Htype Hok Hu.
    assert (Hdc : populated cRec "dc_static" = true) by (apply Honly; reflexivity).
    assert (Hoff : forall k, k <> "dc_static" -> populated cRec k = false).
    { intros k Hk. destruct (populated cRec k) eqn:E; [|reflexivity].
      apply Honly in E. contradiction. }
    assert (Hpt : spec_type_priority cRec (spec_requested_type d sel) = Some "dc_static").
    { unfold spec_type_priority, spec_requested_type. rewrite Htype.
      rewrite (Hoff "res_rotating"), (Hoff "res_static"), (Hoff "dc_rotating") by discriminate.
      rewrite Hdc. reflexivity. }
    destruct (proj1 (Hresolve d sel (rand_country rnd) cRec Hne Hrec) _ Hpt)
      as (pool & Hpool & Hpne & Hres); [discriminate|].
    rewrite (pickProxy_resolved _ _ _ _ _ _ Hres).
    destruct (finishPick_ok pool
                (chooseIndex d (resolveCountry d sel (rand_country rnd)) "dc_static"
                   (length pool) (resolveStrategy d sel) (sessionKey sel)
                   (rand_index rnd)).1
                (resolveCountry d sel (rand_country rnd)) "dc_static"
                (resolveStrategy d sel) (sessionKey sel)) as (m & Hm & _ & Ht & _).
    + apply chooseIndex_range; [assumption | assumption |].
      destruct pool; [contradiction | simpl; lia].
    + apply Hslots. exact Hpool.
    + eexists _, m. split; [rewrite Hm; reflexivity | exact Ht].
  - intros d sel u cRec Hne Hrec Hkeys Hpop.
    destruct (Hresolve d sel u cRec Hne Hrec) as [Hsome Hnone].
    destruct (spec_type_priority cRec (spec_requested_type d sel)) as [t|] eqn:Hpt.
    + assert (Htne : t <> "").
      { intros ->. apply (Hkeys "");
          [apply populated_key; eapply spec_type_priority_populated; exact Hpt | reflexivity]. }
      destruct (Hsome t eq_refl Htne) as (pool & _ & _ & Hres). eauto.
    + exfalso.
      assert (Hr : resolvePoolType cRec (desiredType d sel) = None).
      { rewrite desiredType_spec, resolvePoolType_spec, Hpt. reflexivity. }
      apply (resolvePoolType_None cRec _ Hkeys) in Hr. congruence.
Qed.

Lemma type_fallback_witness :
  exists d' m, pickProxy dc_director de_residential zero_draws = (d', inr m)
               /\ pick_type m = "dc_static".
Proof.
  refine (proj1 (proj2 (proj2 (proj2 type_fallback))) dc_director de_residential zero_draws
            [("res_rotating", PArr []); ("dc_static", PArr [Some (built_entry "D" "d.io")])]
            _ _ _ _ _ _ _).
  - discriminate.
  - reflexivity.
  - intros k. split.
    + unfold populated. cbn [obj_get].
      destruct (String.eqb_spec "res_rotating" k); [discriminate|].
      destruct (String.eqb_spec "dc_static" k); [auto | discriminate].
    + intros ->. reflexivity.
  - intros slots [= <-]. reflexivity.
  - reflexivity.
  - apply new_ProxyDirector_state_ok.
  - split; reflexivity || discriminate.
Defined.

(** ** Country resolution *)

Lemma head_In {A} (l : list A) (x : A) : head l = Some x -> In x l.
Proof. destruct l; [discriminate|]. intros [= ->]. left; reflexivity. Qed.

Lemma last_In {A} (l : list A) (x : A) : last l = Some x -> In x l.
Proof.
  induction l as [|a l IH]; [discriminate|].
  destruct l as [|b l]; [intros [= ->]; left; reflexivity|].
  intros H. right. apply IH. exact H.
Qed.

Lemma arr_get_In {A} (l : list A) (i : Z) (x : A) : arr_get l i = Some x -> In x l.
Proof.
  unfold arr_get. destruct (i <? 0)%Z; [discriminate|]. apply nth_error_In.
Qed.

Lemma weightedPick_loop_In (entries : list (string * Q)) (r : Q) (k : string) :
  weightedPick_loop entries r = Some k -> In k (map fst entries).
Proof.
  revert r. induction entries as [|[k0 w] entries IH]; intros r; simpl; [discriminate|].
  destruct (Qle_bool (r - Qmax 0 w) 0); [intros [= ->]; auto|].
  intros H. right. eapply IH; exact H.
Qed.

Lemma weightedPick_In (entries : list (string * Q)) (u : Q) (k : string) :
  weightedPick entries u = Some k -> In k (map fst entries).
Proof.
  unfold weightedPick. destruct (Qle_bool _ 0); [apply head_In|].
  destruct (weightedPick_loop entries _) as [k'|] eqn:E.
  - intros [= <-]. eapply weightedPick_loop_In; exact E.
  - apply last_In.
Qed.

Lemma pickCountry_In d u k : _pickCountry d u = Some k -> In k (Object_keys (catalog d)).
Proof.
  unfold _pickCountry, _pools. destruct (Nat.eqb _ 0); [discriminate|].
  destruct (forallb _ _); [apply arr_get_In|].
  intros H. apply weightedPick_In in H. rewrite map_map in H. cbn [fst] in H.
  rewrite map_id in H. exact H.
Qed.

Lemma toUpperCase_empty (s : string) : toUpperCase s = "" -> s = "".
Proof. destruct s; [reflexivity | discriminate]. Qed.

Lemma resolveCountry_supplied d sel u c0 :
  truthy (sel_country sel) = Some c0 -> resolveCountry d sel u = toUpperCase c0.
Proof. intros H. unfold resolveCountry. rewrite H. reflexivity. Qed.

(** Without a country from the caller the resolved country is the upper
    case of a catalog key, or empty. *)
Lemma resolveCountry_picked d sel u :
  truthy (sel_country sel) = None ->
  (resolveCountry d sel u = ""
   /\ (catalog d = [] \/ In "" (Object_keys (catalog d))))
  \/ (exists k, In k (Object_keys (catalog d)) /\ k <> ""
                /\ resolveCountry d sel u = toUpperCase k).
Proof.
  intros H. unfold resolveCountry, _pools. rewrite H. cbn [or_else].
  destruct (truthy (_pickCountry d u)) as [k|] eqn:Hp.
  - right. apply truthy_Some in Hp. destruct Hp as [Hp Hne].
    exists k. split; [eapply pickCountry_In; exact Hp|]. auto.
  - cbn [or_else]. destruct (truthy (head (Object_keys (catalog d)))) as [k|] eqn:Hh.
    + right. apply truthy_Some in Hh. destruct Hh as [Hh Hne].
      exists k. split; [apply head_In; exact Hh|]. auto.
    + left. split; [reflexivity|].
      apply truthy_None in Hh. destruct Hh as [Hh|Hh].
      * left. destruct (catalog d); [reflexivity | discriminate].
      * right. apply head_In. exact Hh.
Qed.

(** ** Well-formed catalogs *)

Lemma keys_ok_country (cat : ProxyCatalog) (k : string) :
  keys_ok cat = true -> In k (Object_keys cat) -> k <> "" /\ toUpperCase k = k.
Proof.
  unfold keys_ok, Object_keys. rewrite forallb_forall. intros Hok Hin.
  apply in_map_iff in Hin. destruct Hin as ([k' cRec] & <- & Hin).
  specialize (Hok _ Hin). cbn [fst snd] in *.
  apply andb_true_iff in Hok as [Hok _]. apply andb_true_iff in Hok as [Hne Hup].
  split.
  - intros ->. discriminate.
  - apply String.eqb_eq. exact Hup.
Qed.

Lemma keys_ok_type (cat : ProxyCatalog) (c : string) (cRec : CountryRecord) (t : string) :
  keys_ok cat = true -> obj_get cat c = Some cRec -> In t (Object_keys cRec) -> t <> "".
Proof.
  unfold keys_ok. rewrite forallb_forall. intros Hok Hrec Hin.
  apply obj_get_In in Hrec. specialize (Hok _ Hrec). cbn [fst snd] in Hok.
  apply andb_true_iff in Hok as [_ Hok]. rewrite forallb_forall in Hok.
  unfold Object_keys in Hin. apply in_map_iff in Hin. destruct Hin as ([t' v] & <- & Hin).
  specialize (Hok _ Hin). cbn [fst] in *. intros ->. discriminate.
Qed.

Lemma slots_ok_pool (cat : ProxyCatalog) (c t : string) (cRec : CountryRecord)
    (pool : list (option ProviderEntry)) :
  slots_ok cat = true -> obj_get cat c = Some cRec -> obj_get cRec t = Some (PArr pool) ->
  forallb slot_ok pool = true.
Proof.
  unfold slots_ok. rewrite forallb_forall. intros Hok Hrec Hpool.
  apply obj_get_In in Hrec. specialize (Hok _ Hrec). cbn [snd] in Hok.
  rewrite forallb_forall in Hok. apply obj_get_In in Hpool.
  specialize (Hok _ Hpool). exact Hok.
Qed.

(** ** Failures *)

(** C7, as stated, fails on a catalog whose country key is not upper case:
    all its slots are entries with an endpoint, it has a country, the caller
    names none, the only record has a non-empty pool, and still the call
    throws, because the key picked from the catalog is upper-cased before
    it is looked up. *)
Lemma pickProxy_lowercase_key_throws :
  slots_ok (catalog lower_director) = true
  /\ catalog lower_director <> []
  /\ truthy (sel_country no_options) = None
  /\ (forall c cRec, In (c, cRec) (catalog lower_director) -> has_populated_type cRec = true)
  /\ _pickCountry lower_director 0 = Some "us"
  /\ resolveCountry lower_director no_options 0 = "US"
  /\ obj_get (catalog lower_director) "US" = None
  /\ pickProxy lower_director no_options zero_draws = (lower_director, inl NoCountriesAvailable).
Proof.
  split; [reflexivity|]. split; [discriminate|]. split; [reflexivity|].
  split.
  { intros c cRec [[= <- <-]|[]]. reflexivity. }
  repeat split; vm_compute; reflexivity.
Qed.

(** C7, amended. For every catalog whose country keys are non-empty and
    upper case, whose type keys are non-empty, and whose pool slots are all
    entries carrying an endpoint: [pickProxy] throws if and only if the
    catalog has no country, or the country the caller names has, once
    upper-cased, no record, or the resolved country record has no non-empty
    pool; a call that throws returns no pick, throws one of the two
    not-found errors and leaves the director as it was. *)
Theorem pickProxy_failure d sel rnd :
  keys_ok (catalog d) = true ->
  slots_ok (catalog d) = true ->
  state_ok d ->
  unit_draw (rand_index rnd) ->
  let country := resolveCountry d sel (rand_country rnd) in
  ((exists e, (pickProxy d sel rnd).2 = inl e) <->
   (catalog d = []
    \/ (exists c0, truthy (sel_country sel) = Some c0
                   /\ obj_get (catalog d) (toUpperCase c0) = None)
    \/ (exists cRec, obj_get (catalog d) country = Some cRec
                     /\ has_populated_type cRec = false)))
  /\ (forall e, (pickProxy d sel rnd).2 = inl e ->
        (pickProxy d sel rnd).1 = d
        /\ (e = NoCountriesAvailable \/ e = NoProxyTypes country)).
Proof.
  intros Hkeys Hslots Hok Hu country.
  (* a resolved pool always yields a pick *)
  assert (Hgood : forall c t pool,
             resolvePool d sel (rand_country rnd) = inr (c, t, pool) ->
             exists m, (pickProxy d sel rnd).2 = inr m).
  { intros c t pool Hres. rewrite (pickProxy_resolved _ _ _ _ _ _ Hres). cbn [snd].
    pose proof (resolvePool_inr _ _ _ _ _ _ Hres) as (_ & _ & cRec & Hrec & _ & Hpool & Hlen).
    destruct (finishPick_ok pool
                (chooseIndex d c t (length pool) (resolveStrategy d sel) (sessionKey sel)
                   (rand_index rnd)).1 c t (resolveStrategy d sel) (sessionKey sel))
      as (m & Hm & _).
    - apply chooseIndex_range; assumption.
    - eapply slots_ok_pool; eassumption.
    - eauto. }
  (* the empty string is no country key *)
  assert (Hnoempty : obj_get (catalog d) "" = None).
  { destruct (obj_get (catalog d) "") as [v|] eqn:E; [|reflexivity].
    apply obj_get_key_In in E. apply (keys_ok_country _ _ Hkeys) in E. destruct E; congruence. }
  (* what resolvePool throws, and when *)
  assert (Hthrow : forall e,
             resolvePool d sel (rand_country rnd) = inl e ->
             (e = NoCountriesAvailable /\ obj_get (catalog d) country = None)
             \/ (e = NoProxyTypes country
                 /\ exists cRec, obj_get (catalog d) country = Some cRec
                                 /\ has_populated_type cRec = false)).
  { intros e. unfold resolvePool, _pools. fold country.
    destruct (String.eqb_spec country "") as [Hc|Hc].
    { intros [= <-]. left. rewrite Hc. auto. }
    destruct (obj_get (catalog d) country) as [cRec|] eqn:Hrec; [|intros [= <-]; auto].
    assert (Htk : forall t, In t (Object_keys cRec) -> t <> "")
      by (intros t; eapply keys_ok_type; eassumption).
    destruct (resolvePoolType cRec (desiredType d sel)) as [t|] eqn:Hpt.
    - apply resolvePoolType_Some in Hpt as Hpt'. destruct Hpt' as (Hpop & _).
      destruct (populated_pool _ _ Hpop) as (e0 & pool' & ->). discriminate.
    - intros [= <-]. right. split; [reflexivity|]. exists cRec. split; [reflexivity|].
      apply (proj1 (resolvePoolType_None cRec (desiredType d sel) Htk)). exact Hpt. }
  assert (Hcase : (exists e, resolvePool d sel (rand_country rnd) = inl e)
                  \/ (exists c t pool, resolvePool d sel (rand_country rnd) = inr (c, t, pool))).
  { destruct (resolvePool d sel (rand_country rnd)) as [e|[[c t] pool]]; eauto 6. }
  split.
  - split.
    + intros [e He].
      destruct Hcase as [[e' Hres]|(c & t & pool & Hres)].
      * destruct (Hthrow e' Hres) as [[_ Hnone]|[_ Hrec]]; [|auto].
        destruct (truthy (sel_country sel)) as [c0|] eqn:Hsel.
        -- right; left. exists c0. split; [reflexivity|].
           unfold country in Hnone. rewrite (resolveCountry_supplied _ _ _ _ Hsel) in Hnone.
           exact Hnone.
        -- left. destruct (resolveCountry_picked d sel (rand_country rnd) Hsel)
             as [[_ [Hempty|Hin]]|(k & Hin & Hne & Hk)].
           ++ exact Hempty.
           ++ apply (keys_ok_country _ _ Hkeys) in Hin. destruct Hin; congruence.
           ++ exfalso. destruct (keys_ok_country _ _ Hkeys Hin) as [_ Hup].
              unfold country in Hnone. rewrite Hk, Hup in Hnone.
              apply obj_get_None_keys in Hnone. contradiction.
      * destruct (Hgood c t pool Hres) as [m Hm]. congruence.
    + intros Hwhy.
      destruct Hcase as [[e Hres]|(c & t & pool & Hres)].
      { exists e. rewrite (pickProxy_unresolved _ _ _ _ Hres). reflexivity. }
      exfalso.
      pose proof (resolvePool_inr _ _ _ _ _ _ Hres) as (Hc & Hne & cRec & Hrec & Hpt & _).
      fold country in Hc. subst c.
      destruct Hwhy as [Hempty|[(c0 & Hsel & Hnone)|(cRec' & Hrec' & Hnopop)]].
      * rewrite Hempty in Hrec. discriminate.
      * unfold country in Hrec. rewrite (resolveCountry_supplied _ _ _ _ Hsel) in Hrec.
        congruence.
      * rewrite Hrec in Hrec'. injection Hrec' as <-.
        apply resolvePoolType_Some in Hpt. destruct Hpt as (Hpop & _).
        rewrite has_populated_type_false in Hnopop. rewrite Hnopop in Hpop. discriminate.
  - intros e He.
    destruct Hcase as [[e' Hres]|(c & t & pool & Hres)].
    + rewrite (pickProxy_unresolved _ _ _ _ Hres) in He |- *. cbn [fst snd] in *.
      injection He as <-. split; [reflexivity|].
      destruct (Hthrow e' Hres) as [[-> _]|[-> _]]; auto.
    + destruct (Hgood c t pool Hres) as [m Hm]. congruence.
Qed.

Lemma pickProxy_failure_witness :
  (exists e, (pickProxy dc_director no_options zero_draws).2 = inl e) <->
  (catalog dc_director = []
   \/ (exists c0, truthy (sel_country no_options) = Some c0
                  /\ obj_get (catalog dc_director) (toUpperCase c0) = None)
   \/ (exists cRec, obj_get (catalog dc_director) (resolveCountry dc_director no_options 0)
                    = Some cRec
                    /\ has_populated_type cRec = false)).
Proof.
  refine (proj1 (pickProxy_failure dc_director no_options zero_draws _ _ _ _)).
  - reflexivity.
  - reflexivity.
  - apply new_ProxyDirector_state_ok.
  - split; reflexivity || discriminate.
Defined.

(** * Further properties of proxy-pool.mjs and of its caller *)

(** ** Property assignment *)

Lemma obj_get_update {V} (o : obj V) (k k' : string) (v : V) :
  obj_get (obj_update o k v) k'
  = if String.eqb k k' then (match obj_get o k with Some _ => Some v | None => None end)
    else obj_get o k'.
Proof.
  induction o as [|[k0 v0] o IH]; simpl.
  - destruct (String.eqb k k'); reflexivity.
  - destruct (String.eqb_spec k0 k) as [->|Hne]; simpl.
    + destruct (String.eqb_spec k k'); reflexivity.
    + rewrite IH. destruct (String.eqb_spec k0 k') as [->|Hne'].
      * destruct (String.eqb_spec k k'); [congruence | reflexivity].
      * reflexivity.
Qed.

Lemma obj_get_insert_index {V} (n : N) (o : obj V) (k k' : string) (v : V) :
  obj_get o k = None ->
  obj_get (obj_insert_index n k v o) k' = if String.eqb k k' then Some v else obj_get o k'.
Proof.
  induction o as [|[k0 v0] o IH]; intros Hnone; simpl.
  - reflexivity.
  - simpl in Hnone. destruct (String.eqb_spec k0 k) as [->|Hne]; [discriminate|].
    destruct (array_index k0) as [n0|]; [destruct (n0 <? n)%N|]; simpl;
      try reflexivity.
    rewrite (IH Hnone).
    destruct (String.eqb_spec k0 k') as [->|Hne'].
    + destruct (String.eqb_spec k k'); [congruence | reflexivity].
    + reflexivity.
Qed.

Lemma obj_get_app_new {V} (o : obj V) (k k' : string) (v : V) :
  obj_get o k = None ->
  obj_get (o ++ [(k, v)]) k' = if String.eqb k k' then Some v else obj_get o k'.
Proof.
  induction o as [|[k0 v0] o IH]; intros Hnone; simpl.
  - reflexivity.
  - simpl in Hnone. destruct (String.eqb_spec k0 k) as [->|Hne]; [discriminate|].
    rewrite (IH Hnone).
    destruct (String.eqb_spec k0 k') as [->|Hne'].
    + destruct (String.eqb_spec k k'); [congruence | reflexivity].
    + reflexivity.
Qed.

(** Writing a property and reading any property back. *)
Lemma obj_get_set {V} (o : obj V) (k k' : string) (v : V) :
  obj_get (obj_set o k v) k' = if String.eqb k k' then Some v else obj_get o k'.
Proof.
  unfold obj_set. destruct (obj_get o k) as [v0|] eqn:E.
  - rewrite obj_get_update, E. reflexivity.
  - destruct (array_index k); [apply obj_get_insert_index | apply obj_get_app_new]; exact E.
Qed.

Lemma forallb_obj_update {V} (P : string * V -> bool) (o : obj V) (k : string) (v : V) :
  forallb P o = true -> P (k, v) = true -> forallb P (obj_update o k v) = true.
Proof.
  intros Ho Hk. induction o as [|[k0 v0] o IH]; simpl in *; [reflexivity|].
  apply andb_true_iff in Ho as [H0 Ho].
  destruct (String.eqb k0 k); simpl.
  - rewrite Hk, Ho. reflexivity.
  - rewrite H0, (IH Ho). reflexivity.
Qed.

Lemma forallb_obj_insert_index {V} (P : string * V -> bool) (n : N) (o : obj V)
    (k : string) (v : V) :
  forallb P o = true -> P (k, v) = true -> forallb P (obj_insert_index n k v o) = true.
Proof.
  intros Ho Hk. induction o as [|[k0 v0] o IH]; simpl in *.
  - rewrite Hk. reflexivity.
  - apply andb_true_iff in Ho as [H0 Ho].
    destruct (array_index k0) as [n0|]; [destruct (n0 <? n)%N|]; simpl;
      rewrite ?Hk, ?H0, ?Ho, ?(IH Ho); reflexivity.
Qed.

Lemma forallb_obj_set {V} (P : string * V -> bool) (o : obj V) (k : string) (v : V) :
  forallb P o = true -> P (k, v) = true -> forallb P (obj_set o k v) = true.
Proof.
  intros Ho Hk. unfold obj_set. destruct (obj_get o k).
  - apply forallb_obj_update; assumption.
  - destruct (array_index k).
    + apply forallb_obj_insert_index; assumption.
    + rewrite forallb_app, Ho. simpl. rewrite Hk. reflexivity.
Qed.

Lemma forallb_obj_get {V} (P : string * V -> bool) (o : obj V) (k : string) (v : V) :
  forallb P o = true -> obj_get o k = Some v -> P (k, v) = true.
Proof.
  intros Ho Hk. rewrite forallb_forall in Ho. apply Ho. apply obj_get_In. exact Hk.
Qed.

Lemma upper_ascii_idem (c : ascii) : upper_ascii (upper_ascii c) = upper_ascii c.
Proof.
  destruct c as [[] [] [] [] [] [] [] []]; reflexivity.
Qed.

Lemma toUpperCase_idem (s : string) : toUpperCase (toUpperCase s) = toUpperCase s.
Proof.
  induction s as [|c s IH]; simpl; [reflexivity|].
  rewrite upper_ascii_idem, IH. reflexivity.
Qed.

Lemma toUpperCase_nonempty (s : string) : s <> "" -> toUpperCase s <> "".
Proof. destruct s; [congruence | discriminate]. Qed.

(** ** sanitizeEntry *)

Lemma sanitizeEntry_inr (entry : option ProviderEntry) (clean : ProviderEntry) :
  sanitizeEntry entry = inr clean ->
  exists e ep prov p,
    entry = Some e /\ truthy (provider e) = Some prov /\ endpoint e = Some ep
    /\ valid_protocol (protocol ep) /\ host ep <> "" /\ port ep = NFin p /\ (0 < p)%Q
    /\ clean = {| provider := Some (trim prov); notes := None;
                  endpoint := Some {| protocol := protocol ep; host := host ep;
                                      port := port ep; username := username ep;
                                      password := password ep;
                                      auth := or_else (auth ep)
                                                (match string_and (username ep) (password ep) with
                                                 | Some _ =>
                                                     match username ep, password ep with
                                                     | Some u, Some pw => Some (u +:+ ":" +:+ pw)
                                                     | _, _ => None
                                                     end
                                                 | None => None
                                                 end);
                                      other_fields := [] |} |}.
Proof.
  unfold sanitizeEntry. destruct entry as [e|]; [|discriminate].
  destruct (truthy (provider e)) as [prov|] eqn:Hprov; [|discriminate].
  destruct (endpoint e) as [ep|] eqn:Hep; [|discriminate].
  destruct (String.eqb_spec (protocol ep) "http") as [Hp1|Hp1];
    destruct (String.eqb_spec (protocol ep) "https") as [Hp2|Hp2];
    destruct (String.eqb_spec (protocol ep) "socks5") as [Hp3|Hp3]; cbn [orb negb];
    try discriminate;
    (destruct (String.eqb_spec (host ep) "") as [Hh|Hh]; [discriminate|]);
    (destruct (port ep) as [p| | |] eqn:Hport; try discriminate);
    (destruct (Qle_bool p 0) eqn:Hle; [discriminate|]);
    intros [= <-]; exists e, ep, prov, p;
    (assert (0 < p)%Q
      by (apply Qnot_le_lt; intros Hc; apply Qle_bool_iff in Hc; congruence));
    unfold valid_protocol; repeat split; rewrite ?Hport; auto.
Qed.

Lemma sanitizeEntry_slot_ok (entry : option ProviderEntry) (clean : ProviderEntry) :
  sanitizeEntry entry = inr clean -> slot_ok (Some clean) = true.
Proof.
  intros H. apply sanitizeEntry_inr in H.
  destruct H as (e & ep & prov & p & _ & _ & _ & _ & _ & _ & _ & ->). reflexivity.
Qed.

(** X22. [sanitizeEntry] accepts exactly the entries with a non-empty provider
    and an endpoint whose protocol is http, https or socks5, whose host is
    non-empty and whose port is a finite positive number.  What it returns
    keeps protocol, host, port, username and password, takes [auth] as given
    or else builds it as [username:password] when both are non-empty, and
    carries neither [notes] nor any further endpoint field. *)
Theorem sanitizeEntry_accepts_exactly (entry : option ProviderEntry) :
  ((exists clean, sanitizeEntry entry = inr clean) <->
   (exists e ep prov p,
      entry = Some e /\ truthy (provider e) = Some prov /\ endpoint e = Some ep
      /\ valid_protocol (protocol ep) /\ host ep <> "" /\ port ep = NFin p /\ (0 < p)%Q))
  /\ (forall clean, sanitizeEntry entry = inr clean ->
        notes clean = None
        /\ exists e ep ep',
             entry = Some e /\ endpoint e = Some ep /\ endpoint clean = Some ep'
             /\ protocol ep' = protocol ep /\ host ep' = host ep /\ port ep' = port ep
             /\ username ep' = username ep /\ password ep' = password ep
             /\ other_fields ep' = []
             /\ (forall a, auth ep = Some a -> auth ep' = Some a)
             /\ (auth ep = None ->
                 forall u pw, username ep = Some u -> password ep = Some pw ->
                              auth ep' = if String.eqb u "" || String.eqb pw "" then None
                                         else Some (u +:+ ":" +:+ pw))
             /\ (auth ep = None -> username ep = None \/ password ep = None ->
                 auth ep' = None)).
Proof.
  split.
  - split.
    + intros [clean H]. apply sanitizeEntry_inr in H.
      destruct H as (e & ep & prov & p & H1 & H2 & H3 & H4 & H5 & H6 & H7 & _).
      exists e, ep, prov, p. auto 10.
    + intros (e & ep & prov & p & -> & Hprov & Hep & Hproto & Hhost & Hport & Hp).
      unfold sanitizeEntry. rewrite Hprov, Hep.
      assert (Hv : negb (String.eqb (protocol ep) "http" || String.eqb (protocol ep) "https"
                         || String.eqb (protocol ep) "socks5") = false).
      { destruct Hproto as [->|[->| ->]]; reflexivity. }
      rewrite Hv. destruct (String.eqb_spec (host ep) ""); [contradiction|].
      rewrite Hport.
      destruct (Qle_bool p 0) eqn:Hle; [apply Qle_bool_iff in Hle; lra|].
      eauto.
  - intros clean H. apply sanitizeEntry_inr in H.
    destruct H as (e & ep & prov & p & -> & _ & Hep & _ & _ & _ & _ & ->).
    split; [reflexivity|]. eexists e, ep, _. split; [reflexivity|]. split; [exact Hep|].
    split; [reflexivity|]. cbn.
    repeat split.
    + intros a Ha. rewrite Ha. reflexivity.
    + intros Hnone u pw Hu Hpw. rewrite Hnone, Hu, Hpw. cbn.
      destruct u, pw; reflexivity.
    + intros Hnone [Hu|Hpw]; rewrite Hnone; [rewrite Hu|rewrite Hpw]; cbn.
      * reflexivity.
      * unfold string_and. destruct (truthy (username ep)); reflexivity.
Qed.

Lemma sanitizeEntry_accepts_exactly_witness :
  exists clean, sanitizeEntry valid_raw = inr clean.
Proof.
  apply (proj2 (proj1 (sanitizeEntry_accepts_exactly valid_raw))).
  exists (raw_entry "A" "a.io"), (plain_endpoint "a.io"), "A", 80%Q.
  repeat split; try reflexivity.
  - left. reflexivity.
  - discriminate.
Defined.


(** ** ProxyCatalogBuilder *)

Lemma known_type_nonempty (type : string) : Builder.known_type type = true -> type <> "".
Proof. intros H ->. discriminate H. Qed.

Lemma builder_ok_new : builder_ok Builder.new.
Proof.
  split; [reflexivity|]. split; [reflexivity|]. split; [reflexivity|]. intros cc [=].
Qed.

Lemma builder_ok_country (b : ProxyCatalogBuilder) (code : string) :
  builder_ok b -> builder_ok (Builder.country b code).1.
Proof.
  intros (Hk & Hs & Ha & Hc). unfold Builder.country.
  destruct (String.eqb_spec code "") as [|Hne]; [exact (conj Hk (conj Hs (conj Ha Hc)))|].
  cbn [fst]. pose proof (toUpperCase_nonempty code Hne) as Hup.
  destruct (obj_get (_cat b) (toUpperCase code)) as [cRec|] eqn:E.
  - split; [exact Hk|]. split; [exact Hs|]. split; [exact Ha|].
    cbn [_cat _currentCountry]. intros cc [= <-]. split; [exact Hup | eauto].
  - unfold builder_ok. cbn [_cat _currentCountry].
    split; [|split; [|split]].
    + apply forallb_obj_set; [exact Hk|]. cbn [fst snd forallb].
      rewrite toUpperCase_idem, String.eqb_refl.
      destruct (String.eqb_spec (toUpperCase code) ""); [contradiction | reflexivity].
    + apply forallb_obj_set; [exact Hs | reflexivity].
    + apply forallb_obj_set; [exact Ha | reflexivity].
    + intros cc [= <-]. split; [exact Hup|].
      rewrite obj_get_set, String.eqb_refl. eauto.
Qed.

(** What a successful [add] does to the catalog. *)
Lemma builder_add_inv (b b' : ProxyCatalogBuilder) (type : string)
    (entry : option ProviderEntry) :
  Builder.add b type entry = (b', None) ->
  exists cc clean cRec,
    _currentCountry b = Some cc /\ cc <> ""
    /\ Builder.known_type type = true
    /\ sanitizeEntry entry = inr clean
    /\ obj_get (_cat b) cc = Some cRec
    /\ (obj_get cRec type = None \/ exists bucket, obj_get cRec type = Some (PArr bucket))
    /\ b' = {| _cat := obj_set (_cat b) cc
                         (obj_set cRec type (PArr (bucket_of (_cat b) cc type ++ [Some clean])));
               _currentCountry := _currentCountry b |}.
Proof.
  unfold Builder.add.
  destruct (truthy (_currentCountry b)) as [cc|] eqn:Hcc; [|discriminate].
  apply truthy_Some in Hcc. destruct Hcc as [Hcc Hne].
  destruct (Builder.known_type type) eqn:Hkt; cbn [negb]; [|discriminate].
  destruct (sanitizeEntry entry) as [err|clean] eqn:Hsan; [discriminate|].
  destruct (obj_get (_cat b) cc) as [cRec|] eqn:Hrec; [|discriminate].
  destruct (obj_get cRec type) as [[bucket|]|] eqn:Hb; try discriminate;
    intros [= <-]; exists cc, clean, cRec; unfold bucket_of; rewrite Hrec, Hb;
    repeat split; eauto.
Qed.

Lemma builder_add_failed (b b' : ProxyCatalogBuilder) (type : string)
    (entry : option ProviderEntry) (err : BuilderError) :
  Builder.add b type entry = (b', Some err) -> b' = b.
Proof.
  unfold Builder.add.
  repeat match goal with
         | |- context [match ?x with _ => _ end] => destruct x
         end; intros [= <-]; reflexivity.
Qed.

Lemma builder_ok_add (b : ProxyCatalogBuilder) (type : string) (entry : option ProviderEntry) :
  builder_ok b -> builder_ok (Builder.add b type entry).1.
Proof.
  intros Hok. destruct (Builder.add b type entry) as [b' [err|]] eqn:Hadd.
  - apply builder_add_failed in Hadd. subst. exact Hok.
  - cbn [fst]. destruct Hok as (Hk & Hs & Ha & Hc).
    apply builder_add_inv in Hadd.
    destruct Hadd as (cc & clean & cRec & Hcur & Hne & Hkt & Hsan & Hrec & Hbucket & ->).
    pose proof (forallb_obj_get _ _ _ _ Hk Hrec) as Hk1.
    pose proof (forallb_obj_get _ _ _ _ Hs Hrec) as Hs1.
    pose proof (forallb_obj_get _ _ _ _ Ha Hrec) as Ha1.
    cbn [fst snd] in Hk1, Hs1, Ha1.
    assert (Hold : forallb slot_ok (bucket_of (_cat b) cc type) = true).
    { unfold bucket_of. rewrite Hrec.
      destruct (obj_get cRec type) as [[bucket|]|] eqn:Hb; try reflexivity.
      apply (forallb_obj_get _ _ _ _ Hs1 Hb). }
    unfold builder_ok. cbn [_cat _currentCountry].
    split; [|split; [|split]].
    + apply forallb_obj_set; [exact Hk|]. cbn [fst snd].
      apply andb_true_iff in Hk1 as [Hk1 Hk2]. rewrite Hk1. cbn [andb].
      apply forallb_obj_set; [exact Hk2|]. cbn [fst].
      destruct (String.eqb_spec type ""); [|reflexivity].
      exfalso. eapply known_type_nonempty; eassumption.
    + apply forallb_obj_set; [exact Hs|]. cbn [snd].
      apply forallb_obj_set; [exact Hs1|]. cbn [snd pool_value_ok].
      rewrite forallb_app, Hold. cbn [forallb andb].
      rewrite (sanitizeEntry_slot_ok _ _ Hsan). reflexivity.
    + apply forallb_obj_set; [exact Ha|]. cbn [snd].
      apply forallb_obj_set; [exact Ha1 | reflexivity].
    + intros cc' Hcc'. rewrite Hcur in Hcc'. injection Hcc' as <-. split; [exact Hne|].
      rewrite obj_get_set, String.eqb_refl. eauto.
Qed.

Lemma builder_ok_addMany (type : string) (entries : list (option ProviderEntry)) :
  forall b, builder_ok b -> builder_ok (Builder.addMany b type entries).1.
Proof.
  induction entries as [|e rest IH]; intros b Hok; [exact Hok|].
  cbn [Builder.addMany].
  pose proof (builder_ok_add b type e Hok) as Hok'.
  destruct (Builder.add b type e) as [b' [err|]]; cbn [fst] in *; [exact Hok'|].
  apply IH. exact Hok'.
Qed.

Lemma builder_ok_step (b : ProxyCatalogBuilder) (op : BuilderOp) :
  builder_ok b -> builder_ok (Builder.step b op).1.
Proof.
  intros Hok. destruct op as [code|type entry|type entries|]; cbn [Builder.step].
  - apply builder_ok_country; exact Hok.
  - apply builder_ok_add; exact Hok.
  - apply builder_ok_addMany; exact Hok.
  - destruct Hok as (Hk & Hs & Ha & _).
    split; [exact Hk|]. split; [exact Hs|]. split; [exact Ha|]. intros cc [=].
Qed.

Lemma builder_ok_run (ops : list BuilderOp) :
  forall b, builder_ok b -> builder_ok (Builder.run b ops).
Proof.
  induction ops as [|op ops IH]; intros b Hok; [exact Hok|].
  cbn [Builder.run]. apply IH, builder_ok_step, Hok.
Qed.

Lemma builder_add_no_crash (b : ProxyCatalogBuilder) (type : string)
    (entry : option ProviderEntry) :
  builder_ok b ->
  (Builder.add b type entry).2 <> Some NoCountryRecord
  /\ (Builder.add b type entry).2 <> Some BucketNotArray.
Proof.
  intros (_ & _ & Ha & Hc). unfold Builder.add.
  destruct (truthy (_currentCountry b)) as [cc|] eqn:Hcc; [|split; discriminate].
  apply truthy_Some in Hcc. destruct Hcc as [Hcc _].
  destruct (negb (Builder.known_type type)); [split; discriminate|].
  destruct (sanitizeEntry entry); [split; discriminate|].
  destruct (Hc cc Hcc) as [_ [cRec Hrec]]. rewrite Hrec.
  pose proof (forallb_obj_get _ _ _ _ Ha Hrec) as Ha1. cbn [snd] in Ha1.
  destruct (obj_get cRec type) as [[bucket|]|] eqn:Hb; try (split; discriminate).
  pose proof (forallb_obj_get _ _ _ _ Ha1 Hb) as Hbad. discriminate Hbad.
Qed.

Lemma builder_step_no_crash (op : BuilderOp) :
  forall b, builder_ok b ->
            (Builder.step b op).2 <> Some NoCountryRecord
            /\ (Builder.step b op).2 <> Some BucketNotArray.
Proof.
  destruct op as [code|type entry|type entries|]; intros b Hok; cbn [Builder.step].
  - unfold Builder.country. destruct (String.eqb code ""); split; discriminate.
  - apply builder_add_no_crash; exact Hok.
  - revert b Hok. induction entries as [|e rest IH]; intros b Hok; [split; discriminate|].
    cbn [Builder.addMany].
    pose proof (builder_add_no_crash b type e Hok) as Hnc.
    pose proof (builder_ok_add b type e Hok) as Hok'.
    destruct (Builder.add b type e) as [b' [err|]]; cbn [fst snd] in *; [exact Hnc|].
    apply IH. exact Hok'.
  - split; discriminate.
Qed.

(** The buckets after a successful [add]. *)
Lemma builder_add_buckets (b b' : ProxyCatalogBuilder) (type : string)
    (entry : option ProviderEntry) :
  Builder.add b type entry = (b', None) ->
  exists cc clean,
    _currentCountry b = Some cc /\ _currentCountry b' = Some cc
    /\ Builder.known_type type = true
    /\ sanitizeEntry entry = inr clean
    /\ bucket_of (_cat b') cc type = bucket_of (_cat b) cc type ++ [Some clean]
    /\ (forall c t, c <> cc \/ t <> type -> bucket_of (_cat b') c t = bucket_of (_cat b) c t)
    /\ (forall c t, catalog_populated (_cat b) c t = true ->
                    catalog_populated (_cat b') c t = true)
    /\ catalog_populated (_cat b') cc type = true.
Proof.
  intros Hadd. apply builder_add_inv in Hadd.
  destruct Hadd as (cc & clean & cRec & Hcur & Hne & Hkt & Hsan & Hrec & Hbucket & ->).
  exists cc, clean. cbn [_cat _currentCountry].
  split; [exact Hcur|]. split; [exact Hcur|]. split; [exact Hkt|]. split; [exact Hsan|].
  assert (Hnew : forall c t,
             bucket_of (obj_set (_cat b) cc
                          (obj_set cRec type (PArr (bucket_of (_cat b) cc type ++ [Some clean]))))
               c t
             = if String.eqb cc c && String.eqb type t
               then bucket_of (_cat b) cc type ++ [Some clean]
               else bucket_of (_cat b) c t).
  { intros c t. unfold bucket_of at 1. rewrite obj_get_set.
    destruct (String.eqb_spec cc c) as [<-|Hc]; cbn [andb]; [|reflexivity].
    rewrite obj_get_set. destruct (String.eqb_spec type t) as [<-|Ht]; [reflexivity|].
    unfold bucket_of. rewrite Hrec. reflexivity. }
  split; [rewrite Hnew, !String.eqb_refl; reflexivity|].
  split.
  { intros c t Hor. rewrite Hnew.
    destruct (String.eqb_spec cc c) as [<-|]; [|reflexivity].
    destruct (String.eqb_spec type t) as [<-|]; [|reflexivity].
    destruct Hor; congruence. }
  assert (Hpop : forall c t,
             catalog_populated (obj_set (_cat b) cc
                                  (obj_set cRec type
                                     (PArr (bucket_of (_cat b) cc type ++ [Some clean])))) c t
             = if String.eqb cc c && String.eqb type t then true
               else catalog_populated (_cat b) c t).
  { intros c t. unfold catalog_populated at 1. rewrite obj_get_set.
    destruct (String.eqb_spec cc c) as [<-|Hc]; cbn [andb]; [|reflexivity].
    unfold populated. rewrite obj_get_set.
    destruct (String.eqb_spec type t) as [<-|Ht].
    - destruct (bucket_of (_cat b) cc type); reflexivity.
    - unfold catalog_populated, populated. rewrite Hrec. reflexivity. }
  split.
  - intros c t H. rewrite Hpop. destruct (_ && _); [reflexivity | exact H].
  - rewrite Hpop, !String.eqb_refl. reflexivity.
Qed.

Lemma builder_country_populated (b : ProxyCatalogBuilder) (code c t : string) :
  catalog_populated (_cat b) c t = true ->
  catalog_populated (_cat (Builder.country b code).1) c t = true.
Proof.
  intros H. unfold Builder.country. destruct (String.eqb code ""); [exact H|]. cbn [fst _cat].
  destruct (obj_get (_cat b) (toUpperCase code)) eqn:E; [exact H|].
  unfold catalog_populated in *. rewrite obj_get_set.
  destruct (String.eqb_spec (toUpperCase code) c) as [<-|]; [|exact H].
  rewrite E in H. discriminate H.
Qed.

Lemma builder_add_populated (b : ProxyCatalogBuilder) (type : string)
    (entry : option ProviderEntry) (c t : string) :
  catalog_populated (_cat b) c t = true ->
  catalog_populated (_cat (Builder.add b type entry).1) c t = true.
Proof.
  intros H. destruct (Builder.add b type entry) as [b' [err|]] eqn:Hadd; cbn [fst].
  - apply builder_add_failed in Hadd. subst. exact H.
  - apply builder_add_buckets in Hadd.
    destruct Hadd as (cc & clean & _ & _ & _ & _ & _ & _ & Hmono & _). apply Hmono. exact H.
Qed.

Lemma builder_step_populated (op : BuilderOp) (c t : string) :
  forall b, catalog_populated (_cat b) c t = true ->
            catalog_populated (_cat (Builder.step b op).1) c t = true.
Proof.
  destruct op as [code|type entry|type entries|]; intros b H; cbn [Builder.step].
  - apply builder_country_populated; exact H.
  - apply builder_add_populated; exact H.
  - revert b H. induction entries as [|e rest IH]; intros b H; [exact H|].
    cbn [Builder.addMany].
    pose proof (builder_add_populated b type e c t H) as H'.
    destruct (Builder.add b type e) as [b' [err|]]; cbn [fst] in *; [exact H'|].
    apply IH. exact H'.
  - exact H.
Qed.

Lemma builder_run_populated (ops : list BuilderOp) (c t : string) :
  forall b, catalog_populated (_cat b) c t = true ->
            catalog_populated (_cat (Builder.run b ops)) c t = true.
Proof.
  induction ops as [|op ops IH]; intros b H; [exact H|].
  cbn [Builder.run]. apply IH, builder_step_populated, H.
Qed.

Lemma builder_run_app (ops1 ops2 : list BuilderOp) :
  forall b, Builder.run b (ops1 ++ ops2) = Builder.run (Builder.run b ops1) ops2.
Proof.
  induction ops1 as [|op ops1 IH]; intros b; [reflexivity|].
  cbn [Builder.run app]. apply IH.
Qed.

(** X1. Whatever calls are made on a new builder, in whatever order and
    whichever of them throw, the catalog it builds has non-empty upper-case
    country keys, non-empty type keys, an array under every type key and an
    entry with an endpoint in every slot; and no call on such a builder
    fails by reading a missing country record or pushing onto a
    non-array. *)
Theorem builder_catalog_well_formed (ops : list BuilderOp) :
  let b := Builder.run Builder.new ops in
  keys_ok (Builder.build b) = true
  /\ slots_ok (Builder.build b) = true
  /\ pools_are_arrays (Builder.build b) = true
  /\ forall op, (Builder.step b op).2 <> Some NoCountryRecord
                /\ (Builder.step b op).2 <> Some BucketNotArray.
Proof.
  intros b.
  assert (Hok : builder_ok b) by (apply builder_ok_run, builder_ok_new).
  pose proof Hok as (Hk & Hs & Ha & _).
  repeat split; try assumption; apply builder_step_no_crash; exact Hok.
Qed.

(** X2. A successful [add(type, entry)] appends the sanitized entry at the
    end of the bucket of the focused country and [type], leaves every other
    bucket and the focus as they were; an [add] that throws leaves the
    builder unchanged; and [add] throws whenever no country is focused, in
    particular right after [done()]. *)
Theorem builder_add_effect (b : ProxyCatalogBuilder) (type : string)
    (entry : option ProviderEntry) :
  (forall b', Builder.add b type entry = (b', None) ->
     exists cc clean,
       _currentCountry b = Some cc /\ _currentCountry b' = Some cc
       /\ sanitizeEntry entry = inr clean
       /\ bucket_of (_cat b') cc type = bucket_of (_cat b) cc type ++ [Some clean]
       /\ forall c t, c <> cc \/ t <> type ->
                      bucket_of (_cat b') c t = bucket_of (_cat b) c t)
  /\ (forall b' err, Builder.add b type entry = (b', Some err) -> b' = b)
  /\ (_currentCountry b = None -> Builder.add b type entry = (b, Some AddBeforeCountry))
  /\ Builder.add (Builder.done b) type entry = (Builder.done b, Some AddBeforeCountry).
Proof.
  split; [|split; [|split]].
  - intros b' Hadd. apply builder_add_buckets in Hadd.
    destruct Hadd as (cc & clean & H1 & H2 & _ & H3 & H4 & H5 & _).
    exists cc, clean. auto.
  - intros b' err Hadd. eapply builder_add_failed; exact Hadd.
  - intros Hnone. unfold Builder.add. rewrite Hnone. reflexivity.
  - reflexivity.
Qed.

Lemma builder_add_effect_witness :
  exists cc clean,
    _currentCountry us_builder = Some cc
    /\ _currentCountry (Builder.add us_builder "dc_static" valid_raw).1 = Some cc
    /\ sanitizeEntry valid_raw = inr clean
    /\ bucket_of (_cat (Builder.add us_builder "dc_static" valid_raw).1) cc "dc_static"
       = bucket_of (_cat us_builder) cc "dc_static" ++ [Some clean]
    /\ forall c t, c <> cc \/ t <> "dc_static" ->
                   bucket_of (_cat (Builder.add us_builder "dc_static" valid_raw).1) c t
                   = bucket_of (_cat us_builder) c t.
Proof.
  apply (proj1 (builder_add_effect us_builder "dc_static" valid_raw)).
  vm_compute. reflexivity.
Defined.

Lemma builder_add_succeeds (b : ProxyCatalogBuilder) (type : string)
    (entry : option ProviderEntry) (cc : string) (clean : ProviderEntry) :
  builder_ok b -> _currentCountry b = Some cc -> Builder.known_type type = true ->
  sanitizeEntry entry = inr clean ->
  (Builder.add b type entry).2 = None.
Proof.
  intros Hok Hcur Hkt Hsan.
  pose proof (builder_add_no_crash b type entry Hok) as [Hn1 Hn2].
  destruct Hok as (_ & _ & _ & Hc). destruct (Hc cc Hcur) as [Hne _].
  revert Hn1 Hn2. unfold Builder.add. rewrite Hcur. cbn [truthy].
  destruct cc as [|a cc']; [congruence|]. rewrite Hkt, Hsan. cbn [negb].
  destruct (obj_get (_cat b) (String a cc')) as [cRec|]; [|intros H; contradiction H; reflexivity].
  destruct (obj_get cRec type) as [[bucket|]|]; cbn [snd]; try reflexivity.
  intros _ H; contradiction H; reflexivity.
Qed.

Lemma sanitized_cons_valid (e : option ProviderEntry) (clean : ProviderEntry)
    (l : list (option ProviderEntry)) :
  sanitizeEntry e = inr clean -> sanitized (e :: l) = Some clean :: sanitized l.
Proof. intros H. unfold sanitized. cbn [flat_map]. rewrite H. reflexivity. Qed.

Lemma builder_addMany_valid (type : string) (cc : string)
    (good : list (option ProviderEntry)) :
  Builder.known_type type = true ->
  Forall (fun e => exists clean, sanitizeEntry e = inr clean) good ->
  forall b,
    builder_ok b -> _currentCountry b = Some cc ->
    (Builder.addMany b type good).2 = None
    /\ _currentCountry (Builder.addMany b type good).1 = Some cc
    /\ bucket_of (_cat (Builder.addMany b type good).1) cc type
       = bucket_of (_cat b) cc type ++ sanitized good.
Proof.
  intros Hkt Hgood. induction Hgood as [|e good [clean Hsan] _ IH]; intros b Hok Hcur.
  - cbn. rewrite app_nil_r. auto.
  - cbn [Builder.addMany].
    pose proof (builder_add_succeeds b type e cc clean Hok Hcur Hkt Hsan) as Hnone.
    pose proof (builder_ok_add b type e Hok) as Hok'.
    destruct (Builder.add b type e) as [b' [err|]] eqn:Hadd; cbn [fst snd] in *; [discriminate|].
    apply builder_add_buckets in Hadd.
    destruct Hadd as (cc0 & clean0 & Hc0 & Hc1 & _ & Hs0 & Hb & _).
    rewrite Hcur in Hc0. injection Hc0 as <-.
    rewrite Hsan in Hs0. injection Hs0 as <-.
    destruct (IH b' Hok' Hc1) as (H1 & H2 & H3).
    split; [exact H1|]. split; [exact H2|].
    rewrite H3, Hb, (sanitized_cons_valid _ _ _ Hsan), <- app_assoc. reflexivity.
Qed.

Lemma builder_addMany_app (type : string) (l1 l2 : list (option ProviderEntry)) :
  forall b,
    (Builder.addMany b type l1).2 = None ->
    Builder.addMany b type (l1 ++ l2) = Builder.addMany (Builder.addMany b type l1).1 type l2.
Proof.
  induction l1 as [|e l1 IH]; intros b H; [reflexivity|].
  cbn [Builder.addMany app] in *.
  destruct (Builder.add b type e) as [b' [err|]]; [discriminate|].
  apply IH. exact H.
Qed.

(** X3. [addMany] is not atomic: when the entries before the first invalid
    one are all valid, the call throws the error of that invalid entry, the
    valid entries before it have been appended to the bucket, in order, and
    the entries after it have not been looked at. *)
Theorem builder_addMany_keeps_prefix (b : ProxyCatalogBuilder) (type cc : string)
    (good rest : list (option ProviderEntry)) (bad : option ProviderEntry) (err : TypeError) :
  builder_ok b ->
  _currentCountry b = Some cc ->
  Builder.known_type type = true ->
  Forall (fun e => exists clean, sanitizeEntry e = inr clean) good ->
  sanitizeEntry bad = inl err ->
  Builder.addMany b type (good ++ bad :: rest)
  = ((Builder.addMany b type good).1, Some (InvalidEntry err))
  /\ (Builder.addMany b type good).2 = None
  /\ bucket_of (_cat (Builder.addMany b type (good ++ bad :: rest)).1) cc type
     = bucket_of (_cat b) cc type ++ sanitized good.
Proof.
  intros Hok Hcur Hkt Hgood Hbad.
  destruct (builder_addMany_valid type cc good Hkt Hgood b Hok Hcur) as (Hnone & Hcur' & Hb).
  assert (Heq : Builder.addMany b type (good ++ bad :: rest)
                = ((Builder.addMany b type good).1, Some (InvalidEntry err))).
  { rewrite (builder_addMany_app type good (bad :: rest) b Hnone).
    cbn [Builder.addMany]. unfold Builder.add. rewrite Hcur'. cbn [truthy].
    pose proof (builder_ok_addMany type good b Hok) as (_ & _ & _ & Hc).
    destruct (Hc cc Hcur') as [Hne _].
    destruct cc as [|a cc']; [congruence|]. rewrite Hkt, Hbad. reflexivity. }
  split; [exact Heq|]. split; [exact Hnone|]. rewrite Heq. exact Hb.
Qed.

Lemma builder_addMany_keeps_prefix_witness :
  Builder.addMany us_builder "dc_static" ([valid_raw; valid_raw] ++ ftp_raw :: [valid_raw])
  = ((Builder.addMany us_builder "dc_static" [valid_raw; valid_raw]).1,
     Some (InvalidEntry (BadProtocol "ftp")))
  /\ (Builder.addMany us_builder "dc_static" [valid_raw; valid_raw]).2 = None
  /\ bucket_of (_cat (Builder.addMany us_builder "dc_static"
                        ([valid_raw; valid_raw] ++ ftp_raw :: [valid_raw])).1) "US" "dc_static"
     = bucket_of (_cat us_builder) "US" "dc_static" ++ sanitized [valid_raw; valid_raw].
Proof.
  apply (builder_addMany_keeps_prefix us_builder "dc_static" "US" [valid_raw; valid_raw]
           [valid_raw] ftp_raw (BadProtocol "ftp")).
  - apply builder_ok_country, builder_ok_new.
  - reflexivity.
  - reflexivity.
  - repeat constructor; eexists; reflexivity.
  - reflexivity.
Defined.

(** ** From the builder to a pick *)

Lemma pickProxy_returns_pick d sel rnd cRec :
  keys_ok (catalog d) = true -> slots_ok (catalog d) = true ->
  state_ok d -> unit_draw (rand_index rnd) ->
  resolveCountry d sel (rand_country rnd) <> "" ->
  obj_get (catalog d) (resolveCountry d sel (rand_country rnd)) = Some cRec ->
  has_populated_type cRec = true ->
  exists d' m,
    pickProxy d sel rnd = (d', inr m)
    /\ pick_country m = resolveCountry d sel (rand_country rnd)
    /\ (populated cRec (desiredType d sel) = true -> pick_type m = desiredType d sel).
Proof.
  intros Hkeys Hslots Hok Hu Hne Hrec Hpop.
  assert (Htk : forall t, In t (Object_keys cRec) -> t <> "")
    by (intros t; eapply keys_ok_type; eassumption).
  destruct (resolvePoolType cRec (desiredType d sel)) as [t|] eqn:Hpt;
    [|apply (resolvePoolType_None cRec _ Htk) in Hpt; congruence].
  apply resolvePoolType_Some in Hpt as Hpt'. destruct Hpt' as (Hp & _ & Hdes & _).
  destruct (populated_pool _ _ Hp) as (e & pool' & Hpool).
  assert (Hres : resolvePool d sel (rand_country rnd)
                 = inr (resolveCountry d sel (rand_country rnd), t, e :: pool')).
  { unfold resolvePool, _pools.
    destruct (String.eqb_spec (resolveCountry d sel (rand_country rnd)) ""); [contradiction|].
    rewrite Hrec, Hpt, Hpool. reflexivity. }
  rewrite (pickProxy_resolved _ _ _ _ _ _ Hres).
  destruct (finishPick_ok (e :: pool')
              (chooseIndex d (resolveCountry d sel (rand_country rnd)) t
                 (length (e :: pool')) (resolveStrategy d sel) (sessionKey sel)
                 (rand_index rnd)).1
              (resolveCountry d sel (rand_country rnd)) t
              (resolveStrategy d sel) (sessionKey sel)) as (m & Hm & Hc & Ht & _).
  - apply chooseIndex_range; [assumption | assumption | simpl; lia].
  - eapply slots_ok_pool; eassumption.
  - eexists _, m. split; [rewrite Hm; reflexivity|]. split; [exact Hc|].
    intros Hd. rewrite Ht. apply Hdes. exact Hd.
Qed.

(** X4. An entry added through the builder can be picked: once
    [country(code)] and [add(type, entry)] have succeeded, whatever calls
    came before and come after on that builder, every director over the
    built catalog whose state is one a director can reach returns a pick
    for a call that names that country (in any letter case), and one of
    type [type] when the call asks for [type]. *)
Theorem builder_entry_is_pickable (ops ops' : list BuilderOp) (code type : string)
    (entry : option ProviderEntry) (b1 b2 : ProxyCatalogBuilder)
    (d : ProxyDirector) (sel : ProxySelectionOptions) (rnd : Rand) (code' : string) :
  Builder.country (Builder.run Builder.new ops) code = (b1, None) ->
  Builder.add b1 type entry = (b2, None) ->
  catalog d = Builder.build (Builder.run b2 ops') ->
  state_ok d ->
  unit_draw (rand_index rnd) ->
  truthy (sel_country sel) = Some code' ->
  toUpperCase code' = toUpperCase code ->
  exists d' m,
    pickProxy d sel rnd = (d', inr m)
    /\ pick_country m = toUpperCase code
    /\ (sel_type sel = Some type -> pick_type m = type).
Proof.
  intros Hcountry Hadd Hcat Hok Hu Hsel Hup.
  assert (Hb0 : builder_ok (Builder.run Builder.new ops))
    by (apply builder_ok_run, builder_ok_new).
  assert (Hb1 : builder_ok b1).
  { pose proof (builder_ok_country _ code Hb0) as H. rewrite Hcountry in H. exact H. }
  assert (Hcur : _currentCountry b1 = Some (toUpperCase code) /\ code <> "").
  { revert Hcountry. unfold Builder.country.
    destruct (String.eqb_spec code ""); [discriminate|]. intros [= <-]. auto. }
  destruct Hcur as [Hcur Hcode].
  assert (Hb2 : builder_ok b2).
  { pose proof (builder_ok_add b1 type entry Hb1) as H. rewrite Hadd in H. exact H. }
  apply builder_add_buckets in Hadd.
  destruct Hadd as (cc & clean & Hc0 & _ & Hkt & _ & _ & _ & _ & Hpop).
  rewrite Hcur in Hc0. injection Hc0 as <-.
  pose proof (builder_run_populated ops' _ _ b2 Hpop) as Hpop'.
  pose proof (builder_ok_run ops' b2 Hb2) as (Hk & Hs & _ & _).
  unfold Builder.build in Hcat. rewrite <- Hcat in Hpop', Hk, Hs.
  unfold catalog_populated in Hpop'.
  destruct (obj_get (catalog d) (toUpperCase code)) as [cRec|] eqn:Hrec; [|discriminate].
  assert (Hrc : resolveCountry d sel (rand_country rnd) = toUpperCase code).
  { rewrite (resolveCountry_supplied _ _ _ _ Hsel). exact Hup. }
  destruct (pickProxy_returns_pick d sel rnd cRec Hk Hs Hok Hu) as (d' & m & Hp & Hc & Ht).
  - rewrite Hrc. apply toUpperCase_nonempty. exact Hcode.
  - rewrite Hrc. exact Hrec.
  - destruct (has_populated_type cRec) eqn:E; [reflexivity|].
    rewrite has_populated_type_false in E. rewrite E in Hpop'. discriminate.
  - exists d', m. split; [exact Hp|]. split; [rewrite Hc; exact Hrc|].
    intros Hty.
    assert (Hdes : desiredType d sel = type).
    { unfold desiredType. rewrite Hty.
      pose proof (known_type_nonempty _ Hkt). destruct type; [congruence | reflexivity]. }
    rewrite Hdes in Ht. apply Ht. exact Hpop'.
Qed.

Lemma builder_entry_is_pickable_witness :
  exists d' m,
    pickProxy built_us_director mixed_case_us zero_draws = (d', inr m)
    /\ pick_country m = toUpperCase "us"
    /\ (sel_type mixed_case_us = Some "dc_static" -> pick_type m = "dc_static").
Proof.
  apply (builder_entry_is_pickable [] [OpDone] "us" "dc_static" valid_raw us_builder
           (Builder.add us_builder "dc_static" valid_raw).1
           built_us_director mixed_case_us zero_draws "Us").
  - reflexivity.
  - vm_compute. reflexivity.
  - reflexivity.
  - apply new_ProxyDirector_state_ok.
  - split; reflexivity || discriminate.
  - reflexivity.
  - reflexivity.
Defined.

(** ** weightedPick and _pickCountry *)

Lemma Qmax0_pos (w : Q) : (0 < Qmax 0 w)%Q -> (0 < w)%Q.
Proof.
  destruct (Q.max_spec 0 w) as [[? Hm]|[? Hm]]; rewrite Hm; intros; lra.
Qed.

Lemma weightedPick_loop_positive (entries : list (string * Q)) (k : string) :
  forall r, (0 < r)%Q -> weightedPick_loop entries r = Some k ->
            exists w, In (k, w) entries /\ (0 < w)%Q.
Proof.
  induction entries as [|[k0 w0] entries IH]; intros r Hr; simpl; [discriminate|].
  destruct (Qle_bool (r - Qmax 0 w0) 0) eqn:Hb.
  - intros [= <-]. apply Qle_bool_iff in Hb. exists w0. split; [auto|].
    apply Qmax0_pos. lra.
  - intros H. destruct (IH (r - Qmax 0 w0)%Q) as (w & Hin & Hw); [|exact H|eauto].
    apply Qnot_le_lt. intros Hc. apply Qle_bool_iff in Hc. congruence.
Qed.

Lemma last_cons_Some {A} (l : list A) (x : A) : last (x :: l) <> None.
Proof.
  revert x. induction l as [|y l IH]; intros x; [discriminate | apply IH].
Qed.

(** Inside the loop, an entry other than the first is taken only if its
    weight is positive: the residue that reaches it is positive, and
    subtracting nothing leaves it so. *)
Lemma weightedPick_loop_first_or_positive (entries : list (string * Q)) (r : Q) (k : string) :
  weightedPick_loop entries r = Some k ->
  (exists w, In (k, w) entries /\ (0 < w)%Q) \/ head (map fst entries) = Some k.
Proof.
  destruct entries as [|[k0 w0] entries]; simpl; [discriminate|].
  destruct (Qle_bool (r - Qmax 0 w0) 0) eqn:Hb.
  - intros [= <-]. right. reflexivity.
  - intros H. left.
    destruct (weightedPick_loop_positive entries k (r - Qmax 0 w0)%Q) as (w & Hin & Hw);
      [|exact H|eauto].
    apply Qnot_le_lt. intros Hc. apply Qle_bool_iff in Hc. congruence.
Qed.

Lemma weightedPick_first_last_or_positive (entries : list (string * Q)) (u : Q) (k : string) :
  weightedPick entries u = Some k ->
  (exists w, In (k, w) entries /\ (0 < w)%Q)
  \/ head (map fst entries) = Some k
  \/ last (map fst entries) = Some k.
Proof.
  unfold weightedPick. destruct (Qle_bool _ 0); [auto|].
  destruct (weightedPick_loop entries _) as [k'|] eqn:E; [|auto].
  intros [= <-]. apply weightedPick_loop_first_or_positive in E. tauto.
Qed.

Lemma weightedPick_returns (entries : list (string * Q)) (u : Q) :
  entries <> [] -> exists k, weightedPick entries u = Some k /\ In k (map fst entries).
Proof.
  intros Hne.
  destruct (weightedPick entries u) as [k|] eqn:E.
  - exists k. split; [reflexivity|]. apply weightedPick_In with u. exact E.
  - exfalso. revert E. unfold weightedPick.
    destruct entries as [|[k0 w0] rest]; [congruence|].
    destruct (Qle_bool _ 0); [discriminate|].
    destruct (weightedPick_loop _ _); [discriminate|].
    cbn [map fst]. apply last_cons_Some.
Qed.

(** X5. [weightedPick] on a non-empty list always returns one of its keys,
    whatever the draw.  The entry it returns has a positive weight, or is
    the first entry, or is the last entry (the fall-through after the
    loop): an entry whose weight is zero or negative and that is neither
    the first nor the last is never returned.  When no weight is positive
    it returns the first key. *)
Theorem weightedPick_spec (entries : list (string * Q)) (u : Q) :
  (entries <> [] -> exists k, weightedPick entries u = Some k /\ In k (map fst entries))
  /\ (forall k, weightedPick entries u = Some k ->
        (exists w, In (k, w) entries /\ (0 < w)%Q)
        \/ head (map fst entries) = Some k
        \/ last (map fst entries) = Some k)
  /\ ((total_weight entries <= 0)%Q -> weightedPick entries u = head (map fst entries)).
Proof.
  split; [apply weightedPick_returns|]. split; [apply weightedPick_first_last_or_positive|].
  intros Hle. unfold weightedPick. fold (total_weight entries).
  apply Qle_bool_iff in Hle. rewrite Hle. reflexivity.
Qed.

Lemma weightedPick_spec_witness :
  (exists w, In ("DE", w) [("US", 0%Q); ("XX", 0%Q); ("DE", 1 # 2); ("IN", 1 # 2)] /\ (0 < w)%Q)
  \/ head (map fst [("US", 0%Q); ("XX", 0%Q); ("DE", 1 # 2); ("IN", 1 # 2)]) = Some "DE"
  \/ last (map fst [("US", 0%Q); ("XX", 0%Q); ("DE", 1 # 2); ("IN", 1 # 2)]) = Some "DE".
Proof.
  refine (proj1 (proj2 (weightedPick_spec
                          [("US", 0%Q); ("XX", 0%Q); ("DE", 1 # 2); ("IN", 1 # 2)] (1 # 4)))
            "DE" _).
  reflexivity.
Defined.

Lemma weighted_countries_In (d : ProxyDirector) (k : string) (w : Q) :
  In (k, w) (map (fun c => (c, default 0%Q (obj_get (countryDistribution d) c)))
               (Object_keys (catalog d))) ->
  In k (Object_keys (catalog d)) /\ w = country_weight d k.
Proof.
  intros H. apply in_map_iff in H. destruct H as (c & [= <- <-] & Hin). auto.
Qed.

Lemma pickCountry_weighted (d : ProxyDirector) (u : Q) :
  (exists c, In c (Object_keys (catalog d)) /\ (0 < country_weight d c)%Q) ->
  _pickCountry d u
  = weightedPick (map (fun c => (c, default 0%Q (obj_get (countryDistribution d) c)))
                    (Object_keys (catalog d))) u.
Proof.
  intros (c & Hin & Hc). unfold _pickCountry, _pools.
  destruct (Nat.eqb_spec (length (Object_keys (catalog d))) 0) as [E|_].
  { destruct (Object_keys (catalog d)); [destruct Hin | discriminate]. }
  match goal with |- (if ?b then _ else _) = _ => destruct b eqn:Hall end; [|reflexivity].
  exfalso. rewrite forallb_forall in Hall.
  assert (Hw : In (c, country_weight d c)
                 (map (fun c => (c, default 0%Q (obj_get (countryDistribution d) c)))
                    (Object_keys (catalog d))))
    by (apply in_map_iff; exists c; auto).
  specialize (Hall _ Hw). cbn [snd] in Hall. apply Qle_bool_iff in Hall. lra.
Qed.

Lemma pickCountry_uniform (d : ProxyDirector) (u : Q) :
  (forall c, In c (Object_keys (catalog d)) -> (country_weight d c <= 0)%Q) ->
  _pickCountry d u
  = arr_get (Object_keys (catalog d)) (random_index u (length (Object_keys (catalog d)))).
Proof.
  intros Hzero. unfold _pickCountry, _pools.
  assert (Hall : forallb (fun w : string * Q => Qle_bool w.2 0)
                   (map (fun c => (c, default 0%Q (obj_get (countryDistribution d) c)))
                      (Object_keys (catalog d))) = true).
  { apply forallb_forall. intros [k w] Hin. apply weighted_countries_In in Hin.
    destruct Hin as [Hin ->]. apply Qle_bool_iff. cbn [snd]. apply Hzero. exact Hin. }
  rewrite Hall.
  destruct (Nat.eqb_spec (length (Object_keys (catalog d))) 0) as [E|]; [|reflexivity].
  rewrite E. destruct (Object_keys (catalog d)); [|discriminate].
  unfold arr_get. destruct (_ <? 0)%Z; [reflexivity|]. destruct (Z.to_nat _); reflexivity.
Qed.

Lemma pickCountry_returns (d : ProxyDirector) (u : Q) :
  catalog d <> [] -> unit_draw u ->
  exists k, _pickCountry d u = Some k /\ In k (Object_keys (catalog d)).
Proof.
  intros Hne Hu.
  assert (Hlen : (0 < length (Object_keys (catalog d)))%nat).
  { unfold Object_keys. rewrite length_map. destruct (catalog d); [congruence | simpl; lia]. }
  unfold _pickCountry, _pools.
  destruct (Nat.eqb_spec (length (Object_keys (catalog d))) 0); [lia|].
  destruct (forallb _ _).
  - destruct (arr_get_range (Object_keys (catalog d))
                (random_index u (length (Object_keys (catalog d)))))
      as (k & Hk & Hin); [apply random_index_range; assumption|].
    exists k. auto.
  - match goal with |- exists k, weightedPick ?w u = Some k /\ _ =>
      destruct (weightedPick_returns w u) as (k & Hk & Hin)
    end.
    + destruct (Object_keys (catalog d)); [simpl in Hlen; lia | discriminate].
    + exists k. split; [exact Hk|].
      rewrite map_map in Hin. cbn [fst] in Hin. rewrite map_id in Hin. exact Hin.
Qed.

Lemma pickCountry_first_last_or_positive (d : ProxyDirector) (u : Q) (k : string) :
  (exists c, In c (Object_keys (catalog d)) /\ (0 < country_weight d c)%Q) ->
  _pickCountry d u = Some k ->
  (exists w, obj_get (countryDistribution d) k = Some w /\ (0 < w)%Q)
  \/ head (Object_keys (catalog d)) = Some k
  \/ last (Object_keys (catalog d)) = Some k.
Proof.
  intros Hex Hk. rewrite (pickCountry_weighted d u Hex) in Hk.
  apply weightedPick_first_last_or_positive in Hk.
  rewrite map_map in Hk. cbn [fst] in Hk. rewrite map_id in Hk.
  destruct Hk as [(w & Hin & Hw)|Hk]; [left | right; exact Hk].
  apply weighted_countries_In in Hin. destruct Hin as [_ ->].
  unfold country_weight in Hw.
  destruct (obj_get (countryDistribution d) k) as [w|]; cbn in Hw; [eauto | lra].
Qed.

(** X6. [_pickCountry] returns null on an empty catalog; otherwise, for a
    draw in [0,1), it returns a country key of the catalog.  When some
    catalog country has a positive weight in the director's distribution,
    the country returned has a positive weight there, or is the first
    catalog key, or is the last one: a country that the distribution
    leaves out or weighs 0 and that is neither the first nor the last key
    of the catalog is never chosen.  When no catalog country has a positive
    weight, it returns the catalog key at position
    [floor(draw * number of countries)]. *)
Theorem pickCountry_spec (d : ProxyDirector) (u : Q) :
  (catalog d = [] -> _pickCountry d u = None)
  /\ (catalog d <> [] -> unit_draw u ->
      exists k, _pickCountry d u = Some k /\ In k (Object_keys (catalog d)))
  /\ ((exists c, In c (Object_keys (catalog d)) /\ (0 < country_weight d c)%Q) ->
      forall k, _pickCountry d u = Some k ->
                (exists w, obj_get (countryDistribution d) k = Some w /\ (0 < w)%Q)
                \/ head (Object_keys (catalog d)) = Some k
                \/ last (Object_keys (catalog d)) = Some k)
  /\ ((forall c, In c (Object_keys (catalog d)) -> (country_weight d c <= 0)%Q) ->
      _pickCountry d u
      = arr_get (Object_keys (catalog d)) (random_index u (length (Object_keys (catalog d))))).
Proof.
  split; [|split; [|split]].
  - intros Hempty. unfold _pickCountry, _pools. rewrite Hempty. reflexivity.
  - apply pickCountry_returns.
  - intros Hex k. apply pickCountry_first_last_or_positive. exact Hex.
  - apply pickCountry_uniform.
Qed.

Lemma pickCountry_spec_witness :
  exists k, _pickCountry two_country_director (1 # 2) = Some k
            /\ In k (Object_keys (catalog two_country_director)).
Proof.
  refine (proj1 (proj2 (pickCountry_spec two_country_director (1 # 2))) _ _).
  - discriminate.
  - split; reflexivity || discriminate.
Defined.

(** ** More on normalizeDistribution *)

Lemma obj_get_map_keys_inv {V} (f : string -> V) (keys : list string) (k : string) (v : V) :
  obj_get (map (fun k => (k, f k)) keys) k = Some v -> In k keys /\ v = f k.
Proof.
  induction keys as [|k0 keys IH]; simpl; [discriminate|].
  destruct (String.eqb_spec k0 k) as [->|Hne].
  - intros [= <-]. auto.
  - intros H. destruct (IH H). auto.
Qed.

Lemma clamp01_at_least_one (n : JSNum) : at_least_one n -> (clamp01 (Some n) == 1)%Q.
Proof.
  destruct n as [q| | |]; simpl; intros H; try lra; try contradiction.
  destruct (Q.max_spec 0 (Qmin 1 q)) as [[? ->]|[? ->]];
    destruct (Q.min_spec 1 q) as [[? Hm]|[? Hm]]; rewrite ?Hm in *; lra.
Qed.

(** X7. Weights are clamped to [0,1] one by one before they are divided by
    their sum, so proportions among weights above 1 are lost: when every
    weight is a number not below 1 (or [+Infinity]), every key gets [1/N],
    as in [{US:60, DE:20, IN:20}], which becomes one third each. *)
Theorem normalizeDistribution_flattens_large_weights (dist : obj JSNum) :
  (forall k n, obj_get dist k = Some n -> at_least_one n) ->
  (forall k, In k (Object_keys dist) ->
     exists w, obj_get (normalizeDistribution dist) k = Some w
               /\ (w == 1 / Qnat (length (Object_keys dist)))%Q)
  /\ normalizeDistribution [("US", NFin 60); ("DE", NFin 20); ("IN", NFin 20)]
     = [("US", 1 # 3); ("DE", 1 # 3); ("IN", 1 # 3)]%Q.
Proof.
  intros Hbig. split; [|reflexivity].
  intros k Hin.
  assert (Hone : forall k', In k' (Object_keys dist) -> (clamp01 (obj_get dist k') == 1)%Q).
  { intros k' Hin'. destruct (obj_get dist k') as [n|] eqn:E.
    - apply clamp01_at_least_one. eapply Hbig; exact E.
    - apply obj_get_None_keys in E. contradiction. }
  assert (Hsum : (clamped_sum dist (Object_keys dist) == Qnat (length (Object_keys dist)))%Q).
  { unfold clamped_sum.
    change (fold_left _ (Object_keys dist) 0%Q)
      with (sum_over (fun k => clamp01 (obj_get dist k)) (Object_keys dist)).
    rewrite (sum_over_ext _ (fun _ => 1%Q) _ Hone), sum_over_const. ring. }
  assert (HN : (1 <= Qnat (length (Object_keys dist)))%Q).
  { apply Qnat_pos. destruct (Object_keys dist); [destruct Hin | simpl; lia]. }
  rewrite (normalizeDistribution_scaled dist) by (rewrite Hsum; lra).
  rewrite (obj_get_map_keys
             (fun k => (clamp01 (obj_get dist k) / clamped_sum dist (Object_keys dist))%Q)
             _ _ Hin).
  eexists. split; [reflexivity|]. rewrite Hsum, (Hone k Hin). reflexivity.
Qed.

Lemma normalizeDistribution_flattens_large_weights_witness :
  exists w, obj_get (normalizeDistribution [("US", NFin 60); ("DE", NPosInf)]) "US" = Some w
            /\ (w == 1 / Qnat (length (Object_keys [("US", NFin 60); ("DE", NPosInf)])))%Q.
Proof.
  refine (proj1 (normalizeDistribution_flattens_large_weights
                   [("US", NFin 60); ("DE", NPosInf)] _) "US" _).
  - intros k n. cbn [obj_get].
    destruct (String.eqb "US" k); [intros [= <-]; simpl; lra|].
    destruct (String.eqb "DE" k); [intros [= <-]; exact I | discriminate].
  - left; reflexivity.
Defined.

(** X8. The distribution a director holds, whether set by the constructor
    or by [setCountryDistribution], is always a probability distribution
    over the keys it was given: every weight lies in [0,1] and, unless
    there is no key, the weights add up to 1 (also when all the given
    weights are zero or invalid).  On any director, whatever its cursors
    and its sticky table hold, [setCountryDistribution] touches nothing but
    the distribution. *)
Theorem director_distribution_is_probability (cat : option ProxyCatalog)
    (dist dist' : option (obj JSNum)) (dType dStrategy : option string)
    (d0 : ProxyDirector) :
  let d := new_ProxyDirector cat dist dType dStrategy in
  let d' := setCountryDistribution d0 dist' in
  (forall k w, obj_get (countryDistribution d) k = Some w -> (0 <= w <= 1)%Q)
  /\ (Object_keys (default [] dist) = [] /\ countryDistribution d = []
      \/ (sumQ (map snd (countryDistribution d)) == 1)%Q)
  /\ (forall k w, obj_get (countryDistribution d') k = Some w -> (0 <= w <= 1)%Q)
  /\ (Object_keys (default [] dist') = [] /\ countryDistribution d' = []
      \/ (sumQ (map snd (countryDistribution d')) == 1)%Q)
  /\ catalog d' = catalog d0 /\ defaultType d' = defaultType d0
  /\ defaultStrategy d' = defaultStrategy d0 /\ _rr d' = _rr d0 /\ _sticky d' = _sticky d0.
Proof.
  intros d d'.
  assert (Hprob : forall o : obj JSNum,
             (forall k w, obj_get (normalizeDistribution o) k = Some w -> (0 <= w <= 1)%Q)
             /\ (Object_keys o = [] /\ normalizeDistribution o = []
                 \/ (sumQ (map snd (normalizeDistribution o)) == 1)%Q)).
  { intros o. destruct (normalizeDistribution_weights o) as (f & Hout & Hb & Hsum).
    split.
    - intros k w Hk. rewrite Hout in Hk. apply obj_get_map_keys_inv in Hk.
      destruct Hk as [Hin ->]. apply Hb. exact Hin.
    - destruct (Object_keys o) as [|k0 keys] eqn:E.
      + left. split; [reflexivity|]. rewrite Hout. reflexivity.
      + right. rewrite Hout, sumQ_map_snd. apply Hsum. discriminate. }
  destruct (Hprob (default [] dist)) as [H1 H2].
  destruct (Hprob (default [] dist')) as [H3 H4].
  split; [exact H1|]. split; [exact H2|]. split; [exact H3|]. split; [exact H4|].
  repeat split.
Qed.

Lemma director_distribution_is_probability_witness :
  (0 <= 1 <= 1)%Q
  /\ _rr (setCountryDistribution us_after_one (Some [("DE", NFin 2)])) = _rr us_after_one.
Proof.
  pose proof (director_distribution_is_probability None (Some [("US", NFin 7)])
                (Some [("DE", NFin 2)]) None None us_after_one) as H.
  cbv zeta in H. destruct H as (H1 & _ & _ & _ & _ & _ & _ & Hrr & _).
  split; [apply (H1 "US" 1%Q); reflexivity | exact Hrr].
Defined.

(** ** Invariants of a director *)

Lemma chooseIndex_sticky_valid d c t pool cRec strategy sk u :
  obj_get (catalog d) c = Some cRec -> obj_get cRec t = Some (PArr pool) ->
  (0 < length pool)%nat -> unit_draw u ->
  sticky_valid d ->
  sticky_valid (chooseIndex d c t (length pool) strategy sk u).2.
Proof.
  intros Hrec Hpool Hlen Hu Hval. unfold chooseIndex.
  destruct (String.eqb strategy "random"); [exact Hval|].
  destruct (String.eqb strategy "roundRobin"); [exact Hval|].
  destruct (String.eqb strategy "sticky"); [|exact Hval].
  destruct (String.eqb_spec (default "" (truthy sk)) "") as [|Hne]; [exact Hval|].
  assert (Hfresh : sticky_valid
                     (set_sticky d (<[default "" (truthy sk) :=
                                        mkSticky c t (random_index u (length pool))]>
                                      (_sticky d)))).
  { intros k e. unfold set_sticky. cbn [_sticky catalog]. rewrite lookup_insert.
    case_decide as Hk; [|apply Hval].
    intros [= <-]. subst k. split; [exact Hne|]. exists cRec, pool. cbn.
    repeat split; try assumption; apply random_index_range; assumption. }
  destruct (_sticky d !! default "" (truthy sk)) as [e|]; [|exact Hfresh].
  destruct (_ && _); [exact Hval | exact Hfresh].
Qed.

Lemma pickProxy_sticky_valid d sel rnd :
  sticky_valid d -> unit_draw (rand_index rnd) -> sticky_valid (pickProxy d sel rnd).1.
Proof.
  intros Hval Hu.
  destruct (resolvePool d sel (rand_country rnd)) as [e|[[c t] pool]] eqn:H.
  - rewrite (pickProxy_unresolved _ _ _ _ H). exact Hval.
  - rewrite (pickProxy_resolved _ _ _ _ _ _ H). cbn [fst].
    apply resolvePool_inr in H. destruct H as (_ & _ & cRec & Hrec & _ & Hpool & Hlen).
    eapply chooseIndex_sticky_valid; eassumption.
Qed.

Lemma pickMany_invariants (calls : list (ProxySelectionOptions * Rand)) :
  index_draws_ok calls ->
  forall d1, state_ok d1 -> sticky_valid d1 ->
             same_config d1 (pickMany d1 calls).1
             /\ state_ok (pickMany d1 calls).1
             /\ sticky_valid (pickMany d1 calls).1.
Proof.
  intros Hdraws.
  induction Hdraws as [|[sel rnd] calls Hu _ IH]; intros d1 Hs Hv.
  - split; [apply same_config_refl | auto].
  - cbn [pickMany]. cbn [snd] in Hu.
    pose proof (pickProxy_config d1 sel rnd) as Hc1.
    pose proof (pickProxy_state_ok d1 sel rnd Hs Hu) as Hs1.
    pose proof (pickProxy_sticky_valid d1 sel rnd Hv Hu) as Hv1.
    destruct (pickProxy d1 sel rnd) as [d2 r]. cbn [fst] in *.
    specialize (IH d2 Hs1 Hv1).
    destruct (pickMany d2 calls) as [d3 rs]. cbn [fst] in *.
    destruct IH as (Hc2 & Hs2 & Hv2).
    split; [eapply same_config_trans; eassumption | auto].
Qed.

(** X9. Whatever calls are made on a new director (with draws in [0,1)),
    and whichever of them throw: the configuration is never changed, no
    cursor is negative, and every entry of the sticky table has a non-empty
    key and names a country and type of the catalog together with an index
    inside that pool. *)
Theorem director_invariants (cat : option ProxyCatalog) (dist : option (obj JSNum))
    (dType dStrategy : option string) (calls : list (ProxySelectionOptions * Rand)) :
  index_draws_ok calls ->
  let d0 := new_ProxyDirector cat dist dType dStrategy in
  let d := (pickMany d0 calls).1 in
  same_config d0 d /\ state_ok d /\ sticky_valid d.
Proof.
  intros Hdraws d0 d. apply pickMany_invariants; [exact Hdraws | |].
  - apply new_ProxyDirector_state_ok.
  - intros k e. unfold d0, new_ProxyDirector. cbn [_sticky]. rewrite lookup_empty. discriminate.
Qed.

Lemma director_invariants_witness :
  same_config us_director (pickMany us_director [sticky_call "US" "k" (2 # 3)]).1
  /\ state_ok (pickMany us_director [sticky_call "US" "k" (2 # 3)]).1
  /\ sticky_valid (pickMany us_director [sticky_call "US" "k" (2 # 3)]).1.
Proof.
  apply (director_invariants (Some us_catalog) (Some [("US", NFin 1)]) None None
           [sticky_call "US" "k" (2 # 3)]).
  repeat constructor. discriminate.
Defined.

(** ** What pickProxy throws, and when *)

Lemma resolvePool_inl d sel u e :
  resolvePool d sel u = inl e ->
  e = NoCountriesAvailable \/ e = NoProxyTypes (resolveCountry d sel u).
Proof.
  unfold resolvePool, _pools.
  destruct (String.eqb (resolveCountry d sel u) ""); [intros [= <-]; auto|].
  destruct (obj_get (catalog d) (resolveCountry d sel u)) as [cRec|]; [|intros [= <-]; auto].
  destruct (resolvePoolType cRec (desiredType d sel)) as [t|] eqn:Hpt; [|intros [= <-]; auto].
  apply resolvePoolType_Some in Hpt. destruct Hpt as (Hpop & _).
  destruct (populated_pool _ _ Hpop) as (e0 & pool' & ->). discriminate.
Qed.

Lemma finishPick_inl pool i c t s sk e :
  finishPick pool i c t s sk = inl e ->
  (e = EmptySlot c i /\ (arr_get pool i = None \/ arr_get pool i = Some None))
  \/ (e = MissingEndpoint c i
      /\ exists entry, arr_get pool i = Some (Some entry) /\ endpoint entry = None).
Proof.
  unfold finishPick. destruct (arr_get pool i) as [[entry|]|].
  - destruct (endpoint entry) eqn:E; [discriminate|]. intros [= <-]. right. eauto.
  - intros [= <-]. auto.
  - intros [= <-]. auto.
Qed.

Lemma finishPick_bad_slot pool i c t strat sk s :
  arr_get pool i = Some s -> slot_ok s = false ->
  finishPick pool i c t strat sk = inl (slot_error c i s).
Proof.
  intros Hs Hbad. unfold finishPick. rewrite Hs.
  destruct s as [entry|]; [|reflexivity]. cbn in Hbad.
  destruct (endpoint entry); [discriminate | reflexivity].
Qed.

Lemma arr_get_Some_range {A} (l : list A) (i : Z) (x : A) :
  arr_get l i = Some x -> (0 <= i < Z.of_nat (length l))%Z.
Proof.
  unfold arr_get. destruct (Z.ltb_spec i 0); [discriminate|].
  intros Hx. assert (Z.to_nat i < length l)%nat by (apply nth_error_Some; congruence). lia.
Qed.

(** X10. A call that throws does so in one of two ways.  Either country or
    type resolution fails, with "no countries available" or "no proxy types
    present", before anything is changed; or the chosen slot is unusable
    (out of range or null: "empty proxy slot"; an entry without endpoint:
    "missing endpoint"), and then the director is left in the state the
    strategy produced, cursor advanced or sticky entry written.  The "empty
    pool" error is never thrown. *)
Theorem pickProxy_throws d sel rnd d' e :
  pickProxy d sel rnd = (d', inl e) ->
  (d' = d
   /\ resolvePool d sel (rand_country rnd) = inl e
   /\ (e = NoCountriesAvailable
       \/ e = NoProxyTypes (resolveCountry d sel (rand_country rnd))))
  \/ (exists c t pool i,
        resolvePool d sel (rand_country rnd) = inr (c, t, pool)
        /\ chooseIndex d c t (length pool) (resolveStrategy d sel) (sessionKey sel)
             (rand_index rnd) = (i, d')
        /\ ((e = EmptySlot c i /\ (arr_get pool i = None \/ arr_get pool i = Some None))
            \/ (e = MissingEndpoint c i
                /\ exists entry, arr_get pool i = Some (Some entry) /\ endpoint entry = None))).
Proof.
  intros H.
  destruct (resolvePool d sel (rand_country rnd)) as [e0|[[c t] pool]] eqn:Hres.
  - left. rewrite (pickProxy_unresolved _ _ _ _ Hres) in H. injection H as <- <-.
    split; [reflexivity|]. split; [reflexivity|]. apply resolvePool_inl. exact Hres.
  - right. rewrite (pickProxy_resolved _ _ _ _ _ _ Hres) in H.
    exists c, t, pool.
    destruct (chooseIndex d c t (length pool) (resolveStrategy d sel) (sessionKey sel)
                (rand_index rnd)) as [i d1].
    cbn [fst snd] in H. injection H as <- Hfin.
    exists i. split; [reflexivity|]. split; [reflexivity|].
    apply finishPick_inl in Hfin. exact Hfin.
Qed.

Lemma pickProxy_throws_witness :
  (lower_director = lower_director
   /\ resolvePool lower_director no_options (rand_country zero_draws) = inl NoCountriesAvailable
   /\ (NoCountriesAvailable = NoCountriesAvailable
       \/ NoCountriesAvailable
          = NoProxyTypes (resolveCountry lower_director no_options (rand_country zero_draws))))
  \/ (exists c t pool i,
        resolvePool lower_director no_options (rand_country zero_draws) = inr (c, t, pool)
        /\ chooseIndex lower_director c t (length pool)
             (resolveStrategy lower_director no_options) (sessionKey no_options)
             (rand_index zero_draws) = (i, lower_director)
        /\ ((NoCountriesAvailable = EmptySlot c i
             /\ (arr_get pool i = None \/ arr_get pool i = Some None))
            \/ (NoCountriesAvailable = MissingEndpoint c i
                /\ exists entry, arr_get pool i = Some (Some entry) /\ endpoint entry = None))).
Proof.
  apply (pickProxy_throws lower_director no_options zero_draws lower_director
           NoCountriesAvailable).
  vm_compute. reflexivity.
Defined.

(** X11. A round-robin call whose next slot is unusable throws, but the
    cursor has moved onto that slot, so the next round-robin call on the
    same pool goes on to the slot after it instead of failing on the same
    one again. *)
Theorem roundRobin_moves_past_bad_slot d sel rnd rnd' c t pool s :
  resolvePool d sel (rand_country rnd) = inr (c, t, pool) ->
  resolvePool d sel (rand_country rnd') = inr (c, t, pool) ->
  resolveStrategy d sel = "roundRobin" ->
  rr_nonneg d ->
  let L := Z.of_nat (length pool) in
  let i := ((default 0 (_rr d !! rr_key c t) + 1) mod L)%Z in
  arr_get pool i = Some s ->
  slot_ok s = false ->
  let d1 := set_rr d (<[rr_key c t := i]> (_rr d)) in
  pickProxy d sel rnd = (d1, inl (slot_error c i s))
  /\ pickProxy d1 sel rnd'
     = (set_rr d1 (<[rr_key c t := ((i + 1) mod L)%Z]> (_rr d1)),
        finishPick pool ((i + 1) mod L)%Z c t "roundRobin" (sessionKey sel)).
Proof.
  intros Hres Hres' Hstr Hrr L i Hslot Hbad d1.
  pose proof (resolvePool_inr _ _ _ _ _ _ Hres) as (_ & _ & cRec & _ & _ & _ & Hlen).
  assert (Hp : (0 <= default 0 (_rr d !! rr_key c t))%Z).
  { destruct (_rr d !! rr_key c t) as [v|] eqn:E; cbn; [apply (Hrr _ _ E) | lia]. }
  split.
  - rewrite (pickProxy_resolved _ _ _ _ _ _ Hres), Hstr, chooseIndex_roundRobin.
    rewrite (nextRR_step _ _ _ Hp Hlen). cbn [fst snd]. fold L i d1.
    rewrite (finishPick_bad_slot _ _ _ _ _ _ _ Hslot Hbad). reflexivity.
  - assert (Hcfg : same_config d d1) by (repeat split).
    rewrite (resolvePool_config d d1 _ _ Hcfg) in Hres'.
    rewrite (resolveStrategy_config d d1 _ Hcfg) in Hstr.
    assert (Hcur : _rr d1 !! rr_key c t = Some i).
    { unfold d1, set_rr. cbn [_rr]. apply lookup_insert_eq. }
    rewrite (pickProxy_resolved _ _ _ _ _ _ Hres'), Hstr, chooseIndex_roundRobin.
    rewrite (nextRR_next d1 _ _ i Hcur); [reflexivity | | exact Hlen].
    unfold i. apply Z.mod_pos_bound. unfold L. lia.
Qed.

(** X12. A sticky call that draws an unusable slot for a key without a
    usable entry throws, but the key is already pinned to that slot.  From
    then on, every sticky call with that key that resolves to the same
    country and type throws the same error, whatever it draws, and the pin
    stays, as long as no sticky call with that key resolves to another
    country or type (such a call overwrites the entry).  Calls with
    another key or another strategy, and calls that throw before a pool is
    resolved, may come in between. *)
Theorem sticky_pins_bad_slot d sel rnd c t pool key s :
  resolvePool d sel (rand_country rnd) = inr (c, t, pool) ->
  resolveStrategy d sel = "sticky" ->
  truthy (sessionKey sel) = Some key ->
  (forall e, _sticky d !! key = Some e ->
             ~ (st_country e = c /\ st_type e = t /\ (st_index e < Z.of_nat (length pool))%Z)) ->
  let i := random_index (rand_index rnd) (length pool) in
  arr_get pool i = Some s ->
  slot_ok s = false ->
  let d1 := set_sticky d (<[key := mkSticky c t i]> (_sticky d)) in
  pickProxy d sel rnd = (d1, inl (slot_error c i s))
  /\ forall calls,
       Forall (fun call => sticky_call_on d key call ->
                 forall c' t' pool',
                   resolvePool d call.1 (rand_country call.2) = inr (c', t', pool') ->
                   c' = c /\ t' = t) calls ->
       Forall2 (fun call r => sticky_call_on d key call ->
                  (exists pool',
                      resolvePool d call.1 (rand_country call.2) = inr (c, t, pool')) ->
                  r = inl (slot_error c i s))
               calls (pickMany d1 calls).2
       /\ _sticky (pickMany d1 calls).1 !! key = Some (mkSticky c t i).
Proof.
  intros Hres Hstr Hk Hmiss i Hslot Hbad d1.
  split.
  - rewrite (pickProxy_resolved _ _ _ _ _ _ Hres), Hstr.
    rewrite (chooseIndex_sticky_miss d c t (length pool) (sessionKey sel) key
               (rand_index rnd) Hk Hmiss). cbn [fst snd]. fold i d1.
    rewrite (finishPick_bad_slot _ _ _ _ _ _ _ Hslot Hbad). reflexivity.
  - intros calls Hcalls.
    assert (Hcfg : same_config d d1) by (repeat split).
    assert (Hpin : _sticky d1 !! key = Some (mkSticky c t i)).
    { unfold d1, set_sticky. cbn [_sticky]. apply lookup_insert_eq. }
    pose proof (arr_get_Some_range _ _ _ Hslot) as [_ Hlt].
    destruct (sticky_pinned_run d key c t pool i calls d1 Hcfg Hpin Hlt
                (ex_intro _ sel (ex_intro _ (rand_country rnd) Hres)) Hcalls) as [Hall Hkept].
    split; [|exact Hkept].
    eapply Forall2_impl; [exact Hall|].
    intros call r Himp Hon Hsame. rewrite (Himp Hon Hsame).
    apply finishPick_bad_slot; assumption.
Qed.

Lemma roundRobin_moves_past_bad_slot_witness :
  pickProxy holey_director roundRobin_options zero_draws
  = (set_rr holey_director (<[rr_key "US" "res_rotating" := 1%Z]> (_rr holey_director)),
     inl (EmptySlot "US" 1))
  /\ pickProxy (set_rr holey_director
                  (<[rr_key "US" "res_rotating" := 1%Z]> (_rr holey_director)))
       roundRobin_options zero_draws
     = (set_rr (set_rr holey_director
                  (<[rr_key "US" "res_rotating" := 1%Z]> (_rr holey_director)))
          (<[rr_key "US" "res_rotating" := 2%Z]>
             (_rr (set_rr holey_director
                     (<[rr_key "US" "res_rotating" := 1%Z]> (_rr holey_director))))),
        finishPick holey_pool 2 "US" "res_rotating" "roundRobin" None).
Proof.
  apply (roundRobin_moves_past_bad_slot holey_director roundRobin_options zero_draws zero_draws
           "US" "res_rotating" holey_pool None).
  - vm_compute; reflexivity.
  - vm_compute; reflexivity.
  - reflexivity.
  - apply new_ProxyDirector_state_ok.
  - vm_compute; reflexivity.
  - reflexivity.
Defined.

Lemma sticky_pins_bad_slot_witness :
  let first := sticky_call "US" "k" (1 # 3) in
  let d1 := set_sticky holey_director
              (<["k" := mkSticky "US" "res_rotating" 1]> (_sticky holey_director)) in
  let later := [sticky_call "FR" "k" 0; sticky_call "US" "other" 0; sticky_call "US" "k" 0] in
  pickProxy holey_director first.1 first.2 = (d1, inl (EmptySlot "US" 1))
  /\ Forall2 (fun call r => sticky_call_on holey_director "k" call ->
                (exists pool',
                    resolvePool holey_director call.1 (rand_country call.2)
                    = inr ("US", "res_rotating", pool')) ->
                r = inl (EmptySlot "US" 1))
             later (pickMany d1 later).2.
Proof.
  cbv zeta.
  pose proof (sticky_pins_bad_slot holey_director (sticky_call "US" "k" (1 # 3)).1
                (sticky_call "US" "k" (1 # 3)).2 "US" "res_rotating" holey_pool "k" None) as H.
  cbv zeta in H.
  destruct H as [Hfirst Hlater].
  - vm_compute; reflexivity.
  - reflexivity.
  - reflexivity.
  - intros e He. vm_compute in He. discriminate He.
  - vm_compute; reflexivity.
  - reflexivity.
  - split; [exact Hfirst|].
    specialize (Hlater [sticky_call "FR" "k" 0; sticky_call "US" "other" 0;
                        sticky_call "US" "k" 0]).
    apply proj1 in Hlater; [exact Hlater|].
    constructor; [|constructor; [|constructor; [|constructor]]];
      intros _ c' t' pool' Hr; vm_compute in Hr;
      first [discriminate Hr | injection Hr as <- <- _; split; reflexivity].
Defined.

(** ** Strategies and what they touch *)

Lemma chooseIndex_stateless d c t len strategy sk u :
  strategy <> "roundRobin" -> strategy <> "sticky" ->
  chooseIndex d c t len strategy sk u = (random_index u len, d).
Proof.
  intros H1 H2. unfold chooseIndex.
  destruct (String.eqb strategy "random"); [reflexivity|].
  destruct (String.eqb_spec strategy "roundRobin"); [contradiction|].
  destruct (String.eqb_spec strategy "sticky"); [contradiction | reflexivity].
Qed.

(** X13. A call whose strategy is neither ["roundRobin"] nor ["sticky"]
    (["random"], or any unrecognised name) leaves the director exactly as it
    was and returns what the same call with strategy ["random"] returns,
    under its own strategy name: the entry at index [floor(draw * L)]. *)
Theorem random_is_stateless d sel rnd :
  resolveStrategy d sel <> "roundRobin" ->
  resolveStrategy d sel <> "sticky" ->
  (pickProxy d sel rnd).1 = d
  /\ (pickProxy d sel rnd).2
     = relabel (resolveStrategy d sel) (pickProxy d (with_strategy sel "random") rnd).2
  /\ forall c t pool,
       resolvePool d sel (rand_country rnd) = inr (c, t, pool) ->
       (pickProxy d sel rnd).2
       = finishPick pool (random_index (rand_index rnd) (length pool)) c t
           (resolveStrategy d sel) (sessionKey sel).
Proof.
  intros H1 H2.
  assert (Hsame : resolvePool d (with_strategy sel "random") (rand_country rnd)
                  = resolvePool d sel (rand_country rnd))
    by (apply resolvePool_sel; reflexivity).
  assert (Hcase : (exists e, resolvePool d sel (rand_country rnd) = inl e)
                  \/ (exists c t pool, resolvePool d sel (rand_country rnd) = inr (c, t, pool))).
  { destruct (resolvePool d sel (rand_country rnd)) as [e|[[c t] pool]]; eauto 6. }
  assert (Hres : forall c t pool,
             resolvePool d sel (rand_country rnd) = inr (c, t, pool) ->
             pickProxy d sel rnd
             = (d, finishPick pool (random_index (rand_index rnd) (length pool)) c t
                     (resolveStrategy d sel) (sessionKey sel))).
  { intros c t pool Hr. rewrite (pickProxy_resolved _ _ _ _ _ _ Hr).
    rewrite (chooseIndex_stateless _ _ _ _ _ _ _ H1 H2). reflexivity. }
  destruct Hcase as [[e Hr]|(c & t & pool & Hr)].
  - rewrite (pickProxy_unresolved _ _ _ _ Hr).
    assert (Hr0 := Hr). rewrite <- Hsame in Hr0. rewrite (pickProxy_unresolved _ _ _ _ Hr0).
    repeat split. intros c t pool Hr'. rewrite Hr in Hr'. discriminate.
  - rewrite (Hres c t pool Hr). cbn [fst snd].
    split; [reflexivity|]. split.
    + assert (Hr0 := Hr). rewrite <- Hsame in Hr0.
      rewrite (pickProxy_resolved _ _ _ _ _ _ Hr0). cbn [snd].
      apply finishPick_relabel.
    + intros c' t' pool' Hr'. rewrite Hr in Hr'. injection Hr' as <- <- <-. reflexivity.
Qed.

Lemma random_is_stateless_witness :
  (pickProxy us_director (with_strategy no_options "fastest") zero_draws).1 = us_director.
Proof.
  refine (proj1 (random_is_stateless us_director (with_strategy no_options "fastest")
                   zero_draws _ _)); discriminate.
Defined.

Lemma chooseIndex_rr_frame d c t len strategy sk u k :
  k <> rr_key c t ->
  _rr (chooseIndex d c t len strategy sk u).2 !! k = _rr d !! k.
Proof.
  intros Hk. unfold chooseIndex, _nextRR.
  repeat match goal with
         | |- context [if ?b then _ else _] => destruct b
         | |- context [match ?o with Some _ => _ | None => _ end] => destruct o
         end; cbn; try reflexivity; apply lookup_insert_ne; congruence.
Qed.

Lemma chooseIndex_rr_untouched d c t len strategy sk u :
  strategy <> "roundRobin" -> ~ (strategy = "sticky" /\ truthy sk = None) ->
  _rr (chooseIndex d c t len strategy sk u).2 = _rr d.
Proof.
  intros H1 H2. unfold chooseIndex.
  destruct (String.eqb strategy "random"); [reflexivity|].
  destruct (String.eqb_spec strategy "roundRobin"); [contradiction|].
  destruct (String.eqb_spec strategy "sticky") as [Hs|]; [|reflexivity].
  destruct (truthy sk) as [key|] eqn:Hk; [|exfalso; apply H2; auto].
  apply truthy_Some in Hk. destruct Hk as [_ Hne]. cbn [from_option id].
  destruct (String.eqb_spec key ""); [contradiction|].
  destruct (_sticky d !! key); [destruct (_ && _)|]; reflexivity.
Qed.

(** X14. What one call can change.  It never changes the catalog, the
    distribution or the defaults.  It changes at most one cursor, the one
    under ["country:type"] of the pool it resolved, and only when the
    strategy is ["roundRobin"] or ["sticky"] without a session key.  It
    changes at most one entry of the sticky table, the one under its own
    session key, and only when the strategy is ["sticky"]. *)
Theorem pickProxy_frame d sel rnd :
  let d' := (pickProxy d sel rnd).1 in
  same_config d d'
  /\ (forall k, _rr d' !! k <> _rr d !! k ->
        (resolveStrategy d sel = "roundRobin"
         \/ (resolveStrategy d sel = "sticky" /\ truthy (sessionKey sel) = None))
        /\ exists c t pool,
             resolvePool d sel (rand_country rnd) = inr (c, t, pool) /\ k = rr_key c t)
  /\ (forall k, _sticky d' !! k <> _sticky d !! k ->
        resolveStrategy d sel = "sticky" /\ truthy (sessionKey sel) = Some k).
Proof.
  intros d'. split; [apply pickProxy_config|]. split.
  - intros k Hk. unfold d' in Hk.
    assert (Hcase : (exists e, resolvePool d sel (rand_country rnd) = inl e)
                    \/ (exists c t pool,
                           resolvePool d sel (rand_country rnd) = inr (c, t, pool))).
    { destruct (resolvePool d sel (rand_country rnd)) as [e|[[c t] pool]]; eauto 6. }
    destruct Hcase as [[e Hres]|(c & t & pool & Hres)].
    { rewrite (pickProxy_unresolved _ _ _ _ Hres) in Hk. contradiction Hk. reflexivity. }
    rewrite (pickProxy_resolved _ _ _ _ _ _ Hres) in Hk. cbn [fst] in Hk.
    split.
    + destruct (decide (resolveStrategy d sel = "roundRobin")) as [|H1]; [auto|].
      destruct (decide (resolveStrategy d sel = "sticky" /\ truthy (sessionKey sel) = None))
        as [|H2]; [auto|].
      exfalso. apply Hk. rewrite chooseIndex_rr_untouched; auto.
    + exists c, t, pool. split; [exact Hres|].
      destruct (decide (k = rr_key c t)) as [|Hne]; [assumption|].
      exfalso. apply Hk. apply chooseIndex_rr_frame. exact Hne.
  - intros k Hk. unfold d' in Hk.
    destruct (decide (resolveStrategy d sel = "sticky")) as [Hs|Hs];
      destruct (decide (truthy (sessionKey sel) = Some k)) as [Hkk|Hkk]; auto;
      exfalso; apply Hk; apply pickProxy_sticky_frame;
      unfold sticky_call_on; cbn [fst]; tauto.
Qed.

Lemma pickProxy_frame_witness :
  (resolveStrategy us_director roundRobin_options = "roundRobin"
   \/ (resolveStrategy us_director roundRobin_options = "sticky"
       /\ truthy (sessionKey roundRobin_options) = None))
  /\ exists c t pool,
       resolvePool us_director roundRobin_options (rand_country zero_draws) = inr (c, t, pool)
       /\ "US:res_rotating" = rr_key c t.
Proof.
  refine (proj1 (proj2 (pickProxy_frame us_director roundRobin_options zero_draws))
            "US:res_rotating" _).
  vm_compute. discriminate.
Defined.

(** X15. The country a caller names is matched without regard to letter
    case: two calls that differ only in the case of the country return the
    same result and leave the same director. *)
Theorem country_case_insensitive d sel1 sel2 rnd c1 c2 :
  truthy (sel_country sel1) = Some c1 ->
  truthy (sel_country sel2) = Some c2 ->
  toUpperCase c1 = toUpperCase c2 ->
  sel_type sel1 = sel_type sel2 ->
  sel_strategy sel1 = sel_strategy sel2 ->
  sessionKey sel1 = sessionKey sel2 ->
  pickProxy d sel1 rnd = pickProxy d sel2 rnd.
Proof.
  intros H1 H2 Hup Ht Hs Hk.
  unfold pickProxy, resolvePool, resolveStrategy, desiredType.
  rewrite (resolveCountry_supplied _ _ _ _ H1), (resolveCountry_supplied _ _ _ _ H2).
  rewrite Hup, Ht, Hs, Hk. reflexivity.
Qed.

Lemma country_case_insensitive_witness :
  pickProxy dc_director de_residential zero_draws
  = pickProxy dc_director
      {| sel_country := Some "DE"; sel_type := Some "res_rotating"; sel_strategy := None;
         sessionKey := None |} zero_draws.
Proof.
  apply (country_case_insensitive dc_director de_residential _ zero_draws "de" "DE");
    reflexivity.
Defined.

(** ** More on session-token expansion *)

Lemma GetSubstitution_no_pattern (matched before after tmpl : string) :
  has_replacement_pattern tmpl = false -> GetSubstitution matched before after tmpl = tmpl.
Proof.
  induction tmpl as [|a t IH]; cbn [GetSubstitution has_replacement_pattern]; [reflexivity|].
  intros H. apply orb_false_iff in H as [Hhere Hrest].
  rewrite (IH Hrest).
  destruct (Ascii.eqb a "$"); [|reflexivity].
  destruct t as [|c rest]; [reflexivity|].
  cbn [andb] in Hhere.
  apply orb_false_iff in Hhere as [Hhere H4].
  apply orb_false_iff in Hhere as [Hhere H3].
  apply orb_false_iff in Hhere as [H1 H2].
  rewrite H1, H2, H3, H4. reflexivity.
Qed.

Lemma replaceAll_from_no_pattern (pat tmpl : string) :
  has_replacement_pattern tmpl = false ->
  forall rest before skip,
    replaceAll_from pat tmpl before skip rest = replaceLiteral_from pat tmpl skip rest.
Proof.
  intros Hd. induction rest as [|c rest IH]; intros before skip;
    cbn [replaceAll_from replaceLiteral_from]; [reflexivity|].
  destruct skip as [|k]; [|apply IH].
  destruct (String.prefix pat (String c rest)).
  - rewrite GetSubstitution_no_pattern by exact Hd. rewrite IH. reflexivity.
  - rewrite IH. reflexivity.
Qed.

Lemma replaceAll_from_absent (pat tmpl : string) :
  forall rest before, occurs pat rest = false -> replaceAll_from pat tmpl before 0 rest = rest.
Proof.
  induction rest as [|c rest IH]; intros before H; cbn [replaceAll_from]; [reflexivity|].
  cbn [occurs] in H. apply orb_false_iff in H as [Hp Hr].
  rewrite Hp, (IH _ Hr). reflexivity.
Qed.

(** X16. A session string that holds none of [$$], [$&], [$`], [$'] is
    inserted as it is: the expansion is then the literal replacement of
    every [${session}] marker (a lone dollar sign, or one followed by any
    other character, is harmless).  And on an endpoint without markers a
    non-empty session changes no field: protocol, host, port, username and
    password come back as stored. *)
Theorem applySessionToken_literal (cfg : ProxyConfig) (session : string) :
  (has_replacement_pattern session = false ->
   applySessionToken cfg session = expandSessionLiteral cfg session)
  /\ (session <> "" -> mentions_token cfg = false ->
      applySessionToken cfg session
      = {| protocol := protocol cfg; host := host cfg; port := port cfg;
           username := username cfg; password := password cfg;
           auth := None; other_fields := [] |}).
Proof.
  split.
  - intros Hd. unfold applySessionToken, expandSessionLiteral.
    destruct (String.eqb session ""); [reflexivity|].
    unfold replaceAll, replaceLiteral.
    rewrite (replaceAll_from_no_pattern _ _ Hd).
    f_equal.
    + destruct (username cfg); simpl; [|reflexivity].
      rewrite (replaceAll_from_no_pattern _ _ Hd); reflexivity.
    + destruct (password cfg); simpl; [|reflexivity].
      rewrite (replaceAll_from_no_pattern _ _ Hd); reflexivity.
  - intros Hne Hno. unfold applySessionToken.
    destruct (String.eqb_spec session ""); [contradiction|].
    unfold mentions_token in Hno.
    apply orb_false_iff in Hno as [Hno Hp]. apply orb_false_iff in Hno as [Hh Hu].
    unfold replaceAll. rewrite (replaceAll_from_absent _ _ _ _ Hh).
    f_equal.
    + destruct (username cfg); simpl; [|reflexivity].
      rewrite (replaceAll_from_absent _ _ _ _ Hu); reflexivity.
    + destruct (password cfg); simpl; [|reflexivity].
      rewrite (replaceAll_from_absent _ _ _ _ Hp); reflexivity.
Qed.

Lemma applySessionToken_literal_witness :
  applySessionToken templated_endpoint "user$42" = expandSessionLiteral templated_endpoint "user$42"
  /\ applySessionToken (plain_endpoint "a.io") "s1"
     = {| protocol := protocol (plain_endpoint "a.io"); host := host (plain_endpoint "a.io");
          port := port (plain_endpoint "a.io"); username := username (plain_endpoint "a.io");
          password := password (plain_endpoint "a.io"); auth := None; other_fields := [] |}.
Proof.
  split.
  - apply (proj1 (applySessionToken_literal templated_endpoint "user$42")). reflexivity.
  - apply (proj2 (applySessionToken_literal (plain_endpoint "a.io") "s1"));
      [discriminate | reflexivity].
Defined.

(** ** The JSON loader *)

Lemma normalizeDistribution_again (dist : obj JSNum) :
  dist_eq (normalizeDistribution (asDist (normalizeDistribution dist)))
          (normalizeDistribution dist).
Proof.
  destruct (normalizeDistribution_weights dist) as (f & Hout & Hb & Hsum).
  destruct (Object_keys dist) as [|k0 keys0] eqn:E.
  { rewrite Hout. simpl. constructor. }
  specialize (Hsum ltac:(discriminate)).
  remember (normalizeDistribution dist) as out eqn:Hdef. clear Hdef.
  assert (Hkeys : Object_keys (asDist out) = k0 :: keys0).
  { rewrite Object_keys_asDist, Hout. apply Object_keys_map. }
  assert (Hcl : forall k, In k (k0 :: keys0) ->
                 (clamp01 (obj_get (asDist out) k) == f k)%Q).
  { intros k Hin. rewrite obj_get_asDist, Hout, (obj_get_map_keys f _ _ Hin).
    apply clamp01_fixed, Hb, Hin. }
  assert (Hs1 : (clamped_sum (asDist out) (k0 :: keys0) == 1)%Q).
  { unfold clamped_sum.
    change (fold_left _ (k0 :: keys0) 0%Q)
      with (sum_over (fun k => clamp01 (obj_get (asDist out) k)) (k0 :: keys0)).
    rewrite (sum_over_ext _ f _ Hcl). exact Hsum. }
  rewrite (normalizeDistribution_scaled (asDist out)) by (rewrite Hkeys, Hs1; lra).
  rewrite Hkeys. remember (asDist out) as again eqn:Hagain. rewrite Hout. clear Hagain.
  apply Forall2_map_same.
  intros k Hin. split; [reflexivity|]. cbn [snd].
  rewrite Hs1, (Hcl k Hin). field.
Qed.

(** X17. [buildProxyDirectorFromJson] throws exactly when the document or
    its [countries] is missing.  Otherwise it returns [countries] itself as
    the catalog of a new director, whatever is in it (no entry is
    validated and no key is changed), with empty cursors and sticky table,
    with type [res_rotating] and strategy [random] as defaults when the
    document gives none or an empty string, and with a distribution that,
    although normalized twice, equals the document's distribution
    normalized once. *)
Theorem buildProxyDirectorFromJson_spec (json : option ProxyJson) :
  (buildProxyDirectorFromJson json = inl CountriesRequired
   <-> json = None \/ exists j, json = Some j /\ json_countries j = None)
  /\ (forall j countries,
        json = Some j -> json_countries j = Some countries ->
        exists d,
          buildProxyDirectorFromJson json = inr (d, countries)
          /\ catalog d = countries
          /\ _rr d = ∅ /\ _sticky d = ∅
          /\ defaultType d = default "res_rotating" (truthy (json_defaultType j))
          /\ defaultStrategy d = default "random" (truthy (json_defaultStrategy j))
          /\ dist_eq (countryDistribution d)
                     (normalizeDistribution (default [] (json_distribution j)))).
Proof.
  split.
  - unfold buildProxyDirectorFromJson. split.
    + destruct json as [j|]; [|auto]. destruct (json_countries j) eqn:E; [discriminate|].
      intros _. right. eauto.
    + intros [->|(j & -> & ->)]; reflexivity.
  - intros j countries -> Hc. unfold buildProxyDirectorFromJson. rewrite Hc.
    eexists. split; [reflexivity|]. cbn.
    repeat split. apply normalizeDistribution_again.
Qed.

Lemma buildProxyDirectorFromJson_spec_witness :
  exists d,
    buildProxyDirectorFromJson (Some raw_json)
    = inr (d, [("us", [("res_rotating", PArr holey_pool)])])
    /\ catalog d = [("us", [("res_rotating", PArr holey_pool)])]
    /\ _rr d = ∅ /\ _sticky d = ∅
    /\ defaultType d = default "res_rotating" (truthy (json_defaultType raw_json))
    /\ defaultStrategy d = default "random" (truthy (json_defaultStrategy raw_json))
    /\ dist_eq (countryDistribution d)
               (normalizeDistribution (default [] (json_distribution raw_json))).
Proof.
  apply (proj2 (buildProxyDirectorFromJson_spec (Some raw_json)) raw_json); reflexivity.
Defined.

(** ** Proxy resolution in the HTTP client *)

(** X18. [#resolveProxy]: an own [proxy] option, [null] included, decides
    alone and no director is used.  Without it, when a director is at hand
    (the option's before the instance's) and a geo selection is at hand
    (the option's before the instance's), the method returns that
    director's pick and its proxyConfig, or throws what [pickProxy] throws:
    a failed pick is not replaced by a fixed proxy.  In every other case no
    director is used and the result is the instance's proxy, else the
    default proxy, else null. *)
Theorem resolveProxy_precedence (defaultProxy : option ProxyConfig) (this : ApiPoster)
    (options : RequestOptions) (rnd : Rand) :
  (opt_proxy options = ProxyNull ->
   resolveProxy defaultProxy this options rnd
   = (None, inr {| rp_proxyConfig := None; rp_meta := None |}))
  /\ (forall cfg, opt_proxy options = ProxyGiven cfg ->
        resolveProxy defaultProxy this options rnd
        = (None, inr {| rp_proxyConfig := Some cfg; rp_meta := None |}))
  /\ (forall owner d geo,
        opt_proxy options = ProxyAbsent ->
        request_director this options = Some (owner, d) ->
        or_else (opt_geo options) (ap_geo this) = Some geo ->
        resolveProxy defaultProxy this options rnd
        = (Some (owner, (pickProxy d geo rnd).1),
           match (pickProxy d geo rnd).2 with
           | inl e => inl e
           | inr pick => inr {| rp_proxyConfig := Some (proxyConfig pick);
                                rp_meta := Some pick |}
           end))
  /\ (opt_proxy options = ProxyAbsent ->
      request_director this options = None
      \/ (opt_geo options = None /\ ap_geo this = None) ->
      resolveProxy defaultProxy this options rnd
      = (None, inr {| rp_proxyConfig := or_else (ap_proxy this) defaultProxy;
                      rp_meta := None |})).
Proof.
  unfold resolveProxy. split; [|split; [|split]].
  - intros ->. reflexivity.
  - intros cfg ->. reflexivity.
  - intros owner d geo -> -> Hgeo. unfold pick_with.
    destruct (opt_geo options) as [g|]; cbn [or_else] in Hgeo.
    + injection Hgeo as ->. destruct (pickProxy d geo rnd). reflexivity.
    + rewrite Hgeo. destruct (pickProxy d geo rnd). reflexivity.
  - intros -> Hno.
    assert (Hfixed : fixed_proxy defaultProxy this
                     = {| rp_proxyConfig := or_else (ap_proxy this) defaultProxy;
                          rp_meta := None |}).
    { unfold fixed_proxy. destruct (ap_proxy this); reflexivity. }
    destruct Hno as [->|[-> ->]].
    + destruct (opt_geo options); rewrite Hfixed; reflexivity.
    + destruct (request_director this options) as [[owner d]|]; rewrite Hfixed; reflexivity.
Qed.

Lemma resolveProxy_precedence_witness :
  resolveProxy (Some (plain_endpoint "default.io"))
    {| ap_proxy := Some (plain_endpoint "fixed.io"); ap_geo := Some no_options;
       ap_proxyDirector := Some us_director |}
    {| opt_proxy := ProxyAbsent; opt_geo := None; opt_proxyDirector := Some lower_director |}
    zero_draws
  = (Some (OfOptions, (pickProxy lower_director no_options zero_draws).1),
     match (pickProxy lower_director no_options zero_draws).2 with
     | inl e => inl e
     | inr pick => inr {| rp_proxyConfig := Some (proxyConfig pick); rp_meta := Some pick |}
     end).
Proof.
  apply (proj1 (proj2 (proj2 (resolveProxy_precedence _ _ _ _)))); reflexivity.
Defined.

(** ** trim, and sanitizing twice *)

Lemma str_app_cons (a : ascii) (s t : string) : String a s +:+ t = String a (s +:+ t).
Proof. reflexivity. Qed.

Lemma str_app_nil_r (s : string) : s +:+ "" = s.
Proof.
  induction s as [|a s IH]; [reflexivity|]. rewrite str_app_cons, IH. reflexivity.
Qed.

Lemma str_app_assoc (a b c : string) : (a +:+ b) +:+ c = a +:+ (b +:+ c).
Proof.
  induction a as [|x a IH]; [reflexivity|]. rewrite !str_app_cons, IH. reflexivity.
Qed.

Lemma rev_app_spec (s1 s2 : string) : String.rev_app s1 s2 = String.rev s1 +:+ s2.
Proof.
  unfold String.rev. revert s2.
  induction s1 as [|a s1 IH]; intros s2; cbn [String.rev_app]; [reflexivity|].
  rewrite (IH (String a s2)), (IH (String a "")), str_app_assoc. reflexivity.
Qed.

Lemma rev_cons (a : ascii) (s : string) : String.rev (String a s) = String.rev s +:+ String a "".
Proof. unfold String.rev at 1. cbn [String.rev_app]. apply rev_app_spec. Qed.

Lemma rev_append (s1 s2 : string) : String.rev (s1 +:+ s2) = String.rev s2 +:+ String.rev s1.
Proof.
  induction s1 as [|a s1 IH].
  - change ("" +:+ s2) with s2. change (String.rev "") with "".
    rewrite str_app_nil_r. reflexivity.
  - rewrite str_app_cons, !rev_cons, IH, str_app_assoc. reflexivity.
Qed.

Lemma rev_involutive (s : string) : String.rev (String.rev s) = s.
Proof.
  induction s as [|a s IH]; [reflexivity|].
  rewrite rev_cons, rev_append, IH. reflexivity.
Qed.

Lemma trim_start_clean (s : string) : starts_clean (trim_start s).
Proof.
  induction s as [|c s IH]; simpl; [exact I|].
  destruct (is_js_space c) eqn:E; [exact IH | exact E].
Qed.

Lemma trim_start_fixed (s : string) : starts_clean s -> trim_start s = s.
Proof. destruct s as [|c s]; simpl; [reflexivity|]. intros ->. reflexivity. Qed.

Lemma trim_start_suffix (s : string) : exists w, s = w +:+ trim_start s.
Proof.
  induction s as [|c s [w IH]]; [exists ""; reflexivity|]. cbn [trim_start].
  destruct (is_js_space c).
  - exists (String c w). rewrite str_app_cons, <- IH. reflexivity.
  - exists "". reflexivity.
Qed.

Lemma starts_clean_prefix (a b : string) : starts_clean (a +:+ b) -> starts_clean a.
Proof. destruct a; [intros; exact I|]. rewrite str_app_cons. auto. Qed.

Lemma trim_clean (s : string) : starts_clean (trim s) /\ starts_clean (String.rev (trim s)).
Proof.
  unfold trim.
  set (t := trim_start s). set (u := trim_start (String.rev t)).
  split.
  - destruct (trim_start_suffix (String.rev t)) as [w Hw]. fold u in Hw.
    pose proof (trim_start_clean s) as Ht. fold t in Ht.
    rewrite <- (rev_involutive t), Hw, rev_append in Ht.
    eapply starts_clean_prefix; exact Ht.
  - rewrite rev_involutive. apply trim_start_clean.
Qed.

Lemma trim_fixed (s : string) :
  starts_clean s -> starts_clean (String.rev s) -> trim s = s.
Proof.
  intros H1 H2. unfold trim.
  rewrite (trim_start_fixed s H1), (trim_start_fixed _ H2). apply rev_involutive.
Qed.

Lemma trim_idem (s : string) : trim (trim s) = trim s.
Proof. destruct (trim_clean s). apply trim_fixed; assumption. Qed.

(** X19. Sanitizing is stable: what [sanitizeEntry] returns is accepted by
    [sanitizeEntry] and returned unchanged, unless the provider consisted
    of white space only.  Such a provider passes the check, is stored as
    the empty string, and the stored entry would then be rejected for its
    provider. *)
Theorem sanitizeEntry_twice (entry : option ProviderEntry) (clean : ProviderEntry) :
  sanitizeEntry entry = inr clean ->
  (provider clean <> Some "" -> sanitizeEntry (Some clean) = inr clean)
  /\ (provider clean = Some "" -> sanitizeEntry (Some clean) = inl BadProvider)
  /\ sanitizeEntry blank_provider_raw
     = inr {| provider := Some ""; notes := None;
              endpoint := endpoint (built_entry "A" "a.io") |}.
Proof.
  intros H. apply sanitizeEntry_inr in H.
  destruct H as (e & ep & prov & p & -> & Hprov & Hep & Hproto & Hhost & Hport & Hp & ->).
  cbn [provider]. split; [|split; [|reflexivity]].
  - intros Hne. unfold sanitizeEntry. cbn [provider endpoint protocol host port username
                                           password auth].
    assert (Ht : truthy (Some (trim prov)) = Some (trim prov)).
    { destruct (trim prov) eqn:E; [exfalso; apply Hne; rewrite ?E; reflexivity | reflexivity]. }
    rewrite Ht, trim_idem.
    assert (Hv : negb (String.eqb (protocol ep) "http" || String.eqb (protocol ep) "https"
                       || String.eqb (protocol ep) "socks5") = false).
    { destruct Hproto as [->|[->| ->]]; reflexivity. }
    rewrite Hv. destruct (String.eqb_spec (host ep) ""); [contradiction|].
    rewrite Hport.
    destruct (Qle_bool p 0) eqn:Hle; [apply Qle_bool_iff in Hle; lra|].
    do 3 f_equal.
    destruct (auth ep); [reflexivity|]. cbn [or_else].
    destruct (string_and (username ep) (password ep)); [|reflexivity].
    destruct (username ep), (password ep); reflexivity.
  - intros [= Hempty]. unfold sanitizeEntry. cbn [provider]. rewrite Hempty. reflexivity.
Qed.

Lemma sanitizeEntry_twice_witness :
  sanitizeEntry (Some (built_entry "A" "a.io")) = inr (built_entry "A" "a.io").
Proof.
  refine (proj1 (sanitizeEntry_twice valid_raw (built_entry "A" "a.io") _) _).
  - reflexivity.
  - discriminate.
Defined.

(** ** Picking without a country *)

(** X20. When the caller names no country and the catalog keys are
    non-empty and upper case, the country of a pick is the one
    [_pickCountry] returned for the draw (in [0,1)), the fall-back to the
    first catalog key is not used.  So if some catalog country has a
    positive weight in the director's distribution, the pick is for a
    country with a positive weight there, or for the first or the last
    catalog key; and if none has, the pick is for the catalog key at
    position [floor(draw * number of countries)]: a distribution of zeros
    (or none at all) means a uniform choice, not "never". *)
Theorem pickProxy_honours_distribution d sel rnd d' m :
  keys_ok (catalog d) = true ->
  truthy (sel_country sel) = None ->
  unit_draw (rand_country rnd) ->
  pickProxy d sel rnd = (d', inr m) ->
  _pickCountry d (rand_country rnd) = Some (pick_country m)
  /\ ((exists c, In c (Object_keys (catalog d)) /\ (0 < country_weight d c)%Q) ->
      (exists w, obj_get (countryDistribution d) (pick_country m) = Some w /\ (0 < w)%Q)
      \/ head (Object_keys (catalog d)) = Some (pick_country m)
      \/ last (Object_keys (catalog d)) = Some (pick_country m))
  /\ ((forall c, In c (Object_keys (catalog d)) -> (country_weight d c <= 0)%Q) ->
      arr_get (Object_keys (catalog d))
        (random_index (rand_country rnd) (length (Object_keys (catalog d))))
      = Some (pick_country m)).
Proof.
  intros Hkeys Hsel Hu Hpick.
  apply pickProxy_inr in Hpick. destruct Hpick as (c0 & t & pool & i & Hres & _ & Hfin).
  apply finishPick_inr in Hfin. destruct Hfin as (entry & ep & _ & _ & _ & Hc & _).
  apply resolvePool_inr in Hres. destruct Hres as (Hrc & Hne & cRec & Hrec & _).
  assert (Hpm : pick_country m = resolveCountry d sel (rand_country rnd)) by congruence.
  assert (Hnonempty : catalog d <> []) by (intros E; rewrite E in Hrec; discriminate).
  assert (Hpicked : _pickCountry d (rand_country rnd) = Some (pick_country m)).
  { destruct (pickCountry_returns d (rand_country rnd) Hnonempty Hu) as (k & Hk & Hin).
    destruct (keys_ok_country _ _ Hkeys Hin) as [Hkne Hup].
    rewrite Hk. f_equal. rewrite Hpm.
    unfold resolveCountry. rewrite Hsel, Hk. cbn [or_else].
    destruct k; [congruence|]. cbn [truthy or_else from_option id]. symmetry. exact Hup. }
  split; [exact Hpicked|]. split.
  - intros Hex. eapply pickCountry_first_last_or_positive; eassumption.
  - intros Hzero. rewrite <- Hpicked. symmetry. apply pickCountry_uniform. exact Hzero.
Qed.

Lemma pickProxy_honours_distribution_witness :
  _pickCountry us_director (1 # 2) = Some (pick_country session_pick).
Proof.
  refine (proj1 (pickProxy_honours_distribution us_director session_options
                   {| rand_country := 1 # 2; rand_index := 0 |} us_director session_pick
                   _ _ _ _)).
  - reflexivity.
  - reflexivity.
  - split; reflexivity || discriminate.
  - vm_compute. reflexivity.
Defined.

(** ** Focusing a country *)

(** X21. [country(code)] throws on the empty string and changes nothing.
    Otherwise it focuses the upper-cased code; a country already in the
    catalog keeps its record and the catalog is unchanged, a new one gets
    an empty record, and every other record stays as it was.  Focusing the
    same country again, in any letter case, gives the same builder. *)
Theorem builder_country_effect (b : ProxyCatalogBuilder) (code : string) :
  Builder.country b "" = (b, Some CountryNotString)
  /\ (code <> "" ->
      let b' := (Builder.country b code).1 in
      (Builder.country b code).2 = None
      /\ _currentCountry b' = Some (toUpperCase code)
      /\ (forall cRec, obj_get (_cat b) (toUpperCase code) = Some cRec -> _cat b' = _cat b)
      /\ (obj_get (_cat b) (toUpperCase code) = None ->
          obj_get (_cat b') (toUpperCase code) = Some [])
      /\ (forall c, c <> toUpperCase code -> obj_get (_cat b') c = obj_get (_cat b) c)
      /\ (forall code', code' <> "" -> toUpperCase code' = toUpperCase code ->
                        (Builder.country b' code').1 = b')).
Proof.
  split; [reflexivity|].
  intros Hne b'. unfold b', Builder.country.
  destruct (String.eqb_spec code ""); [contradiction|]. cbn [fst snd _cat _currentCountry].
  split; [reflexivity|]. split; [reflexivity|].
  split; [intros cRec ->; reflexivity|].
  split; [intros ->; rewrite obj_get_set, String.eqb_refl; reflexivity|].
  split.
  - intros c Hc. destruct (obj_get (_cat b) (toUpperCase code)); [reflexivity|].
    rewrite obj_get_set. destruct (String.eqb_spec (toUpperCase code) c); congruence.
  - intros code' Hne' Hup. destruct (String.eqb_spec code' ""); [contradiction|].
    cbn [fst _cat]. rewrite Hup.
    destruct (obj_get (_cat b) (toUpperCase code)) as [cRec|] eqn:E.
    + rewrite E. reflexivity.
    + rewrite obj_get_set, String.eqb_refl. reflexivity.
Qed.

Lemma builder_country_effect_witness :
  (Builder.country Builder.new "us").2 = None
  /\ _currentCountry us_builder = Some (toUpperCase "us")
  /\ (forall cRec, obj_get (_cat Builder.new) (toUpperCase "us") = Some cRec ->
                   _cat us_builder = _cat Builder.new)
  /\ (obj_get (_cat Builder.new) (toUpperCase "us") = None ->
      obj_get (_cat us_builder) (toUpperCase "us") = Some [])
  /\ (forall c, c <> toUpperCase "us" ->
                obj_get (_cat us_builder) c = obj_get (_cat Builder.new) c)
  /\ (forall code', code' <> "" -> toUpperCase code' = toUpperCase "us" ->
                    (Builder.country us_builder code').1 = us_builder).
Proof.
  apply (proj2 (builder_country_effect Builder.new "us")). discriminate.
Defined.
